(** * doxstorr: a shallow embedding of the storage and transaction engine

    The Python sources are embedded component by component, one module per
    source file.  Conventions shared by all modules:

    - a coroutine is a function of the component's state; [await f(x)] is the
      call of [f] on the current state.  A coroutine that awaits something
      which cannot complete in the current state (a held [asyncio.Lock], a
      full [asyncio.Queue]) has outcome [Hang];
    - a Python exception is an outcome [Raise e] and the state reached when it
      was raised is kept, as mutation of Python objects is not undone by an
      exception;
    - [int(time.time())] is an explicit argument;
    - decorators and constructors are embedded as they are written: a
      decorated method is the wrapper of its decorator applied to the body,
      and a constructor call that raises has outcome [Raise e];
    - calls of the logger are left out. *)

From Stdlib Require Import ZArith Ascii String List Lia Bool.
From Stdlib.Strings Require Import Byte.
From stdpp Require Import gmap strings list fin_maps pretty.

Local Open Scope Z_scope.

(** ** Exceptions (filestore_exceptions.py and the builtins the code meets) *)

Inductive exn : Set :=
  (* Python builtins *)
  | TypeError | ValueError | KeyError | IndexError | RuntimeError | AttributeError
  | ZeroDivisionError | OSError
  | JSONDecodeError            (* a ValueError *)
  | TimeoutError               (* asyncio.TimeoutError *)
  | QueueFull                  (* asyncio.QueueFull *)
  | CancelledError             (* asyncio.CancelledError, a BaseException *)
  (* filestore_exceptions.py *)
  | FilestoreException
  | DocumentException | DocumentNotFoundError | DocumentAlreadyExistsError
  | DocumentValidationError
  | CollectionException | CollectionNotFoundError | CollectionAlreadyExistsError
  | SchemaException | SchemaValidationError
  | IndexException | IndexAlreadyExistsError | IndexNotFoundError
  | TransactionException | TransactionAbortedError | DeadlockDetectedError
  | StorageException | BlockAllocationError | BlockReadError | BlockWriteError
  | ConfigurationException
  | ConcurrencyException | LockAcquisitionError
  | QueryException             (* used by the sources, not declared there *)
  | OperationNotPermittedError.

Global Instance exn_eq_dec : EqDecision exn.
Proof. solve_decision. Defined.

(** The direct base class, [None] for the roots [Exception] and
    [BaseException]. *)
Definition exn_base (e : exn) : option exn :=
  match e with
  | JSONDecodeError => Some ValueError
  | DocumentException | CollectionException | SchemaException | IndexException
  | TransactionException | StorageException | ConfigurationException
  | ConcurrencyException | OperationNotPermittedError => Some FilestoreException
  | DocumentNotFoundError | DocumentAlreadyExistsError
  | DocumentValidationError => Some DocumentException
  | CollectionNotFoundError | CollectionAlreadyExistsError => Some CollectionException
  | SchemaValidationError => Some SchemaException
  | IndexAlreadyExistsError | IndexNotFoundError => Some IndexException
  | TransactionAbortedError | DeadlockDetectedError => Some TransactionException
  | BlockAllocationError | BlockReadError | BlockWriteError => Some StorageException
  | LockAcquisitionError => Some ConcurrencyException
  | _ => None
  end.

(** [isinstance e cls]: the class hierarchy has depth three. *)
Definition isinstance (e cls : exn) : bool :=
  bool_decide (e = cls)
  || match exn_base e with
     | Some b => bool_decide (b = cls)
                 || match exn_base b with
                    | Some b' => bool_decide (b' = cls)
                    | None => false
                    end
     | None => false
     end.

(** [except Exception] catches everything but [CancelledError]. *)
Definition is_Exception (e : exn) : bool := negb (bool_decide (e = CancelledError)).

(** ** Outcomes and the state monad of a component *)

Inductive outcome (A : Type) : Type :=
  | Ok (a : A)          (* the call returns [a] *)
  | Raise (e : exn)     (* the call raises [e] *)
  | Hang                (* the call awaits forever *)
  | Stuck.              (* artefact of the model: recursion bound reached or
                           dangling object reference; no Python run ends here *)
Arguments Ok {A} a.
Arguments Raise {A} e.
Arguments Hang {A}.
Arguments Stuck {A}.

Definition M (S A : Type) : Type := S → outcome A * S.

Definition ret {S A} (a : A) : M S A := λ s, (Ok a, s).
Definition raise {S A} (e : exn) : M S A := λ s, (Raise e, s).
Definition hang {S A} : M S A := λ s, (Hang, s).
Definition bind {S A B} (c : M S A) (k : A → M S B) : M S B :=
  λ s, match c s with
       | (Ok a, s') => k a s'
       | (Raise e, s') => (Raise e, s')
       | (Hang, s') => (Hang, s')
       | (Stuck, s') => (Stuck, s')
       end.
Definition gets {S A} (f : S → A) : M S A := λ s, (Ok (f s), s).
Definition modify {S} (f : S → S) : M S unit := λ s, (Ok tt, f s).

(** [try: c except <handler>]: the handler sees every raised exception and
    re-raises the ones no clause matches. *)
Definition try_except {S A} (c : M S A) (h : exn → M S A) : M S A :=
  λ s, match c s with
       | (Raise e, s') => h e s'
       | r => r
       end.

(** A [try] whose clauses all re-raise: [f e] is the exception that leaves
    the statement when [c] raises [e]. *)
Definition try_reraise {S A} (c : M S A) (f : exn → exn) : M S A :=
  try_except c (λ e, raise (f e)).

(** [try: c except Exception as e: raise cls(...)] *)
Definition wrap {S A} (cls : exn) (c : M S A) : M S A :=
  try_reraise c (λ e, if is_Exception e then cls else e).

(** [try: c finally: f]. *)
Definition try_finally {S A} (c : M S A) (f : S → S) : M S A :=
  λ s, match c s with
       | (Hang, s') => (Hang, s')
       | (Stuck, s') => (Stuck, s')
       | (r, s') => (r, f s')
       end.

(** Running a component coroutine inside a larger state. *)
Definition lift {S T A} (proj : T → S) (upd : S → T → T) (c : M S A) : M T A :=
  λ t, let '(r, s') := c (proj t) in (r, upd s' t).

Declare Scope monad_scope.
Delimit Scope monad_scope with monad.
Notation "'do' x <- c ; k" := (bind c (λ x, k))
  (at level 10, x name, c at level 100, k at level 200) : monad_scope.
Notation "'do' ' p <- c ; k" := (bind c (λ x, match x with p => k end))
  (at level 10, p pattern, c at level 100, k at level 200) : monad_scope.
Notation "c ';;' k" := (bind c (λ _, k))
  (at level 100, k at level 200, right associativity) : monad_scope.
Local Open Scope monad_scope.

Definition of_option {S A} (o : option A) (e : exn) : M S A :=
  match o with Some a => ret a | None => raise e end.

(** ** Python sequences with integer indices *)

Module Py.

(** [l[i]]: a negative index counts from the end, out of range raises
    [IndexError]. *)
Definition index {A} (l : list A) (i : Z) : option A :=
  let n := Z.of_nat (length l) in
  let j := if i <? 0 then i + n else i in
  if (0 <=? j) && (j <? n) then l !! Z.to_nat j else None.

(** The position a slice bound denotes: negative bounds count from the end
    and the result is clamped to the list. *)
Definition bound {A} (l : list A) (i : Z) : nat :=
  let n := Z.of_nat (length l) in
  let j := if i <? 0 then i + n else i in
  Z.to_nat (Z.max 0 (Z.min j n)).

(** [l[i:]] and [l[:i]]. *)
Definition slice_from {A} (l : list A) (i : Z) : list A := drop (bound l i) l.
Definition slice_to {A} (l : list A) (i : Z) : list A := take (bound l i) l.

(** [l.insert(i, x)] for [0 <= i]. *)
Definition insert_at {A} (i : nat) (x : A) (l : list A) : list A :=
  take i l ++ x :: drop i l.

End Py.

(** ** b_plus_tree.py *)

Module b_plus_tree.

(** Keys and values are [Any] in the source.  The objects that reach the
    comparisons of the tree: [None], integers, strings and tuples. *)
#[warnings="-register-all"] Inductive pyobj : Type :=
  | ONone
  | OInt (z : Z)
  | OStr (s : string)
  | OTuple (l : list pyobj).

(** [a == b] *)
Fixpoint py_eqb (a b : pyobj) : bool :=
  match a, b with
  | ONone, ONone => true
  | OInt x, OInt y => x =? y
  | OStr x, OStr y => String.eqb x y
  | OTuple xs, OTuple ys =>
      (fix go (xs ys : list pyobj) : bool :=
         match xs, ys with
         | [], [] => true
         | x :: xs', y :: ys' => py_eqb x y && go xs' ys'
         | _, _ => false
         end) xs ys
  | _, _ => false
  end.

(** Three-way ordering, [None] where Python raises [TypeError]: numbers
    against numbers, strings against strings; tuples lexicographically, the
    first pair of unequal items deciding. *)
Fixpoint py_cmp (a b : pyobj) : option comparison :=
  match a, b with
  | OInt x, OInt y => Some (x ?= y)
  | OStr x, OStr y => Some (String.compare x y)
  | OTuple xs, OTuple ys =>
      (fix go (xs ys : list pyobj) : option comparison :=
         match xs, ys with
         | [], [] => Some Eq
         | [], _ :: _ => Some Lt
         | _ :: _, [] => Some Gt
         | x :: xs', y :: ys' => if py_eqb x y then go xs' ys' else py_cmp x y
         end) xs ys
  | _, _ => None
  end.

Definition cmp_op {S} (f : comparison → bool) (a b : pyobj) : M S bool :=
  match py_cmp a b with
  | Some c => ret (f c)
  | None => raise TypeError
  end.

(** [a < b], [a > b], [a <= b] *)
Definition py_lt {S} : pyobj → pyobj → M S bool :=
  cmp_op (λ c, match c with Lt => true | _ => false end).
Definition py_gt {S} : pyobj → pyobj → M S bool :=
  cmp_op (λ c, match c with Gt => true | _ => false end).
Definition py_le {S} : pyobj → pyobj → M S bool :=
  cmp_op (λ c, match c with Gt => false | _ => true end).

Definition chars (s : string) : list pyobj :=
  (λ c, OStr (String c EmptyString)) <$> list_ascii_of_string s.

(** [a[i]] *)
Definition py_getitem {S} (a : pyobj) (i : Z) : M S pyobj :=
  match a with
  | OTuple l => of_option (Py.index l i) IndexError
  | OStr s => of_option (Py.index (chars s) i) IndexError
  | _ => raise TypeError
  end.

(** [k, v = a] *)
Definition py_unpack2 {S} (a : pyobj) : M S (pyobj * pyobj) :=
  match a with
  | OTuple [k; v] => ret (k, v)
  | OTuple _ => raise ValueError
  | OStr s => match chars s with [k; v] => ret (k, v) | _ => raise ValueError end
  | _ => raise TypeError
  end.

(** [l[i] = x] for [0 <= i]. *)
Definition py_setitem {S A} (l : list A) (i : nat) (x : A) : M S (list A) :=
  if bool_decide (i < length l)%nat then ret (<[i := x]> l) else raise IndexError.

(** Nodes are objects: a node is referred to by its address in [nodes], so
    that [children] and [next] alias as in the source. *)
Record BPlusNode : Type := mkNode {
  leaf : bool;
  keys : list pyobj;
  children : list nat;
  next : option nat;
}.

Record BPlusTree : Type := mkTree {
  nodes : list BPlusNode;
  root : nat;
  order : Z;
}.

Definition set_keys (ks : list pyobj) (n : BPlusNode) : BPlusNode :=
  mkNode (leaf n) ks (children n) (next n).
Definition set_children (cs : list nat) (n : BPlusNode) : BPlusNode :=
  mkNode (leaf n) (keys n) cs (next n).
Definition set_next (nx : option nat) (n : BPlusNode) : BPlusNode :=
  mkNode (leaf n) (keys n) (children n) nx.

Definition T := M BPlusTree.

Definition get_node (a : nat) : T BPlusNode :=
  λ t, match nodes t !! a with
       | Some n => (Ok n, t)
       | None => (Stuck, t)
       end.

Definition update_node (a : nat) (f : BPlusNode → BPlusNode) : T unit :=
  do n <- get_node a;
  modify (λ t, mkTree (<[a := f n]> (nodes t)) (root t) (order t)).

(** [BPlusNode(leaf)] *)
Definition new_node (lf : bool) : T nat :=
  λ t, (Ok (length (nodes t)),
        mkTree (nodes t ++ [mkNode lf [] [] None]) (root t) (order t)).

(** [BPlusTree(order)] *)
Definition init (m : Z) : BPlusTree := mkTree [mkNode true [] [] None] 0 m.

Definition _split_child (parent : nat) (index : nat) : T unit :=
  do m <- gets order;
  do p <- get_node parent;
  do child <- of_option (Py.index (children p) (Z.of_nat index)) IndexError;
  do c <- get_node child;
  do new_child <- new_node (leaf c);
  do med <- of_option (Py.index (keys c) (m - 1)) IndexError;
  update_node parent (λ n, set_keys (Py.insert_at index med (keys n)) n);;
  update_node parent (λ n, set_children (Py.insert_at (S index) new_child (children n)) n);;
  do c <- get_node child;
  update_node new_child (set_keys (Py.slice_from (keys c) m));;
  update_node child (λ n, set_keys (Py.slice_to (keys n) (m - 1)) n);;
  do c <- get_node child;
  if negb (leaf c) then
    update_node new_child (set_children (Py.slice_from (children c) m));;
    update_node child (λ n, set_children (Py.slice_to (children n) m) n)
  else
    update_node new_child (set_next (next c));;
    update_node child (set_next (Some new_child)).

(** The leaf loop of [_insert_non_full], entered with [i = n - 1]:
    [while i >= 0 and key < node.keys[i][0]: node.keys[i + 1] = node.keys[i]; i -= 1];
    the result is [i + 1]. *)
Fixpoint shift_keys (n : nat) (node : nat) (key : pyobj) : T nat :=
  match n with
  | O => ret O
  | S i =>
      do nd <- get_node node;
      do ki <- of_option (keys nd !! i) IndexError;
      do k <- py_getitem ki 0;
      do b <- py_lt key k;
      if b then
        do ks <- py_setitem (keys nd) (S i) ki;
        update_node node (set_keys ks);;
        shift_keys i node key
      else ret (S i)
  end.

(** The inner loop of [_insert_non_full], entered with [i = n - 1]:
    [while i >= 0 and key < node.keys[i]: i -= 1], then [i += 1]. *)
Fixpoint scan_down (n : nat) (ks : list pyobj) (key : pyobj) : T nat :=
  match n with
  | O => ret O
  | S i =>
      do ki <- of_option (ks !! i) IndexError;
      do b <- py_lt key ki;
      if b then scan_down i ks key else ret (S i)
  end.

Definition is_full (m : Z) (n : BPlusNode) : bool :=
  Z.of_nat (length (keys n)) =? 2 * m - 1.

Fixpoint _insert_non_full (fuel : nat) (node : nat) (key value : pyobj) : T unit :=
  match fuel with
  | O => λ t, (Stuck, t)
  | S fuel' =>
      do nd <- get_node node;
      if leaf nd then
        update_node node (λ n, set_keys (keys n ++ [OTuple [ONone; ONone]]) n);;
        do j <- shift_keys (length (keys nd)) node key;
        do nd <- get_node node;
        do ks <- py_setitem (keys nd) j (OTuple [key; value]);
        update_node node (set_keys ks)
      else
        do i <- scan_down (length (keys nd)) (keys nd) key;
        do child <- of_option (children nd !! i) IndexError;
        do c <- get_node child;
        do m <- gets order;
        if is_full m c then
          _split_child node i;;
          do nd <- get_node node;
          do ki <- of_option (keys nd !! i) IndexError;
          do b <- py_gt key ki;
          let i := if b then S i else i in
          do child <- of_option (children nd !! i) IndexError;
          _insert_non_full fuel' child key value
        else
          _insert_non_full fuel' child key value
  end.

(** Every descent visits a node once, so the number of nodes bounds it. *)
Definition depth_bound : T nat := gets (λ t, S (length (nodes t))).

Definition insert (key value : pyobj) : T unit :=
  do r <- gets root;
  do rn <- get_node r;
  do m <- gets order;
  (if is_full m rn then
     do new_root <- new_node false;
     update_node new_root (λ n, set_children (children n ++ [r]) n);;
     _split_child new_root 0;;
     modify (λ t, mkTree (nodes t) new_root (order t))
   else ret tt);;
  do r <- gets root;
  do fuel <- depth_bound;
  _insert_non_full fuel r key value.

(** The loop of [_find_leaf] from index [i], over the keys not yet passed:
    [while i < len(node.keys) and key > node.keys[i]: i += 1]. *)
Fixpoint scan_up (ks : list pyobj) (i : nat) (key : pyobj) : T nat :=
  match ks with
  | [] => ret i
  | k :: ks' =>
      do b <- py_gt key k;
      if b then scan_up ks' (S i) key else ret i
  end.

Fixpoint _find_leaf (fuel : nat) (node : nat) (key : pyobj) : T nat :=
  match fuel with
  | O => λ t, (Stuck, t)
  | S fuel' =>
      do nd <- get_node node;
      if leaf nd then ret node
      else
        do i <- scan_up (keys nd) 0 key;
        do child <- of_option (children nd !! i) IndexError;
        _find_leaf fuel' child key
  end.

(** The [for key, value in leaf.keys] loop of [range_query]; [inr] is the
    early [return result]. *)
Fixpoint scan_leaf (es : list pyobj) (start_key end_key : pyobj)
    (result : list (pyobj * pyobj)) : T (list (pyobj * pyobj) + list (pyobj * pyobj)) :=
  match es with
  | [] => ret (inl result)
  | e :: es' =>
      do '(key, value) <- py_unpack2 e;
      do b1 <- py_le start_key key;
      do b2 <- (if b1 then py_le key end_key else ret false);
      if b2 then scan_leaf es' start_key end_key (result ++ [(key, value)])
      else
        do b3 <- py_gt key end_key;
        if b3 then ret (inr result)
        else scan_leaf es' start_key end_key result
  end.

(** The [while leaf] loop of [range_query]. *)
Fixpoint walk_leaves (fuel : nat) (lf : option nat) (start_key end_key : pyobj)
    (result : list (pyobj * pyobj)) : T (list (pyobj * pyobj)) :=
  match lf with
  | None => ret result
  | Some a =>
      match fuel with
      | O => λ t, (Stuck, t)
      | S fuel' =>
          do nd <- get_node a;
          do r <- scan_leaf (keys nd) start_key end_key result;
          match r with
          | inr result => ret result
          | inl result => walk_leaves fuel' (next nd) start_key end_key result
          end
      end
  end.

Definition range_query (start_key end_key : pyobj) : T (list (pyobj * pyobj)) :=
  do r <- gets root;
  do fuel <- depth_bound;
  do lf <- _find_leaf fuel r start_key;
  walk_leaves fuel (Some lf) start_key end_key [].

(** The loop of [_search]:
    [while i < len(node.keys) and key > node.keys[i][0]: i += 1]. *)
Fixpoint scan_search (ks : list pyobj) (i : nat) (key : pyobj) : T nat :=
  match ks with
  | [] => ret i
  | k :: ks' =>
      do k0 <- py_getitem k 0;
      do b <- py_gt key k0;
      if b then scan_search ks' (S i) key else ret i
  end.

Fixpoint _search (fuel : nat) (node : nat) (key : pyobj) : T (option pyobj) :=
  match fuel with
  | O => λ t, (Stuck, t)
  | S fuel' =>
      do nd <- get_node node;
      do i <- scan_search (keys nd) 0 key;
      if leaf nd then
        match keys nd !! i with
        | Some e =>
            do k0 <- py_getitem e 0;
            if py_eqb k0 key then
              do v <- py_getitem e 1; ret (Some v)
            else ret None
        | None => ret None
        end
      else
        do child <- of_option (children nd !! i) IndexError;
        _search fuel' child key
  end.

Definition search (key : pyobj) : T (option pyobj) :=
  do r <- gets root;
  do fuel <- depth_bound;
  _search fuel r key.

(** [for k, v in kvs: tree.insert(k, v)] *)
Fixpoint insert_all (kvs : list (pyobj * pyobj)) : T unit :=
  match kvs with
  | [] => ret tt
  | (k, v) :: kvs' => insert k v;; insert_all kvs'
  end.

End b_plus_tree.

(** ** block_pointer_table.py *)

Module block_pointer_table.

(** [entries] and [indirect_entries] are parallel lists indexed by entry id;
    [locked] is the state of [self.lock], an [asyncio.Lock]. *)
Record BlockPointerTable : Type := mkTable {
  entries : list (list (Z * Z));
  indirect_entries : list (list nat);
  locked : bool;
}.

Definition T := M BlockPointerTable.

(** [BlockPointerTable()] *)
Definition init : BlockPointerTable := mkTable [] [] false.

Definition set_locked (b : bool) (t : BlockPointerTable) : BlockPointerTable :=
  mkTable (entries t) (indirect_entries t) b.
Definition set_entries (es : list (list (Z * Z))) (t : BlockPointerTable) :=
  mkTable es (indirect_entries t) (locked t).
Definition set_indirect (inds : list (list nat)) (t : BlockPointerTable) :=
  mkTable (entries t) inds (locked t).

(** [async with self.lock: body].  [asyncio.Lock] is not reentrant: acquiring
    it while it is held waits for a release. *)
Definition with_lock {A} (body : T A) : T A :=
  λ t, if locked t then (Hang, t)
       else match body (set_locked true t) with
            | (Hang, t') => (Hang, t')
            | (Stuck, t') => (Stuck, t')
            | (r, t') => (r, set_locked false t')
            end.

Definition create_entry : T nat :=
  with_lock (
    modify (λ t, set_entries (entries t ++ [[]]) t);;
    modify (λ t, set_indirect (indirect_entries t ++ [[]]) t);;
    gets (λ t, (length (entries t) - 1)%nat)).

(** [self.entries[i].append(p)] *)
Definition append_pointer (i : nat) (p : Z * Z) : T unit :=
  do es <- gets entries;
  do e <- of_option (es !! i) IndexError;
  modify (set_entries (<[i := e ++ [p]]> es)).

(** [self.indirect_entries[i].append(j)] *)
Definition append_indirect (i j : nat) : T unit :=
  do inds <- gets indirect_entries;
  do ind <- of_option (inds !! i) IndexError;
  modify (set_indirect (<[i := ind ++ [j]]> inds)).

Definition add_pointer (entry_id : nat) (block_store_id record_location : Z) : T unit :=
  with_lock (
    do es <- gets entries;
    if bool_decide (length es ≤ entry_id)%nat then raise ValueError
    else
      do entry <- of_option (es !! entry_id) IndexError;
      if bool_decide (length entry < 16)%nat then
        append_pointer entry_id (block_store_id, record_location)
      else
        do inds <- gets indirect_entries;
        do indirect_entry <- of_option (inds !! entry_id) IndexError;
        (match indirect_entry with
         | [] => do n <- create_entry; append_indirect entry_id n
         | _ => ret tt
         end);;
        do inds <- gets indirect_entries;
        do indirect_entry <- of_option (inds !! entry_id) IndexError;
        do last_id <- of_option (last indirect_entry) IndexError;
        do es <- gets entries;
        do last_indirect <- of_option (es !! last_id) IndexError;
        do target <- (if bool_decide (length last_indirect = 16%nat) then
                        do new_indirect <- create_entry;
                        append_indirect entry_id new_indirect;;
                        ret new_indirect
                      else ret last_id);
        append_pointer target (block_store_id, record_location)).

(** [for indirect_id in ...: result.extend(self.entries[indirect_id])] *)
Fixpoint extend_all (es : list (list (Z * Z))) (ids : list nat)
    (result : list (Z * Z)) : T (list (Z * Z)) :=
  match ids with
  | [] => ret result
  | i :: ids' =>
      do e <- of_option (es !! i) IndexError;
      extend_all es ids' (result ++ e)
  end.

Definition get_pointers (entry_id : nat) : T (list (Z * Z)) :=
  with_lock (
    do es <- gets entries;
    if bool_decide (length es ≤ entry_id)%nat then raise ValueError
    else
      do result <- of_option (es !! entry_id) IndexError;
      do inds <- gets indirect_entries;
      do ids <- of_option (inds !! entry_id) IndexError;
      extend_all es ids result).

Definition get_indirect_pointers (entry_id : nat) : T (option (list nat)) :=
  with_lock (
    do inds <- gets indirect_entries;
    if bool_decide (length inds ≤ entry_id)%nat then raise ValueError
    else
      do ind <- of_option (inds !! entry_id) IndexError;
      ret (match ind with [] => None | _ => Some ind end)).

(** [for (s, l) in ps: await table.add_pointer(id, s, l)] *)
Fixpoint add_pointers (entry_id : nat) (ps : list (Z * Z)) : T unit :=
  match ps with
  | [] => ret tt
  | (s, l) :: ps' => add_pointer entry_id s l;; add_pointers entry_id ps'
  end.

(** The direct lists of the indirect children of an entry, in order. *)
Definition indirect_pointers (t : BlockPointerTable) (entry_id : nat) : list (Z * Z) :=
  match indirect_entries t !! entry_id with
  | Some ids => concat ((λ i, default [] (entries t !! i)) <$> ids)
  | None => []
  end.

(** The class invariant: one indirect list per entry. *)
Definition parallel (t : BlockPointerTable) : Prop :=
  length (entries t) = length (indirect_entries t).

End block_pointer_table.

(** ** lru_cache.py *)

Module lru_cache.

(** The [OrderedDict], least recently used entry first. *)
Record LRUCache (V : Type) : Type := mkCache {
  capacity : Z;
  cache : list (Z * V);
}.
Arguments mkCache {V} _ _.
Arguments capacity {V} _.
Arguments cache {V} _.

Section ops.
Context {V : Type}.

(** [LRUCache(capacity)] *)
Definition init (cap : Z) : LRUCache V := mkCache cap [].

Definition find (key : Z) (l : list (Z * V)) : option V :=
  snd <$> List.find (λ kv, bool_decide (kv.1 = key)) l.

Definition remove (key : Z) (l : list (Z * V)) : list (Z * V) :=
  List.filter (λ kv, negb (bool_decide (kv.1 = key))) l.

(** [get] returns [None] for a missing key and moves a found key to the end. *)
Definition get (key : Z) (c : LRUCache V) : option V * LRUCache V :=
  match find key (cache c) with
  | None => (None, c)
  | Some v => (Some v, mkCache (capacity c) (remove key (cache c) ++ [(key, v)]))
  end.

(** [put]: the key ends up last with the new value, then the first entry is
    dropped if the capacity is exceeded. *)
Definition put (key : Z) (value : V) (c : LRUCache V) : LRUCache V :=
  let l := remove key (cache c) ++ [(key, value)] in
  mkCache (capacity c)
    (if capacity c <? Z.of_nat (length l) then tail l else l).

Definition invalidate (key : Z) (c : LRUCache V) : LRUCache V :=
  mkCache (capacity c) (remove key (cache c)).

End ops.

End lru_cache.

(** ** reader_writer_lock.py *)

Module reader_writer_lock.

(** [_read_ready] is the flag of the [asyncio.Event], [_write_lock] the state
    of the [asyncio.Lock]. *)
Record ReaderWriterLock : Type := mkLock {
  _read_ready : bool;
  _readers : Z;
  _writers : Z;
  _write_lock : bool;
}.

Definition T := M ReaderWriterLock.

(** [ReaderWriterLock()] *)
Definition init : ReaderWriterLock := mkLock true 0 0 false.

Definition set_read_ready (b : bool) (l : ReaderWriterLock) :=
  mkLock b (_readers l) (_writers l) (_write_lock l).
Definition set_readers (n : Z) (l : ReaderWriterLock) :=
  mkLock (_read_ready l) n (_writers l) (_write_lock l).
Definition set_writers (n : Z) (l : ReaderWriterLock) :=
  mkLock (_read_ready l) (_readers l) n (_write_lock l).
Definition set_write_lock (b : bool) (l : ReaderWriterLock) :=
  mkLock (_read_ready l) (_readers l) (_writers l) b.

(** [await self._read_ready.wait()]: returns at once when the event is set,
    and waits for another task to set it when it is not. *)
Definition wait_read_ready : T unit :=
  λ l, if _read_ready l then (Ok tt, l) else (Hang, l).

(** [async with self._write_lock: body].  A body that waits keeps the
    lock. *)
Definition with_write_lock {A} (body : T A) : T A :=
  λ l, if _write_lock l then (Hang, l)
       else match body (set_write_lock true l) with
            | (Hang, l') => (Hang, l')
            | (Stuck, l') => (Stuck, l')
            | (r, l') => (r, set_write_lock false l')
            end.

Definition acquire_read : T unit :=
  wait_read_ready;;
  with_write_lock (
    modify (λ l, set_readers (_readers l + 1) l);;
    do n <- gets _readers;
    if n =? 1 then modify (set_read_ready false) else ret tt).

Definition release_read : T unit :=
  with_write_lock (
    modify (λ l, set_readers (_readers l - 1) l);;
    do n <- gets _readers;
    if n =? 0 then modify (set_read_ready true) else ret tt).

Definition acquire_write : T unit :=
  with_write_lock (
    modify (λ l, set_writers (_writers l + 1) l);;
    do n <- gets _writers;
    if n =? 1 then wait_read_ready else ret tt).

Definition release_write : T unit :=
  modify (λ l, set_writers (_writers l - 1) l);;
  do n <- gets _writers;
  if n =? 0 then modify (set_read_ready true) else ret tt.

(** [try: c finally: await f] *)
Definition finally_await {S A} (c : M S A) (f : M S unit) : M S A :=
  λ s, match c s with
       | (Hang, s') => (Hang, s')
       | (Stuck, s') => (Stuck, s')
       | (r, s') =>
           match f s' with
           | (Ok _, s'') => (r, s'')
           | (Raise e, s'') => (Raise e, s'')
           | (Hang, s'') => (Hang, s'')
           | (Stuck, s'') => (Stuck, s'')
           end
       end.

(** The decorators [reader_lock] and [writer_lock].  [wrapper] runs on the
    decorated object [self], of state [S]:

    - [locks_get_create] is [await self.locks.get(args[0], create=True)],
      whose value is the lock of the first argument, here by its state, held
      or free;
    - [async with AsyncLock(lock)] awaits [lock.acquire()], which waits when
      the lock is held, and releases the lock on exit;
    - [on_lock] runs a coroutine of [self.lock]. *)
Section decorators.
Context {S : Type}.
Context (locks_get_create : M S bool).
Context (on_lock : ∀ A, M ReaderWriterLock A → M S A).

Definition reader_lock {A} (func : M S A) : M S A :=
  do held <- locks_get_create;
  if (held : bool) then hang
  else
    on_lock _ acquire_read;;
    finally_await func (on_lock _ release_read).

Definition writer_lock {A} (func : M S A) : M S A :=
  do held <- locks_get_create;
  if (held : bool) then hang
  else
    on_lock _ acquire_write;;
    finally_await func (on_lock _ release_write).

End decorators.

End reader_writer_lock.

(** ** block_store.py *)

Module block_store.

(** [file] is the content of the file at [file_path]. *)
Record BlockStore : Type := mkBlockStore {
  block_size : Z;
  file : list byte;
  free_blocks : list Z;
}.

Definition T := M BlockStore.

(** [BlockStore(file_path, block_size)] on a path without file. *)
Definition init (size : Z) : BlockStore := mkBlockStore size [] [].

(** [SmallBlockStore], [MediumBlockStore], [LargeBlockStore] *)
Definition SmallBlockStore : BlockStore := init (4 * 1024).
Definition MediumBlockStore : BlockStore := init (64 * 1024).
Definition LargeBlockStore : BlockStore := init (1024 * 1024).

Definition set_file (f : list byte) (b : BlockStore) :=
  mkBlockStore (block_size b) f (free_blocks b).
Definition set_free_blocks (l : list Z) (b : BlockStore) :=
  mkBlockStore (block_size b) (file b) l.

(** [b'\0' * n] *)
Definition zeros (n : Z) : list byte := replicate (Z.to_nat n) x00.

(** [data.ljust(n, b'\0')] *)
Definition ljust (data : list byte) (n : Z) : list byte :=
  data ++ zeros (n - Z.of_nat (length data)).

(** [f.seek(offset); f.write(data)] on a file opened with ['r+b']: a gap
    after the end of the file is filled with zeros. *)
Definition write_at (offset : nat) (data f : list byte) : list byte :=
  take offset (f ++ replicate (offset - length f) x00) ++ data
  ++ drop (offset + length data) f.

(** [f.seek(offset); f.read(n)] *)
Definition read_at (offset : nat) (n : Z) (f : list byte) : list byte :=
  take (Z.to_nat n) (drop offset f).

Definition _allocate_block_sync : T Z :=
  do fb <- gets free_blocks;
  match last fb with
  | Some block_id =>
      modify (set_free_blocks (removelast fb));;
      ret block_id
  | None =>
      try_reraise (
        do size <- gets block_size;
        do f <- gets file;
        if size =? 0 then raise ZeroDivisionError
        else
          modify (set_file (f ++ zeros size));;
          ret (Z.of_nat (length f) / size))
      (λ e, if isinstance e OSError then BlockAllocationError else e)
  end.

Definition allocate_block : T Z := wrap BlockAllocationError _allocate_block_sync.

Definition _write_block_sync (block_id : Z) (data : list byte) : T unit :=
  try_reraise (
    do size <- gets block_size;
    if block_id * size <? 0 then raise OSError
    else
      modify (λ b, set_file (write_at (Z.to_nat (block_id * size)) (ljust data size) (file b)) b))
  (λ e, if isinstance e OSError then BlockWriteError else e).

Definition write_block (block_id : Z) (data : list byte) : T unit :=
  wrap BlockWriteError (_write_block_sync block_id data).

Definition _read_block_sync (block_id : Z) : T (list byte) :=
  try_reraise (
    do size <- gets block_size;
    if block_id * size <? 0 then raise OSError
    else gets (λ b, read_at (Z.to_nat (block_id * size)) size (file b)))
  (λ e, if isinstance e OSError then BlockReadError else e).

Definition read_block (block_id : Z) : T (list byte) :=
  wrap BlockReadError (_read_block_sync block_id).

Definition _free_block_sync (block_id : Z) : T unit :=
  modify (λ b, set_free_blocks (free_blocks b ++ [block_id]) b).

Definition free_block (block_id : Z) : T unit :=
  wrap StorageException (_free_block_sync block_id).

End block_store.

(** ** index_manager_config.py, index_manager.py *)

Module index_manager.

(** The configuration, after [IndexManagerConfig] has read the dictionary
    with its defaults. *)
Record IndexManagerConfig : Type := mkConfig {
  enable_ref_indexing : bool;
  enable_compound_indexes : bool;
  enable_partial_indexes : bool;
  enable_text_search : bool;
  enable_async_updates : bool;
  enable_usage_statistics : bool;
  async_update_queue_size : Z;
  text_search_language : string;
}.

(** [IndexManagerConfig({})] *)
Definition default_config : IndexManagerConfig :=
  mkConfig false false false false false false 1000 "english".

Record Index : Type := mkIndex {
  tree : b_plus_tree.BPlusTree;
  is_compound : bool;
  filter_condition : option (b_plus_tree.pyobj → bool);
}.

(** The tree whose bound method was put on the update queue. *)
Inductive target : Type :=
  | Keyed (name : string)
  | Ref (name : string).

(** An item of the update queue: [(tree.insert, key, value)] or
    [(tree.delete, key)]. *)
Inductive update : Type :=
  | QInsert (tg : target) (key : b_plus_tree.pyobj) (value : Z)
  | QDelete (tg : target) (key : b_plus_tree.pyobj).

Record IndexManager : Type := mkManager {
  config : IndexManagerConfig;
  indexes : gmap string Index;
  ref_indexes : gmap string Index;
  text_indexes : gmap string (gmap string (list Z));
  async_update_queue : list update;
}.

Definition T := M IndexManager.

(** [IndexManager(config)] *)
Definition init (cfg : IndexManagerConfig) : IndexManager :=
  mkManager cfg ∅ ∅ ∅ [].

Definition set_indexes (ix : gmap string Index) (m : IndexManager) :=
  mkManager (config m) ix (ref_indexes m) (text_indexes m) (async_update_queue m).
Definition set_ref_indexes (ix : gmap string Index) (m : IndexManager) :=
  mkManager (config m) (indexes m) ix (text_indexes m) (async_update_queue m).
Definition set_text_indexes (tx : gmap string (gmap string (list Z))) (m : IndexManager) :=
  mkManager (config m) (indexes m) (ref_indexes m) tx (async_update_queue m).
Definition set_queue (q : list update) (m : IndexManager) :=
  mkManager (config m) (indexes m) (ref_indexes m) (text_indexes m) q.

Definition create_index (name : string) (compound : bool)
    (filter : option (b_plus_tree.pyobj → bool)) : T unit :=
  wrap IndexException (
    do cfg <- gets config;
    if compound && negb (enable_compound_indexes cfg) then raise ConfigurationException
    else if bool_decide (is_Some filter) && negb (enable_partial_indexes cfg)
    then raise ConfigurationException
    else
      do ix <- gets indexes;
      if bool_decide (is_Some (ix !! name)) then raise IndexAlreadyExistsError
      else modify (set_indexes (<[name := mkIndex (b_plus_tree.init 10) compound filter]> ix))).

Definition create_ref_index (name : string) : T unit :=
  wrap IndexException (
    do cfg <- gets config;
    if negb (enable_ref_indexing cfg) then raise ConfigurationException
    else
      do ix <- gets ref_indexes;
      if bool_decide (is_Some (ix !! name)) then raise IndexAlreadyExistsError
      else modify (set_ref_indexes (<[name := mkIndex (b_plus_tree.init 10) false None]> ix))).

Definition create_text_index (name : string) : T unit :=
  wrap IndexException (
    do cfg <- gets config;
    if negb (enable_text_search cfg) then raise ConfigurationException
    else
      do tx <- gets text_indexes;
      if bool_decide (is_Some (tx !! name)) then raise IndexAlreadyExistsError
      else modify (set_text_indexes (<[name := ∅]> tx))).

(** [asyncio.Queue.full()]: a queue of size zero or less is unbounded. *)
Definition queue_full (m : IndexManager) : bool :=
  (0 <? async_update_queue_size (config m))
  && (async_update_queue_size (config m) <=? Z.of_nat (length (async_update_queue m))).

(** [await self.async_update_queue.put(item)]: [Queue.put] waits for a free
    slot when the queue is full; it is [put_nowait] that raises [QueueFull]. *)
Definition queue_put (item : update) : T unit :=
  λ m, if queue_full m then (Hang, m)
       else (Ok tt, set_queue (async_update_queue m ++ [item]) m).

(** The call of the bound method [tree.insert] of the tree of [tg]. *)
Definition tree_insert (tg : target) (key : b_plus_tree.pyobj) (value : Z) : T unit :=
  λ m,
    let '(ixs, name, set) :=
      match tg with
      | Keyed name => (indexes m, name, set_indexes)
      | Ref name => (ref_indexes m, name, set_ref_indexes)
      end in
    match ixs !! name with
    | Some ix =>
        let '(r, tr) := b_plus_tree.insert key (b_plus_tree.OInt value) (tree ix) in
        (r, set (<[name := mkIndex tr (is_compound ix) (filter_condition ix)]> ixs) m)
    | None => (Stuck, m)
    end.

Definition _insert_or_queue (tg : target) (key : b_plus_tree.pyobj) (value : Z) : T unit :=
  try_reraise (
    do cfg <- gets config;
    if enable_async_updates cfg then queue_put (QInsert tg key value)
    else tree_insert tg key value)
  (λ e, if isinstance e QueueFull then ConcurrencyException
        else if is_Exception e then IndexException
        else e).

(** [tree.delete]: [BPlusTree] defines no [delete], so that looking the
    method up raises [AttributeError] and no call of it is reached. *)
Definition tree_delete (tg : target) (key : b_plus_tree.pyobj) : T unit :=
  raise AttributeError.

Definition _delete_or_queue (tg : target) (key : b_plus_tree.pyobj) : T unit :=
  try_reraise (
    do cfg <- gets config;
    if enable_async_updates cfg then queue_put (QDelete tg key)
    else tree_delete tg key)
  (λ e, if isinstance e QueueFull then ConcurrencyException
        else if is_Exception e then IndexException
        else e).

(** [re.findall(r'\w+', text.lower())] on ASCII text: a word character is a
    letter, a digit or the underscore. *)
Definition is_word (c : ascii) : bool :=
  let n := nat_of_ascii c in
  ((48 <=? n) && (n <=? 57) || (65 <=? n) && (n <=? 90)
   || (n =? 95) || (97 <=? n) && (n <=? 122))%nat.

Definition lower_char (c : ascii) : ascii :=
  let n := nat_of_ascii c in
  if ((65 <=? n) && (n <=? 90))%nat then ascii_of_nat (n + 32) else c.

Fixpoint lower (s : string) : string :=
  match s with
  | EmptyString => EmptyString
  | String c s' => String (lower_char c) (lower s')
  end.

Definition flush (cur : string) : list string :=
  match cur with EmptyString => [] | _ => [cur] end.

(** The maximal runs of word characters of [s], left to right; [cur] is the
    run being read. *)
Fixpoint findall_words (s : string) (cur : string) : list string :=
  match s with
  | EmptyString => flush cur
  | String c s' =>
      if is_word c then findall_words s' (cur +:+ String c EmptyString)
      else flush cur ++ findall_words s' EmptyString
  end.

Definition _tokenize (text : string) : list string :=
  findall_words (lower text) EmptyString.

(** [for word in words: ...append(doc_id)] on the token map of one index. *)
Fixpoint add_postings (words : list string) (doc_id : Z)
    (ix : gmap string (list Z)) : gmap string (list Z) :=
  match words with
  | [] => ix
  | w :: words' =>
      add_postings words' doc_id (<[w := default [] (ix !! w) ++ [doc_id]]> ix)
  end.

Definition _insert_text_index (index_name : string) (text : b_plus_tree.pyobj)
    (doc_id : Z) : T unit :=
  wrap IndexException (
    match text with
    | b_plus_tree.OStr s =>
        match _tokenize s with
        | [] => ret tt
        | words =>
            do tx <- gets text_indexes;
            do ix <- of_option (tx !! index_name) KeyError;
            modify (set_text_indexes (<[index_name := add_postings words doc_id ix]> tx))
        end
    | _ => raise AttributeError
    end).

Definition insert (index_name : string) (key : b_plus_tree.pyobj) (value : Z) : T unit :=
  wrap IndexException (
    do m <- gets id;
    match indexes m !! index_name with
    | Some index =>
        if match filter_condition index with Some f => f key | None => true end
        then _insert_or_queue (Keyed index_name) key value
        else ret tt
    | None =>
        if bool_decide (is_Some (ref_indexes m !! index_name))
        then _insert_or_queue (Ref index_name) key value
        else if bool_decide (is_Some (text_indexes m !! index_name))
        then _insert_text_index index_name key value
        else raise IndexNotFoundError
    end).

Definition delete (index_name : string) (key : b_plus_tree.pyobj) : T unit :=
  wrap IndexException (
    do m <- gets id;
    if bool_decide (is_Some (indexes m !! index_name))
    then (tree_delete (Keyed index_name) key;; _delete_or_queue (Keyed index_name) key)
    else if bool_decide (is_Some (ref_indexes m !! index_name))
    then (tree_delete (Ref index_name) key;; _delete_or_queue (Ref index_name) key)
    else if bool_decide (is_Some (text_indexes m !! index_name))
    then ret tt
    else raise IndexNotFoundError).

(** The intersection of all the sets of [results], and the empty set when
    [results] is empty. *)
Definition intersection (results : list (gset Z)) : gset Z :=
  match results with
  | [] => ∅
  | s :: rest => foldl (∩) s rest
  end.

(** [[set(self.text_indexes[index_name].get(word, [])) for word in words]] *)
Fixpoint posting_sets (index_name : string) (words : list string) : T (list (gset Z)) :=
  match words with
  | [] => ret []
  | w :: words' =>
      do tx <- gets text_indexes;
      do ix <- of_option (tx !! index_name) KeyError;
      do rest <- posting_sets index_name words';
      ret (list_to_set (default [] (ix !! w)) :: rest)
  end.

(** The result is [list(s)] for a set [s]: its order is not specified. *)
Definition text_search (index_name : string) (query : string) : T (list Z) :=
  try_reraise (
    do cfg <- gets config;
    if negb (enable_text_search cfg) then raise ConfigurationException
    else
      do results <- posting_sets index_name (_tokenize query);
      ret (elements (intersection results)))
  (λ e, if isinstance e KeyError then IndexNotFoundError
        else if is_Exception e then QueryException
        else e).

(** One turn of the loop of [_process_async_updates] with an item to take;
    what the update raises is logged. *)
Definition _process_async_updates : T unit :=
  do q <- gets async_update_queue;
  match q with
  | [] => hang
  | item :: q' =>
      modify (set_queue q');;
      try_except
        match item with
        | QInsert tg key value => tree_insert tg key value
        | QDelete tg key => tree_delete tg key
        end
        (λ e, if is_Exception e then ret tt else raise e)
  end.

(** The calls a client and the event loop make on an index manager. *)
Inductive call : Type :=
  | CreateIndex (name : string) (compound : bool) (filter : option (b_plus_tree.pyobj → bool))
  | CreateRefIndex (name : string)
  | CreateTextIndex (name : string)
  | Insert (name : string) (key : b_plus_tree.pyobj) (value : Z)
  | Delete (name : string) (key : b_plus_tree.pyobj)
  | TextSearch (name query : string)
  | ProcessUpdate.

Definition run (c : call) (m : IndexManager) : IndexManager :=
  match c with
  | CreateIndex name compound filter => snd (create_index name compound filter m)
  | CreateRefIndex name => snd (create_ref_index name m)
  | CreateTextIndex name => snd (create_text_index name m)
  | Insert name key value => snd (insert name key value m)
  | Delete name key => snd (delete name key m)
  | TextSearch name query => snd (text_search name query m)
  | ProcessUpdate => snd (_process_async_updates m)
  end.

(** The managers a run can reach from [IndexManager(cfg)]. *)
Inductive reachable (cfg : IndexManagerConfig) : IndexManager → Prop :=
  | reach_init : reachable cfg (init cfg)
  | reach_step m c : reachable cfg m → reachable cfg (run c m).

(** The posting list of a token, empty when the token has none. *)
Definition postings (ix : gmap string (list Z)) (word : string) : list Z :=
  default [] (ix !! word).

End index_manager.

(** ** transaction_types.py, transaction.py *)

Module transaction.


(** The objects outside the manager that a transaction touches: the data
    its operations act on and the [asyncio.Lock]s, by number, with the set of
    those that are held. *)
Record Process (W : Type) : Type := mkProcess {
  world : W;
  held : gset Z;
}.
Arguments mkProcess {W} _ _.
Arguments world {W} _.
Arguments held {W} _.

(** The operations and rollback operations are coroutines without
    argument.  The transaction object is passed along: [add_operation]
    returns the object after the call. *)
Record Transaction (W : Type) : Type := mkTransaction {
  id : Z;
  operations : list (M (Process W) unit);
  rollback_operations : list (M (Process W) unit);
  locks : list Z;
}.
Arguments mkTransaction {W} _ _ _ _.
Arguments id {W} _.
Arguments operations {W} _.
Arguments rollback_operations {W} _.
Arguments locks {W} _.

(** [transactions] is used through its keys only; [lock] is the state of
    [self.lock]; [timeout] is in milliseconds. *)
Record TransactionManager : Type := mkManager {
  lock : bool;
  transactions : gset Z;
  next_transaction_id : Z;
  timeout : Z;
}.

Record System (W : Type) : Type := mkSystem {
  manager : TransactionManager;
  process : Process W;
}.
Arguments mkSystem {W} _ _.
Arguments manager {W} _.
Arguments process {W} _.

(** [TransactionManager()] *)
Definition init : TransactionManager := mkManager false ∅ 1 5000.

Section ops.
Context {W : Type}.

(** [await lock.acquire()] *)
Definition acquire (l : Z) : M (Process W) unit :=
  λ p, if bool_decide (l ∈ held p) then (Hang, p)
       else (Ok tt, mkProcess (world p) ({[l]} ∪ held p)).

(** [lock.release()] *)
Definition release (l : Z) : M (Process W) unit :=
  λ p, if bool_decide (l ∈ held p) then (Ok tt, mkProcess (world p) (held p ∖ {[l]}))
       else (Raise RuntimeError, p).

(** [Transaction(transaction_id)] *)
Definition new (transaction_id : Z) : Transaction W :=
  mkTransaction transaction_id [] [] [].

Definition add_operation (t : Transaction W)
    (operation rollback : M (Process W) unit) (lk : Z) : M (Process W) (Transaction W) :=
  wrap TransactionException (
    acquire lk;;
    ret (mkTransaction (id t) (operations t ++ [operation])
           (rollback_operations t ++ [rollback]) (locks t ++ [lk]))).

(** The loop of [execute].  [cancel_at = Some k] is a run in which the
    coroutine is cancelled while it awaits the operation of index [k]. *)
Fixpoint run_operations (cancel_at : option nat) (ops : list (M (Process W) unit))
    : M (Process W) unit :=
  match ops with
  | [] => ret tt
  | op :: ops' =>
      match cancel_at with
      | Some O => raise CancelledError
      | _ => wrap TransactionAbortedError op;;
             run_operations (Nat.pred <$> cancel_at) ops'
      end
  end.

Definition execute (cancel_at : option nat) (t : Transaction W) : M (Process W) unit :=
  run_operations cancel_at (operations t).

(** [for op in ops: try: await op() except Exception: log] *)
Fixpoint run_rollbacks (ops : list (M (Process W) unit)) : M (Process W) unit :=
  match ops with
  | [] => ret tt
  | op :: ops' =>
      try_except op (λ e, if is_Exception e then ret tt else raise e);;
      run_rollbacks ops'
  end.

Definition rollback (t : Transaction W) : M (Process W) unit :=
  run_rollbacks (reverse (rollback_operations t)).

Fixpoint release_all (ls : list Z) : M (Process W) unit :=
  match ls with
  | [] => ret tt
  | l :: ls' => release l;; release_all ls'
  end.

Definition release_locks (t : Transaction W) : M (Process W) unit :=
  release_all (locks t).

(** Calls on the objects outside the manager. *)
Definition on_process {A} (c : M (Process W) A) : M (System W) A :=
  lift process (λ p s, mkSystem (manager s) p) c.
Definition on_manager {A} (c : M TransactionManager A) : M (System W) A :=
  lift manager (λ m s, mkSystem m (process s)) c.

(** [async with self.lock] *)
Definition with_lock {A} (body : M (System W) A) : M (System W) A :=
  λ s, if lock (manager s) then (Hang, s)
       else
         let set b (s : System W) :=
           mkSystem (mkManager b (transactions (manager s))
                       (next_transaction_id (manager s)) (timeout (manager s)))
                    (process s) in
         match body (set true s) with
         | (Hang, s') => (Hang, s')
         | (Stuck, s') => (Stuck, s')
         | (r, s') => (r, set false s')
         end.

Definition start_transaction : M (System W) (Transaction W) :=
  with_lock (
    wrap TransactionException (
      do transaction_id <- on_manager (gets next_transaction_id);
      on_manager (modify (λ m, mkManager (lock m) ({[transaction_id]} ∪ transactions m)
                                  (next_transaction_id m + 1) (timeout m)));;
      ret (new transaction_id))).

(** [del self.transactions[transaction.id]] *)
Definition del_transaction (t : Transaction W) : M (System W) unit :=
  on_manager (
    do ts <- gets transactions;
    if bool_decide (id t ∈ ts) then
      modify (λ m, mkManager (lock m) (transactions m ∖ {[id t]})
                     (next_transaction_id m) (timeout m))
    else raise KeyError).

Definition _commit_transaction (t : Transaction W) : M (System W) unit :=
  wrap TransactionException (
    on_process (release_locks t);;
    del_transaction t).

Definition _rollback_transaction (t : Transaction W) : M (System W) unit :=
  wrap TransactionException (
    on_process (rollback t);;
    on_process (release_locks t);;
    del_transaction t).

Definition _run_transaction (cancel_at : option nat) (t : Transaction W) : M (System W) unit :=
  try_except (
    on_process (execute cancel_at t);;
    _commit_transaction t)
  (λ e, if is_Exception e then
          _rollback_transaction t;;
          raise TransactionAbortedError
        else raise e).

Definition _handle_deadlock (t : Transaction W) : M (System W) unit :=
  wrap TransactionException (
    _rollback_transaction t;;
    raise DeadlockDetectedError).

(** [await asyncio.wait_for(c, timeout=self.timeout)]: a coroutine that is
    cancelled by the timer, or that would wait forever, ends the call with
    [asyncio.TimeoutError]. *)
Definition wait_for {A} (c : M (System W) A) : M (System W) A :=
  λ s, match c s with
       | (Hang, s') => (Raise TimeoutError, s')
       | (Raise e, s') => (Raise (if bool_decide (e = CancelledError) then TimeoutError else e), s')
       | r => r
       end.

(** The run of the transaction exceeds the timeout. *)
Definition times_out (cancel_at : option nat) (t : Transaction W) (s : System W) : Prop :=
  fst (wait_for (_run_transaction cancel_at t) s) = Raise TimeoutError.

Definition run_transaction (cancel_at : option nat) (t : Transaction W) : M (System W) unit :=
  try_except (wait_for (_run_transaction cancel_at t))
    (λ e, if isinstance e TimeoutError then _handle_deadlock t
          else if is_Exception e then raise TransactionException
          else raise e).

End ops.

End transaction.

(** ** json_filestore.py *)

Module json_filestore.

(** The values of document fields. *)
#[warnings="-register-all"] Inductive jval : Type :=
  | JNull
  | JBool (b : bool)
  | JInt (z : Z)
  | JStr (s : string)
  | JBytes (bs : list byte)
  | JList (l : list jval)
  | JDict (kvs : list (string * jval)).

(** A document is a [dict] with string keys. *)
Abbreviation doc := (gmap string jval).

(** [bool(v)] *)
Definition truthy (v : jval) : bool :=
  match v with
  | JNull => false
  | JBool b => b
  | JInt z => negb (z =? 0)
  | JStr s => negb (bool_decide (s = EmptyString))
  | JBytes bs => negb (bool_decide (bs = []))
  | JList l => match l with [] => false | _ => true end
  | JDict kvs => match kvs with [] => false | _ => true end
  end.

(** The [json] and [zlib] functions the sources call; [None] is a raised
    error ([TypeError] for a value that is not serialisable,
    [JSONDecodeError], [zlib.error]). *)
Record Codec : Type := mkCodec {
  json_dumps : jval → option (list byte);
  json_loads : list byte → option jval;
  zlib_compress : list byte → list byte;
  zlib_decompress : list byte → option (list byte);
}.

(** The attributes of a store.  [objects] holds the [dict] objects by
    address: [data], the cache and the compression queue refer to the same
    object of a document, which [update], [read] and the compression task
    change in place.  [lock] is [self.lock]; [self.locks] is the empty [dict]
    of [__init__], which no method changes. *)
Record JSONFilestore : Type := mkStore {
  objects : list doc;
  data : gmap Z nat;
  cache : lru_cache.LRUCache nat;
  next_id : Z;
  compression_queue : list (Z * nat);
  lock : reader_writer_lock.ReaderWriterLock;
}.

Definition T := M JSONFilestore.

(** The attributes of a store that holds no document. *)
Definition empty (cache_capacity : Z) : JSONFilestore :=
  mkStore [] ∅ (lru_cache.init cache_capacity) 1 [] reader_writer_lock.init.

(** [IndexManager(...)]: [__init__(self, config)] has one required
    parameter. *)
Definition new_IndexManager (args : list index_manager.IndexManagerConfig)
    : outcome index_manager.IndexManager :=
  match args with
  | [config] => Ok (index_manager.init config)
  | _ => Raise TypeError
  end.

(** [JSONFilestore(filename, cache_capacity)] with no file to load.  The
    third statement of [__init__] is [self.index_manager = IndexManager()];
    no method reads this attribute. *)
Definition init (cache_capacity : Z) : outcome JSONFilestore :=
  match new_IndexManager [] with
  | Ok _ => Ok (empty cache_capacity)
  | Raise e => Raise e
  | Hang => Hang
  | Stuck => Stuck
  end.

Definition set_objects (os : list doc) (s : JSONFilestore) :=
  mkStore os (data s) (cache s) (next_id s) (compression_queue s) (lock s).
Definition set_data (d : gmap Z nat) (s : JSONFilestore) :=
  mkStore (objects s) d (cache s) (next_id s) (compression_queue s) (lock s).
Definition set_cache (c : lru_cache.LRUCache nat) (s : JSONFilestore) :=
  mkStore (objects s) (data s) c (next_id s) (compression_queue s) (lock s).
Definition set_next_id (n : Z) (s : JSONFilestore) :=
  mkStore (objects s) (data s) (cache s) n (compression_queue s) (lock s).
Definition set_queue (q : list (Z * nat)) (s : JSONFilestore) :=
  mkStore (objects s) (data s) (cache s) (next_id s) q (lock s).
Definition set_lock (l : reader_writer_lock.ReaderWriterLock) (s : JSONFilestore) :=
  mkStore (objects s) (data s) (cache s) (next_id s) (compression_queue s) l.

(** The [dict] a caller passes becomes an object of the store. *)
Definition alloc (d : doc) : T nat :=
  λ s, (Ok (length (objects s)), set_objects (objects s ++ [d]) s).

Definition deref (r : nat) : T doc :=
  λ s, match objects s !! r with
       | Some d => (Ok d, s)
       | None => (Stuck, s)
       end.

(** In-place change of the object at [r]. *)
Definition mutate (r : nat) (f : doc → doc) : T unit :=
  do d <- deref r;
  modify (λ s, set_objects (<[r := f d]> (objects s)) s).

(** [self.locks.get(args[0], create=True)] in the wrappers of [reader_lock]
    and [writer_lock]: [self.locks] is a [dict], and [dict.get] takes no
    keyword argument. *)
Definition locks_get_create : T bool := raise TypeError.

(** A coroutine of [self.lock]. *)
Definition on_lock (A : Type) (c : M reader_writer_lock.ReaderWriterLock A) : T A :=
  lift lock set_lock c.

(** The decorators on the methods of the store. *)
Definition reader_lock {A} (func : T A) : T A :=
  reader_writer_lock.reader_lock locks_get_create on_lock func.
Definition writer_lock {A} (func : T A) : T A :=
  reader_writer_lock.writer_lock locks_get_create on_lock func.

Section with_codec.
Context (cd : Codec).

(** [if len(json.dumps(document)) > 4 * 1024:
       await self.compression_queue.put((doc_id, document))] *)
Definition queue_if_large (doc_id : Z) (r : nat) : T unit :=
  do d <- deref r;
  match json_dumps cd (JDict (map_to_list d)) with
  | None => raise TypeError
  | Some text =>
      if (4 * 1024 <? Z.of_nat (length text)) then
        modify (λ s, set_queue (compression_queue s ++ [(doc_id, r)]) s)
      else ret tt
  end.

(** [now1] and [now2] are the two readings of the clock. *)
Definition _create_with_id (doc_id : Z) (r : nat) (now1 now2 : Z) : T Z :=
  wrap StorageException (
    mutate r (<["id" := JInt doc_id]>);;
    mutate r (<["created_at" := JInt now1]>);;
    mutate r (<["updated_at" := JInt now2]>);;
    modify (λ s, set_data (<[doc_id := r]> (data s)) s);;
    modify (λ s, set_cache (lru_cache.put doc_id r (cache s)) s);;
    queue_if_large doc_id r;;
    ret doc_id).

(** [@writer_lock async def create] *)
Definition create (document : doc) (now1 now2 : Z) : T Z :=
  writer_lock (
    do r <- alloc document;
    do doc_id <- gets next_id;
    modify (λ s, set_next_id (next_id s + 1) s);;
    _create_with_id doc_id r now1 now2).

(** [@writer_lock async def create_with_id] *)
Definition create_with_id (doc_id : Z) (document : doc) (now1 now2 : Z) : T Z :=
  writer_lock (
    do r <- alloc document;
    do d <- gets data;
    if bool_decide (is_Some (d !! doc_id)) then raise DocumentAlreadyExistsError
    else
      do n <- gets next_id;
      (if n <=? doc_id then modify (set_next_id (doc_id + 1)) else ret tt);;
      _create_with_id doc_id r now1 now2).

(** [zlib.decompress(data).decode('utf-8')] *)
Definition _decompress_data (v : jval) : T jval :=
  wrap StorageException (
    match v with
    | JBytes bs =>
        match zlib_decompress cd bs with
        | Some text => ret (JStr (string_of_list_byte text))
        | None => raise ValueError
        end
    | _ => raise TypeError
    end).

(** [zlib.compress(json.dumps(document['data']).encode('utf-8'))] *)
Definition _compress_data (text : list byte) : T jval :=
  ret (JBytes (zlib_compress cd text)).

(** [@reader_lock async def read]; the body returns the object of the
    document, not a copy. *)
Definition read (doc_id : Z) : T nat :=
  reader_lock (
    try_reraise (
      do c <- gets cache;
      let '(hit, c') := lru_cache.get doc_id c in
      modify (set_cache c');;
      match hit with
      | Some r => ret r
      | None =>
          do d <- gets data;
          match d !! doc_id with
          | None => raise DocumentNotFoundError
          | Some r =>
              do document <- deref r;
              (if match document !! "compressed" with Some v => truthy v | None => false end
               then
                 do packed <- of_option (document !! "data") KeyError;
                 do text <- _decompress_data packed;
                 mutate r (<["data" := text]>);;
                 mutate r (<["compressed" := JBool false]>)
               else ret tt);;
              modify (λ s, set_cache (lru_cache.put doc_id r (cache s)) s);;
              ret r
          end
      end)
    (λ e, if isinstance e DocumentNotFoundError then e
          else if is_Exception e then StorageException
          else e)).

(** [@writer_lock async def update]; [document.update(updates)] keeps the
    fields [updates] does not have. *)
Definition update (doc_id : Z) (updates : doc) (now : Z) : T bool :=
  writer_lock (
    try_reraise (
      do d <- gets data;
      match d !! doc_id with
      | None => raise DocumentNotFoundError
      | Some r =>
          mutate r (λ document, updates ∪ document);;
          mutate r (<["updated_at" := JInt now]>);;
          modify (λ s, set_cache (lru_cache.put doc_id r (cache s)) s);;
          queue_if_large doc_id r;;
          ret true
      end)
    (λ e, if isinstance e DocumentNotFoundError then e
          else if is_Exception e then StorageException
          else e)).

(** [@writer_lock async def delete] *)
Definition delete (doc_id : Z) : T bool :=
  writer_lock (
    try_reraise (
      do d <- gets data;
      match d !! doc_id with
      | None => raise DocumentNotFoundError
      | Some _ =>
          modify (λ s, set_data (base.delete doc_id (data s)) s);;
          modify (λ s, set_cache (lru_cache.invalidate doc_id (cache s)) s);;
          ret true
      end)
    (λ e, if isinstance e DocumentNotFoundError then e
          else if is_Exception e then StorageException
          else e)).

(** One turn of the loop of [process_compression_queue] with an item to
    take; what the compression raises is logged. *)
Definition process_compression_queue : T unit :=
  do q <- gets compression_queue;
  match q with
  | [] => hang
  | (doc_id, r) :: q' =>
      modify (set_queue q');;
      try_except (
        do document <- deref r;
        do v <- of_option (document !! "data") KeyError;
        do text <- of_option (json_dumps cd v) TypeError;
        do packed <- _compress_data text;
        mutate r (<["data" := packed]>);;
        mutate r (<["compressed" := JBool true]>);;
        modify (λ s, set_data (<[doc_id := r]> (data s)) s))
      (λ e, if is_Exception e then ret tt else raise e)
  end.

(** The fields of a stored document. *)
Definition fields (s : JSONFilestore) (doc_id : Z) : option doc :=
  r ← data s !! doc_id; objects s !! r.

End with_codec.

End json_filestore.

(** ** The [json] module of the Python library

    [dumps] and [loads] with their default arguments, on ASCII text and on
    the values of [jval]: a number is an integer, a character of a string
    has a code below 256.  Text outside of this fragment (a fraction or
    exponent, [NaN], a byte or an escape above these codes) is rejected. *)

Module json.
Import json_filestore.

Definition code (c : ascii) : nat := nat_of_ascii c.
Definition chr (n : nat) : ascii := ascii_of_nat n.
Definition str1 (c : ascii) : string := String c EmptyString.

Definition hex_digit (n : nat) : ascii :=
  if (n <? 10)%nat then chr (48 + n) else chr (87 + n).

(** The escape of a character in a string literal, as [ensure_ascii]
    writes it. *)
Definition escape (c : ascii) : string :=
  let n := code c in
  if (n =? 34)%nat then "\" +:+ str1 c
  else if (n =? 92)%nat then "\\"
  else if (n =? 10)%nat then "\n"
  else if (n =? 13)%nat then "\r"
  else if (n =? 9)%nat then "\t"
  else if (n =? 8)%nat then "\b"
  else if (n =? 12)%nat then "\f"
  else if ((n <? 32) || (127 <? n))%nat then
    "\u00" +:+ str1 (hex_digit (n / 16)) +:+ str1 (hex_digit (n mod 16))
  else str1 c.

Fixpoint escape_all (s : string) : string :=
  match s with
  | EmptyString => EmptyString
  | String c s' => escape c +:+ escape_all s'
  end.

Definition quote (s : string) : string :=
  str1 (chr 34) +:+ escape_all s +:+ str1 (chr 34).

Fixpoint join (sep : string) (l : list string) : string :=
  match l with
  | [] => EmptyString
  | [x] => x
  | x :: l' => x +:+ sep +:+ join sep l'
  end.

(** [json.dumps(v)]; [None] is the [TypeError] for [bytes]. *)
Fixpoint dumps (v : jval) : option string :=
  match v with
  | JNull => Some "null"
  | JBool true => Some "true"
  | JBool false => Some "false"
  | JInt z => Some (pretty z)
  | JStr s => Some (quote s)
  | JBytes _ => None
  | JList l =>
      items ← (fix go (l : list jval) : option (list string) :=
                 match l with
                 | [] => Some []
                 | x :: l' => sx ← dumps x; r ← go l'; Some (sx :: r)
                 end) l;
      Some ("[" +:+ join ", " items +:+ "]")
  | JDict kvs =>
      items ← (fix go (l : list (string * jval)) : option (list string) :=
                 match l with
                 | [] => Some []
                 | (k, x) :: l' =>
                     sx ← dumps x; r ← go l'; Some ((quote k +:+ ": " +:+ sx) :: r)
                 end) kvs;
      Some ("{" +:+ join ", " items +:+ "}")
  end.

Definition is_ws (c : ascii) : bool :=
  let n := code c in ((n =? 32) || (n =? 9) || (n =? 10) || (n =? 13))%nat.

Definition is_digit (c : ascii) : bool :=
  let n := code c in ((48 <=? n) && (n <=? 57))%nat.

Fixpoint skip_ws (s : list ascii) : list ascii :=
  match s with
  | c :: s' => if is_ws c then skip_ws s' else s
  | [] => []
  end.

Fixpoint digits (s : list ascii) (acc : Z) : Z * list ascii :=
  match s with
  | c :: s' => if is_digit c then digits s' (10 * acc + Z.of_nat (code c - 48)) else (acc, s)
  | [] => (acc, [])
  end.

(** No leading zero, and no fraction or exponent in this fragment. *)
Definition unsigned (s : list ascii) : option (Z * list ascii) :=
  match s with
  | c :: s' =>
      if negb (is_digit c) then None
      else
        let '(n, rest) := if (code c =? 48)%nat then (0, s') else digits s 0 in
        match rest with
        | d :: _ =>
            if is_digit d || (code d =? 46)%nat || (code d =? 101)%nat || (code d =? 69)%nat
            then None else Some (n, rest)
        | [] => Some (n, rest)
        end
  | [] => None
  end.

Definition hex_value (c : ascii) : option nat :=
  let n := code c in
  if ((48 <=? n) && (n <=? 57))%nat then Some (n - 48)%nat
  else if ((97 <=? n) && (n <=? 102))%nat then Some (n - 87)%nat
  else if ((65 <=? n) && (n <=? 70))%nat then Some (n - 55)%nat
  else None.

(** The characters of a string literal after its opening quote. *)
Fixpoint chars (s : list ascii) (acc : string) : option (string * list ascii) :=
  match s with
  | [] => None
  | c :: s' =>
      let n := code c in
      if (n =? 34)%nat then Some (acc, s')
      else if (n =? 92)%nat then
        match s' with
        | e :: s'' =>
            let m := code e in
            if ((m =? 34) || (m =? 92) || (m =? 47))%nat then chars s'' (acc +:+ str1 e)
            else if (m =? 98)%nat then chars s'' (acc +:+ str1 (chr 8))
            else if (m =? 102)%nat then chars s'' (acc +:+ str1 (chr 12))
            else if (m =? 110)%nat then chars s'' (acc +:+ str1 (chr 10))
            else if (m =? 114)%nat then chars s'' (acc +:+ str1 (chr 13))
            else if (m =? 116)%nat then chars s'' (acc +:+ str1 (chr 9))
            else if (m =? 117)%nat then
              match s'' with
              | h1 :: h2 :: h3 :: h4 :: s5 =>
                  match hex_value h1, hex_value h2, hex_value h3, hex_value h4 with
                  | Some O, Some O, Some a, Some b => chars s5 (acc +:+ str1 (chr (16 * a + b)))
                  | _, _, _, _ => None
                  end
              | _ => None
              end
            else None
        | [] => None
        end
      else if ((n <? 32) || (127 <? n))%nat then None
      else chars s' (acc +:+ str1 c)
  end.

(** [s] starts with the characters of [w]. *)
Fixpoint expect (w s : list ascii) : option (list ascii) :=
  match w, s with
  | [], _ => Some s
  | a :: w', b :: s' => if bool_decide (a = b) then expect w' s' else None
  | _ :: _, [] => None
  end.

Fixpoint value (fuel : nat) (s : list ascii) : option (jval * list ascii) :=
  match fuel with
  | O => None
  | S fuel' =>
      match skip_ws s with
      | [] => None
      | c :: rest =>
          let n := code c in
          if (n =? 110)%nat then
            rest' ← expect (list_ascii_of_string "ull") rest; Some (JNull, rest')
          else if (n =? 116)%nat then
            rest' ← expect (list_ascii_of_string "rue") rest; Some (JBool true, rest')
          else if (n =? 102)%nat then
            rest' ← expect (list_ascii_of_string "alse") rest; Some (JBool false, rest')
          else if (n =? 34)%nat then
            '(str, rest') ← chars rest EmptyString; Some (JStr str, rest')
          else if (n =? 45)%nat then
            '(z, rest') ← unsigned rest; Some (JInt (- z), rest')
          else if is_digit c then
            '(z, rest') ← unsigned (c :: rest); Some (JInt z, rest')
          else if (n =? 91)%nat then
            match skip_ws rest with
            | c2 :: rest2 =>
                if (code c2 =? 93)%nat then Some (JList [], rest2)
                else
                  (fix items (k : nat) (s : list ascii) (acc : list jval) :=
                     match k with
                     | O => None
                     | S k' =>
                         '(v, s1) ← value fuel' s;
                         match skip_ws s1 with
                         | d :: s2 =>
                             if (code d =? 44)%nat then items k' s2 (acc ++ [v])
                             else if (code d =? 93)%nat then Some (JList (acc ++ [v]), s2)
                             else None
                         | [] => None
                         end
                     end) fuel' rest []
            | [] => None
            end
          else if (n =? 123)%nat then
            match skip_ws rest with
            | c2 :: rest2 =>
                if (code c2 =? 125)%nat then Some (JDict [], rest2)
                else
                  (fix members (k : nat) (s : list ascii) (acc : list (string * jval)) :=
                     match k with
                     | O => None
                     | S k' =>
                         match skip_ws s with
                         | q :: s0 =>
                             if negb (code q =? 34)%nat then None
                             else
                               '(key, s1) ← chars s0 EmptyString;
                               match skip_ws s1 with
                               | colon :: s2 =>
                                   if negb (code colon =? 58)%nat then None
                                   else
                                     '(v, s3) ← value fuel' s2;
                                     match skip_ws s3 with
                                     | d :: s4 =>
                                         if (code d =? 44)%nat
                                         then members k' s4 (acc ++ [(key, v)])
                                         else if (code d =? 125)%nat
                                         then Some (JDict (acc ++ [(key, v)]), s4)
                                         else None
                                     | [] => None
                                     end
                               | [] => None
                               end
                         | [] => None
                         end
                     end) fuel' rest []
            | [] => None
            end
          else None
      end
  end.

(** [json.loads(s)]; [None] is the [JSONDecodeError]. *)
Definition loads (s : string) : option jval :=
  let l := list_ascii_of_string s in
  match value (S (length l)) l with
  | Some (v, rest) => match skip_ws rest with [] => Some v | _ => None end
  | None => None
  end.

(** The codec of the library, with [zlib] replaced by the identity: the
    evaluations it is used in do not reach the compression. *)
Definition python : Codec :=
  mkCodec (λ v, list_byte_of_string <$> dumps v)
          (λ bs, loads (string_of_list_byte bs))
          (λ bs, bs)
          Some.

End json.

(** ** collection_metadata_filestore.py, enhanced_filestore.py *)

Module enhanced_filestore.
Import json_filestore.

(** The components of a filestore.  The transaction manager and the locks
    of the documents are the manager and the locks of the [System] the
    filestore runs in. *)
Record EnhancedFilestore : Type := mkFilestore {
  document_store : JSONFilestore;
  collection_store : JSONFilestore;
  small_block_store : block_store.BlockStore;
  medium_block_store : block_store.BlockStore;
  large_block_store : block_store.BlockStore;
  block_pointer_table : block_pointer_table.BlockPointerTable;
  index_manager : index_manager.IndexManager;
}.

(** The levels a coroutine of the filestore runs at: the components, and
    the components with the locks and the transaction manager. *)
Abbreviation E := (M EnhancedFilestore).
Abbreviation F := (M (transaction.System EnhancedFilestore)).

(** The value of a constructor call, as a statement of [__init__]. *)
Definition construct {A} (o : outcome A) : M unit A := λ u, (o, u).

(** The attributes [__init__] assigns, over the two document stores. *)
Definition attributes (index_config : index_manager.IndexManagerConfig)
    (document_store collection_store : JSONFilestore)
    : transaction.System EnhancedFilestore :=
  transaction.mkSystem transaction.init
    (transaction.mkProcess
       (mkFilestore document_store collection_store
          block_store.SmallBlockStore block_store.MediumBlockStore
          block_store.LargeBlockStore block_pointer_table.init
          (index_manager.init index_config))
       ∅).

(** [EnhancedFilestore(base_path, index_config)] on an empty directory.  The
    statements of [__init__] are in a [try] whose handler raises
    [ConfigurationException]. *)
Definition init (index_config : index_manager.IndexManagerConfig)
    : outcome (transaction.System EnhancedFilestore) :=
  fst (wrap ConfigurationException (
         do document_store <- construct (json_filestore.init 1000);
         do collection_store <- construct (json_filestore.init 100);
         ret (attributes index_config document_store collection_store)) tt).

Definition on_documents {A} (c : M JSONFilestore A) : E A :=
  lift document_store
    (λ x f, mkFilestore x (collection_store f) (small_block_store f) (medium_block_store f)
              (large_block_store f) (block_pointer_table f) (index_manager f)) c.
Definition on_collections {A} (c : M JSONFilestore A) : E A :=
  lift collection_store
    (λ x f, mkFilestore (document_store f) x (small_block_store f) (medium_block_store f)
              (large_block_store f) (block_pointer_table f) (index_manager f)) c.
Definition on_small {A} (c : M block_store.BlockStore A) : E A :=
  lift small_block_store
    (λ x f, mkFilestore (document_store f) (collection_store f) x (medium_block_store f)
              (large_block_store f) (block_pointer_table f) (index_manager f)) c.
Definition on_medium {A} (c : M block_store.BlockStore A) : E A :=
  lift medium_block_store
    (λ x f, mkFilestore (document_store f) (collection_store f) (small_block_store f) x
              (large_block_store f) (block_pointer_table f) (index_manager f)) c.
Definition on_large {A} (c : M block_store.BlockStore A) : E A :=
  lift large_block_store
    (λ x f, mkFilestore (document_store f) (collection_store f) (small_block_store f)
              (medium_block_store f) x (block_pointer_table f) (index_manager f)) c.
Definition on_table {A} (c : M block_pointer_table.BlockPointerTable A) : E A :=
  lift block_pointer_table
    (λ x f, mkFilestore (document_store f) (collection_store f) (small_block_store f)
              (medium_block_store f) (large_block_store f) x (index_manager f)) c.

Definition in_process {A} (c : E A) : M (transaction.Process EnhancedFilestore) A :=
  lift transaction.world (λ w p, transaction.mkProcess w (transaction.held p)) c.
Definition in_system {A} (c : E A) : F A := transaction.on_process (in_process c).

(** The block stores by the number [_select_block_store] returns. *)
Definition on_block_store {A} (store_id : Z) (c : M block_store.BlockStore A) : E A :=
  if store_id =? 0 then on_small c
  else if store_id =? 1 then on_medium c
  else on_large c.

(** A coroutine object that nothing awaits, by the method and the block
    store it was made for. *)
Inductive coroutine : Type :=
  | Coroutine (method : string) (store_id : Z).

(** [await asyncio.to_thread(block_store.method, *args)] for one of the
    coroutine functions of block_store.py: the thread calls the function,
    which makes a coroutine object and runs none of its body, and this object
    is the value of the [await]. *)
Definition to_thread (method : string) (store_id : Z) : E coroutine :=
  ret (Coroutine method store_id).

(** A field compared with an integer: [None] is the [TypeError]. *)
Definition as_int (v : jval) : option Z :=
  match v with
  | JInt z => Some z
  | JBool b => Some (if b then 1 else 0)
  | _ => None
  end.

Definition _select_block_store (size : jval) : E Z :=
  do n <- of_option (as_int size) TypeError;
  if n <=? 4 * 1024 then ret 0
  else if n <=? 64 * 1024 then ret 1
  else ret 2.

Definition _allocate_block (store_id : Z) : E coroutine :=
  wrap BlockAllocationError (to_thread "allocate_block" store_id).
Definition _write_block (store_id : Z) (block : coroutine) (data : list byte) : E unit :=
  wrap BlockWriteError (to_thread "write_block" store_id;; ret tt).
Definition _read_block (store_id : Z) (block : Z) : E coroutine :=
  wrap BlockReadError (to_thread "read_block" store_id).
Definition _free_block (store_id : Z) (block : Z) : E unit :=
  wrap StorageException (to_thread "free_block" store_id;; ret tt).

(** The loop of [_write_to_blocks] over the [count] slices of [data]. *)
Fixpoint write_slices (count : nat) (store_id : Z) (size : nat) (data : list byte)
    (blocks : list coroutine) : E (list coroutine) :=
  match count with
  | O => ret blocks
  | S count' =>
      do block <- _allocate_block store_id;
      _write_block store_id block (take size data);;
      write_slices count' store_id size (drop size data) (blocks ++ [block])
  end.

(** [range(0, len(data), block_size)] has [ceil(len(data) / block_size)]
    elements for a positive step, none for a negative one, and raises
    [ValueError] for the step 0. *)
Definition _write_to_blocks (store_id : Z) (data : list byte) : E (list coroutine) :=
  try_reraise (
    do size <- on_block_store store_id (gets block_store.block_size);
    if size <=? 0 then
      (if size =? 0 then raise ValueError else ret [])
    else
      write_slices (Z.to_nat ((Z.of_nat (length data) + size - 1) / size)) store_id
        (Z.to_nat size) data [])
  (λ e, if isinstance e BlockAllocationError then e
        else if isinstance e BlockWriteError then e
        else if is_Exception e then StorageException
        else e).

(** [data = b''; for _, block in pointers:
       data += await self._read_block(block_store, block)]:
    the first turn of the loop adds a coroutine object to [bytes]. *)
Definition read_pointers (store_id : Z) (pointers : list (Z * Z)) : E (list byte) :=
  match pointers with
  | [] => ret []
  | (_, block) :: _ => _read_block store_id block;; raise TypeError
  end.

(** The entry id a metadata field holds; no negative id is ever stored. *)
Definition as_entry (v : jval) : E nat :=
  match as_int v with
  | Some z => if z <? 0 then (λ f, (Stuck, f)) else ret (Z.to_nat z)
  | None => raise TypeError
  end.

Section with_codec.
Context (cd : Codec).

(** [schema.validate(document, filestore)] of the schema collaborator. *)
Context (schema_validate : jval → doc → bool).

Definition get_document (doc_id : Z) : E jval :=
  try_reraise (
    do r <- on_documents (read cd doc_id);
    do doc_metadata <- on_documents (deref r);
    match map_to_list doc_metadata with
    | [] => raise DocumentNotFoundError
    | _ =>
        do size <- of_option (doc_metadata !! "size") KeyError;
        do store_id <- _select_block_store size;
        do bp <- of_option (doc_metadata !! "block_pointer") KeyError;
        do entry <- as_entry bp;
        do pointers <- on_table (block_pointer_table.get_pointers entry);
        do data <- read_pointers store_id pointers;
        of_option (json_loads cd data) JSONDecodeError
    end)
  (λ e, if isinstance e DocumentNotFoundError then e
        else if is_Exception e then StorageException
        else e).

(** [collection_store.get_collection] *)
Definition get_collection (collection_id : Z) : E doc :=
  try_reraise (
    do r <- on_collections (read cd collection_id);
    do collection <- on_collections (deref r);
    match map_to_list collection with
    | [] => raise CollectionNotFoundError
    | _ => ret collection
    end)
  (λ e, if isinstance e CollectionNotFoundError then e
        else if isinstance e DocumentNotFoundError then CollectionNotFoundError
        else if is_Exception e then CollectionException
        else e).

Definition field_truthy (d : doc) (k : string) : E bool :=
  do v <- of_option (d !! k) KeyError; ret (truthy v).

(** [collection_store.validate_document] *)
Definition validate_document (collection_id : Z) (document : doc) : E bool :=
  try_reraise (
    do collection <- get_collection collection_id;
    do enforce <- field_truthy collection "enforce_schema";
    if negb enforce then ret true
    else
      do schema <- of_option (collection !! "schema") KeyError;
      if negb (truthy schema) then ret true
      else if schema_validate schema document then ret true
      else raise DocumentValidationError)
  (λ e, if isinstance e CollectionNotFoundError then e
        else if isinstance e DocumentValidationError then e
        else if is_Exception e then SchemaException
        else e).


Abbreviation Transaction := (transaction.Transaction EnhancedFilestore).

(** The methods [_add_document], [_update_document] and [_delete_document]
    that [add_document], [update_document], [delete_document] and
    [atomic_transaction_execute] call on [self].  A call returns its value
    and the transaction object as the call leaves it. *)
Record Helpers : Type := mkHelpers {
  _add_document : Transaction → Z → option doc → F (Z * Transaction);
  _update_document : Transaction → option Z → option doc → F (bool * Transaction);
  _delete_document : Transaction → option Z → F (bool * Transaction);
}.


Context (helpers : Helpers).

(** [cancel_at] is passed to [run_transaction]. *)
Definition add_document (cancel_at : option nat) (collection_id : Z) (data : doc) : F Z :=
  do t <- transaction.start_transaction;
  try_reraise (
    do collection <- in_system (get_collection collection_id);
    do enforce <- in_system (field_truthy collection "enforce_schema");
    (if enforce then
       do ok <- in_system (validate_document collection_id data);
       if ok then ret tt else raise DocumentValidationError
     else ret tt);;
    do '(doc_id, t') <- _add_document helpers t collection_id (Some data);
    transaction.run_transaction cancel_at t';;
    ret doc_id)
  (λ e, if isinstance e CollectionNotFoundError then e
        else if isinstance e DocumentValidationError then e
        else if isinstance e TransactionAbortedError then e
        else if is_Exception e then DocumentException
        else e).

(** [old_doc["collection_id"]] on the value [json.loads] has returned; of
    the fields of a repeated key, the [dict] has the last. *)
Definition collection_id_of (old_doc : jval) : F jval :=
  match old_doc with
  | JDict kvs =>
      of_option ((list_to_map (reverse kvs) : gmap string jval) !! "collection_id") KeyError
  | _ => raise TypeError
  end.

(** [get_collection] on the field of the old document: for a value that is
    no [int], [read] raises in its wrapper as it does for every argument. *)
Definition get_collection_of (collection_id : jval) : F (Z * doc) :=
  match collection_id with
  | JInt c => do collection <- in_system (get_collection c); ret (c, collection)
  | _ => raise CollectionException
  end.

Definition update_document (cancel_at : option nat) (doc_id : Z) (data : doc) : F bool :=
  do t <- transaction.start_transaction;
  try_reraise (
    do old_doc <- in_system (get_document doc_id);
    if negb (truthy old_doc) then raise DocumentNotFoundError
    else
      do field <- collection_id_of old_doc;
      do '(collection_id, collection) <- get_collection_of field;
      do enforce <- in_system (field_truthy collection "enforce_schema");
      (if enforce then
         do ok <- in_system (validate_document collection_id data);
         if ok then ret tt else raise DocumentValidationError
       else ret tt);;
      do '(success, t') <- _update_document helpers t (Some doc_id) (Some data);
      transaction.run_transaction cancel_at t';;
      ret success)
  (λ e, if isinstance e DocumentNotFoundError then e
        else if isinstance e DocumentValidationError then e
        else if isinstance e TransactionAbortedError then e
        else if is_Exception e then DocumentException
        else e).

Definition delete_document (cancel_at : option nat) (doc_id : Z) : F bool :=
  do t <- transaction.start_transaction;
  try_reraise (
    do r <- in_system (on_documents (read cd doc_id));
    do doc_metadata <- in_system (on_documents (deref r));
    match map_to_list doc_metadata with
    | [] => raise DocumentNotFoundError
    | _ =>
        do '(success, t') <- _delete_document helpers t (Some doc_id);
        transaction.run_transaction cancel_at t';;
        ret success
    end)
  (λ e, if isinstance e DocumentNotFoundError then e
        else if isinstance e TransactionAbortedError then e
        else if is_Exception e then DocumentException
        else e).



End with_codec.

End enhanced_filestore.

(** * Properties *)

(** ** Reasoning on component coroutines *)

Section triples.
Context {S : Type}.

(** [triple P c Q I]: from a state in [P], [c] returns [a] in a state in
    [Q a], or does not return and leaves a state in [I]. *)
Definition triple {A} (P : S → Prop) (c : M S A) (Q : A → S → Prop) (I : S → Prop) : Prop :=
  ∀ s, P s → match c s with
             | (Ok a, s') => Q a s'
             | (_, s') => I s'
             end.

Lemma triple_ret {A} (P : S → Prop) (a : A) Q I :
  (∀ s, P s → Q a s) → triple P (ret a) Q I.
Proof. intros H s Hs. by apply H. Qed.

Lemma triple_raise {A} (P : S → Prop) e (Q : A → S → Prop) (I : S → Prop) :
  (∀ s, P s → I s) → triple P (raise e) Q I.
Proof. intros H s Hs. by apply H. Qed.

Lemma triple_hang {A} (P : S → Prop) (Q : A → S → Prop) (I : S → Prop) :
  (∀ s, P s → I s) → triple P hang Q I.
Proof. intros H s Hs. by apply H. Qed.

Lemma triple_gets {A} (P : S → Prop) (f : S → A) Q I :
  (∀ s, P s → Q (f s) s) → triple P (gets f) Q I.
Proof. intros H s Hs. by apply H. Qed.

Lemma triple_modify (P : S → Prop) (f : S → S) Q I :
  (∀ s, P s → Q tt (f s)) → triple P (modify f) Q I.
Proof. intros H s Hs. by apply H. Qed.

Lemma triple_of_option {A} (P : S → Prop) (o : option A) e Q (I : S → Prop) :
  (∀ a s, o = Some a → P s → Q a s) → (∀ s, o = None → P s → I s) →
  triple P (of_option o e) Q I.
Proof. intros H1 H2 s Hs. destruct o; cbn; eauto. Qed.

Lemma triple_bind {A B} (P : S → Prop) (c : M S A) (k : A → M S B) Q R I :
  triple P c Q I → (∀ a, triple (Q a) (k a) R I) → triple P (bind c k) R I.
Proof.
  intros Hc Hk s Hs. unfold bind. specialize (Hc s Hs).
  destruct (c s) as [[a| | |] s']; try done. by apply Hk.
Qed.

Lemma triple_try_reraise {A} (P : S → Prop) (c : M S A) f Q I :
  triple P c Q I → triple P (try_reraise c f) Q I.
Proof.
  intros Hc s Hs. unfold try_reraise, try_except, raise. specialize (Hc s Hs).
  by destruct (c s) as [[a| | |] s'].
Qed.

Lemma triple_wrap {A} (P : S → Prop) (c : M S A) cls Q I :
  triple P c Q I → triple P (wrap cls c) Q I.
Proof. apply triple_try_reraise. Qed.

Lemma triple_try_except {A} (P : S → Prop) (c : M S A) h Q I :
  triple P c Q I → (∀ e, triple I (h e) Q I) → triple P (try_except c h) Q I.
Proof.
  intros Hc Hh s Hs. unfold try_except. specialize (Hc s Hs).
  destruct (c s) as [[a| e | |] s']; try done. by apply Hh.
Qed.

Lemma triple_conseq {A} (P P' : S → Prop) (c : M S A) (Q Q' : A → S → Prop) (I : S → Prop) :
  triple P' c Q' I → (∀ s, P s → P' s) → (∀ a s, Q' a s → Q a s) → triple P c Q I.
Proof.
  intros Hc HP HQ s Hs. specialize (Hc s (HP s Hs)).
  destruct (c s) as [[a| | |] s']; try done. by apply HQ.
Qed.

(** An invariant of a coroutine holds in the state it leaves, whatever the
    outcome. *)
Lemma triple_state {A} (P : S → Prop) (c : M S A) (I : S → Prop) s :
  triple P c (λ _, I) I → P s → I (snd (c s)).
Proof. intros Hc Hs. specialize (Hc s Hs). by destruct (c s) as [[a| | |] s']. Qed.

End triples.



(** ** Pointer table: insertion order *)

Section pointer_table.
Import block_pointer_table.

(** The operations keep one indirect list per entry. *)
Lemma create_entry_ok t :
  locked t = false →
  create_entry t =
    (Ok (length (entries t)),
     mkTable (entries t ++ [[]]) (indirect_entries t ++ [[]]) false).
Proof.
  intros Hl. unfold create_entry, with_lock. rewrite Hl. cbn.
  rewrite length_app. cbn. do 3 f_equal. lia.
Qed.

(** A call on an entry whose direct list has room appends to it. *)
Lemma add_pointer_direct t id qs s l :
  locked t = false →
  entries t !! id = Some qs →
  (length qs < 16)%nat →
  add_pointer id s l t =
    (Ok tt, mkTable (<[id := qs ++ [(s, l)]]> (entries t)) (indirect_entries t) false).
Proof.
  intros Hl Hq Hlen. unfold add_pointer, with_lock. rewrite Hl. cbn.
  assert (id < length (entries t))%nat as Hid by (by eapply lookup_lt_Some).
  rewrite bool_decide_eq_false_2 by lia.
  unfold bind at 1. cbn. rewrite Hq. cbn.
  rewrite bool_decide_eq_true_2 by done.
  unfold append_pointer, bind, gets, of_option, modify, ret. cbn. rewrite Hq. done.
Qed.

(** A call on an entry with a full direct list and no indirect child calls
    [create_entry] under the lock it holds, and never returns. *)
Lemma add_pointer_full_hangs t id qs s l :
  locked t = false →
  entries t !! id = Some qs →
  indirect_entries t !! id = Some [] →
  (16 ≤ length qs)%nat →
  fst (add_pointer id s l t) = Hang.
Proof.
  intros Hl Hq Hi Hlen. unfold add_pointer, with_lock. rewrite Hl. cbn.
  assert (id < length (entries t))%nat as Hid by (by eapply lookup_lt_Some).
  rewrite bool_decide_eq_false_2 by lia.
  unfold bind at 1. cbn. rewrite Hq. cbn.
  rewrite bool_decide_eq_false_2 by lia.
  unfold bind at 1. cbn. unfold bind at 1. cbn. rewrite Hi. cbn. done.
Qed.

(** The same call, with the table it leaves: the lock is held. *)
Lemma add_pointer_full_hangs_locked t id qs s l :
  locked t = false →
  entries t !! id = Some qs →
  indirect_entries t !! id = Some [] →
  (16 ≤ length qs)%nat →
  add_pointer id s l t = (Hang, set_locked true t).
Proof.
  intros Hl Hq Hi Hlen. unfold add_pointer, with_lock. rewrite Hl. cbn.
  assert (id < length (entries t))%nat as Hid by (by eapply lookup_lt_Some).
  rewrite bool_decide_eq_false_2 by lia.
  unfold bind at 1. cbn. rewrite Hq. cbn.
  rewrite bool_decide_eq_false_2 by lia.
  unfold bind at 1. cbn. unfold bind at 1. cbn. rewrite Hi. cbn. done.
Qed.

(** The pointers added to an entry without indirect child: the calls return
    while the direct list has room, and the first call after that waits. *)
Lemma add_pointers_run ps : ∀ t id qs,
  locked t = false →
  entries t !! id = Some qs →
  indirect_entries t !! id = Some [] →
  (length qs ≤ 16)%nat →
  add_pointers id ps t
  = (if bool_decide (16 < length qs + length ps)%nat then Hang else Ok tt,
     mkTable (<[id := take 16 (qs ++ ps)]> (entries t)) (indirect_entries t)
       (bool_decide (16 < length qs + length ps)%nat)).
Proof.
  induction ps as [|[s l] ps IH]; intros t id qs Hl Hq Hi Hlen.
  - cbn [add_pointers length]. rewrite bool_decide_eq_false_2 by lia.
    rewrite app_nil_r, take_ge by lia. rewrite list_insert_id by done.
    destruct t; cbn in *. by subst.
  - cbn [add_pointers length]. unfold bind.
    destruct (decide (length qs < 16)%nat) as [Hlt|Hge].
    + rewrite (add_pointer_direct t id qs s l Hl Hq Hlt).
      assert (id < length (entries t))%nat as Hid by (by eapply lookup_lt_Some).
      rewrite (IH _ id (qs ++ [(s, l)])); cbn [locked entries indirect_entries];
        [| done | by apply list_lookup_insert_eq | done | rewrite length_app; cbn; lia].
      rewrite list_insert_insert_eq, <- app_assoc, length_app. cbn [app length].
      replace (length qs + 1 + length ps)%nat with (length qs + S (length ps))%nat by lia.
      done.
    + rewrite (add_pointer_full_hangs_locked t id qs s l Hl Hq Hi ltac:(lia)).
      rewrite bool_decide_eq_true_2 by lia.
      rewrite take_app_le by lia. rewrite take_ge by lia.
      rewrite list_insert_id by done. done.
Qed.

(** [extend_all] appends the direct lists of the children in order. *)
Lemma extend_all_ok es ids : ∀ result t,
  Forall (λ j, j < length es)%nat ids →
  extend_all es ids result t
  = (Ok (result ++ concat ((λ i, default [] (es !! i)) <$> ids)), t).
Proof.
  induction ids as [|i ids IH]; intros result t Hids.
  - cbn. by rewrite app_nil_r.
  - inversion Hids as [|? ? Hi Hrest]; subst.
    destruct (lookup_lt_is_Some_2 es i Hi) as [e He].
    cbn [extend_all fmap list_fmap concat]. unfold bind, of_option. rewrite He. cbn.
    rewrite IH by done. by rewrite app_assoc.
Qed.

(** [get_pointers] on any entry of an unlocked table: the direct list
    followed by the direct lists of the indirect children. *)
Lemma get_pointers_ok t id direct ids :
  locked t = false →
  entries t !! id = Some direct →
  indirect_entries t !! id = Some ids →
  Forall (λ j, j < length (entries t))%nat ids →
  get_pointers id t = (Ok (direct ++ indirect_pointers t id), t).
Proof.
  intros Hl Hd Hi Hids. unfold get_pointers, with_lock. rewrite Hl. cbn.
  assert (id < length (entries t))%nat as Hid by (by eapply lookup_lt_Some).
  rewrite bool_decide_eq_false_2 by lia.
  unfold bind, gets, of_option, ret. cbn. rewrite Hd. cbn. rewrite Hi. cbn.
  rewrite extend_all_ok by done. unfold indirect_pointers. rewrite Hi.
  destruct t; cbn in *. by subst.
Qed.

(** [add_pointer] on an entry whose direct list is full and whose last
    indirect child has not exactly sixteen pointers appends to this child:
    no entry is created, and the call returns. *)
Lemma add_pointer_indirect t id direct ids last_id child s l :
  locked t = false →
  entries t !! id = Some direct →
  (16 ≤ length direct)%nat →
  indirect_entries t !! id = Some ids →
  last ids = Some last_id →
  entries t !! last_id = Some child →
  length child ≠ 16%nat →
  add_pointer id s l t
  = (Ok tt, mkTable (<[last_id := child ++ [(s, l)]]> (entries t)) (indirect_entries t) false).
Proof.
  intros Hl Hd Hlen Hi Hlast Hc Hroom. unfold add_pointer, with_lock. rewrite Hl. cbn.
  assert (id < length (entries t))%nat as Hid by (by eapply lookup_lt_Some).
  rewrite bool_decide_eq_false_2 by lia.
  unfold bind at 1. cbn. rewrite Hd. cbn.
  rewrite bool_decide_eq_false_2 by lia.
  unfold bind at 1. cbn. unfold bind at 1. cbn. rewrite Hi. cbn.
  destruct ids as [|i0 ids0]; [done|].
  unfold bind at 1. cbn. unfold bind at 1. cbn. unfold bind at 1. cbn. rewrite Hi. cbn.
  unfold bind at 1. cbn. rewrite Hlast. cbn.
  unfold bind at 1. cbn. unfold bind at 1. cbn. rewrite Hc. cbn.
  rewrite bool_decide_eq_false_2 by done.
  unfold bind at 1. cbn.
  unfold append_pointer, bind, gets, of_option, modify, ret. cbn. rewrite Hc. done.
Qed.

End pointer_table.

(** C4.  On an entry fresh from [create_entry], the [add_pointer] calls
    return while the entry has fewer than sixteen pointers, and
    [get_pointers] then returns the pointers in the order they were added.
    The seventeenth call does not return: it awaits [create_entry] under the
    lock it holds, the table stays locked with the first sixteen pointers in
    the direct list and no indirect child, and [get_pointers] waits as well.
    The rest of the code does what the claim says: on a table whose entry has
    indirect children, [get_pointers] returns the direct list followed by the
    direct lists of the children in order, and [add_pointer] appends to the
    last child when that child has room. *)
Theorem add_pointer_stops_at_sixteen
    (t : block_pointer_table.BlockPointerTable) (ps : list (Z * Z)) :
  block_pointer_table.parallel t →
  block_pointer_table.locked t = false →
  let id := length (block_pointer_table.entries t) in
  let full := bool_decide (16 < length ps)%nat in
  let t1 := block_pointer_table.mkTable
              (block_pointer_table.entries t ++ [[]])
              (block_pointer_table.indirect_entries t ++ [[]]) false in
  let t2 := block_pointer_table.mkTable
              (block_pointer_table.entries t ++ [take 16 ps])
              (block_pointer_table.indirect_entries t ++ [[]]) full in
  block_pointer_table.create_entry t = (Ok id, t1)
  ∧ block_pointer_table.add_pointers id ps t1 = (if full then Hang else Ok tt, t2)
  ∧ block_pointer_table.get_pointers id t2 = (if full then Hang else Ok ps, t2)
  ∧ (∀ (u : block_pointer_table.BlockPointerTable) i direct ids,
       block_pointer_table.locked u = false →
       block_pointer_table.entries u !! i = Some direct →
       block_pointer_table.indirect_entries u !! i = Some ids →
       Forall (λ j, j < length (block_pointer_table.entries u))%nat ids →
       block_pointer_table.get_pointers i u
       = (Ok (direct ++ block_pointer_table.indirect_pointers u i), u))
  ∧ (∀ (u : block_pointer_table.BlockPointerTable) i direct ids last_id child s l,
       block_pointer_table.locked u = false →
       block_pointer_table.entries u !! i = Some direct →
       (16 ≤ length direct)%nat →
       block_pointer_table.indirect_entries u !! i = Some ids →
       last ids = Some last_id →
       block_pointer_table.entries u !! last_id = Some child →
       length child ≠ 16%nat →
       block_pointer_table.add_pointer i s l u
       = (Ok tt,
          block_pointer_table.mkTable
            (<[last_id := child ++ [(s, l)]]> (block_pointer_table.entries u))
            (block_pointer_table.indirect_entries u) false)).
Proof.
  intros Hp Hl id full t1 t2.
  assert (block_pointer_table.entries t1 !! id = Some []) as He
    by (by apply list_lookup_middle).
  assert (block_pointer_table.indirect_entries t1 !! id = Some []) as Hi
    by (apply list_lookup_middle; by rewrite <- Hp).
  split; [by apply create_entry_ok|].
  split.
  { rewrite (add_pointers_run ps t1 id [] eq_refl He Hi) by (cbn; lia).
    cbn [app length Nat.add block_pointer_table.entries block_pointer_table.indirect_entries t1].
    fold full. f_equal. f_equal. subst id.
    rewrite insert_app_r_alt by lia. by rewrite Nat.sub_diag. }
  split.
  { subst full. case_bool_decide as Hfull.
    - done.
    - assert (take 16 ps = ps) as Htake by (apply take_ge; lia).
      subst t2. rewrite Htake.
      rewrite (get_pointers_ok _ id ps []); cbn.
      + unfold block_pointer_table.indirect_pointers. cbn.
        rewrite list_lookup_middle by (by rewrite <- Hp). cbn. by rewrite app_nil_r.
      + done.
      + by apply list_lookup_middle.
      + apply list_lookup_middle. by rewrite <- Hp.
      + constructor. }
  split.
  - intros u i direct ids. apply get_pointers_ok.
  - intros u i direct ids last_id child s l. apply add_pointer_indirect.
Qed.

Lemma add_pointer_stops_at_sixteen_witness :
  let ps := (λ k, (0, Z.of_nat k)) <$> seq 0 17 in
  let stuck := block_pointer_table.mkTable [take 16 ps] [[]] true in
  let u := block_pointer_table.mkTable [take 16 ps; [(0, 16)]] [[1%nat]; []] false in
  (block_pointer_table.parallel block_pointer_table.init
   ∧ block_pointer_table.locked block_pointer_table.init = false)
  ∧ block_pointer_table.create_entry block_pointer_table.init
    = (Ok 0%nat, block_pointer_table.mkTable [[]] [[]] false)
  ∧ block_pointer_table.add_pointers 0 ps (block_pointer_table.mkTable [[]] [[]] false)
    = (Hang, stuck)
  ∧ block_pointer_table.get_pointers 0 stuck = (Hang, stuck)
  ∧ block_pointer_table.get_pointers 0 u = (Ok ps, u)
  ∧ block_pointer_table.add_pointer 0 0 17 u
    = (Ok tt,
       block_pointer_table.mkTable [take 16 ps; [(0, 16); (0, 17)]] [[1%nat]; []] false).
Proof.
  intros ps stuck u.
  destruct (add_pointer_stops_at_sixteen block_pointer_table.init ps eq_refl eq_refl)
    as (H1 & H2 & H3 & H4 & H5).
  refine (conj (conj eq_refl eq_refl) (conj H1 (conj H2 (conj H3 (conj _ _))))).
  - apply (H4 u 0%nat (take 16 ps) [1%nat]); try reflexivity.
    repeat constructor.
  - apply (H5 u 0%nat (take 16 ps) [1%nat] 1%nat [(0, 16)] 0 17);
      first [reflexivity | discriminate].
Defined.

(** ** B+ tree: the range query after a split *)

(** The insertions and the query of scenario 3 of the specification: the
    keys 5, 3, 8, 1, 9, 2, 7, 4, 6 into a tree of order 3. *)
Definition scenario_pairs : list (b_plus_tree.pyobj * b_plus_tree.pyobj) :=
  (λ z, (b_plus_tree.OInt z, b_plus_tree.OInt (10 * z))) <$> [5; 3; 8; 1; 9; 2; 7; 4; 6].

(** C3 on the source.  The root of a tree of order 3 is full after five
    insertions.  The sixth insertion splits it, which moves the median pair
    (5, 50) out of the leaves to be the separator of the new root, and then
    compares the key 2 with this pair: the insertion raises [TypeError],
    nothing is inserted any more, and the range query over all the keys
    raises as well instead of returning the nine pairs. *)
Theorem range_query_scenario_raises :
  ∃ t,
    b_plus_tree.insert_all scenario_pairs (b_plus_tree.init 3) = (Raise TypeError, t)
    ∧ b_plus_tree.insert_all (take 5 scenario_pairs) (b_plus_tree.init 3)
      = (Ok tt, b_plus_tree.mkTree
                  [b_plus_tree.mkNode true
                     ((λ z, b_plus_tree.OTuple [b_plus_tree.OInt z; b_plus_tree.OInt (10 * z)])
                        <$> [1; 3; 5; 8; 9]) [] None] 0 3)
    ∧ b_plus_tree.nodes t !! b_plus_tree.root t
      = Some (b_plus_tree.mkNode false
                [b_plus_tree.OTuple [b_plus_tree.OInt 5; b_plus_tree.OInt 50]] [0; 2]%nat None)
    ∧ fst (b_plus_tree.range_query (b_plus_tree.OInt 1) (b_plus_tree.OInt 9) t) = Raise TypeError.
Proof. eexists. split_and!; vm_compute; reflexivity. Qed.

(** With keys that Python does compare with a pair, here the tuples
    [((), i)], no insertion raises, and the query from the least to the
    greatest key misses the pair the split moved out of the leaves and is
    not in ascending order. *)
Lemma range_query_misses_median :
  let key i := b_plus_tree.OTuple [b_plus_tree.OTuple []; b_plus_tree.OInt i] in
  let pairs := (λ i, (key i, b_plus_tree.OInt (10 * i))) <$> [1; 2; 3; 4] in
  ∃ t,
    b_plus_tree.insert_all pairs (b_plus_tree.init 2) = (Ok tt, t)
    ∧ fst (b_plus_tree.range_query (key 1) (key 4) t)
      = Ok [(key 1, b_plus_tree.OInt 10); (key 4, b_plus_tree.OInt 40);
            (key 3, b_plus_tree.OInt 30)].
Proof. eexists. split; vm_compute; reflexivity. Qed.

(** Before any split the query is right: all the pairs, in ascending order. *)
Lemma range_query_single_leaf :
  fst (b_plus_tree.range_query (b_plus_tree.OInt 1) (b_plus_tree.OInt 9)
         (snd (b_plus_tree.insert_all (take 5 scenario_pairs) (b_plus_tree.init 3))))
  = Ok ((λ z, (b_plus_tree.OInt z, b_plus_tree.OInt (10 * z))) <$> [1; 3; 5; 8; 9]).
Proof. vm_compute. reflexivity. Qed.

(** ** Index manager: text search and the update queue *)

Section index_manager_facts.
Import index_manager.

Lemma try_reraise_state {S A} (c : M S A) f s : snd (try_reraise c f s) = snd (c s).
Proof. unfold try_reraise, try_except, raise. by destruct (c s) as [[]]. Qed.

Lemma try_reraise_ok {S A} (c : M S A) f s a s' :
  c s = (Ok a, s') → try_reraise c f s = (Ok a, s').
Proof. unfold try_reraise, try_except. by intros ->. Qed.

Lemma try_reraise_hang {S A} (c : M S A) f s s' :
  c s = (Hang, s') → try_reraise c f s = (Hang, s').
Proof. unfold try_reraise, try_except. by intros ->. Qed.

Lemma try_reraise_raise {S A} (c : M S A) f s e s' :
  c s = (Raise e, s') → try_reraise c f s = (Raise (f e), s').
Proof. unfold try_reraise, try_except. by intros ->. Qed.

(** What a call leaves alone. *)
Definition same_text (m m' : IndexManager) : Prop :=
  config m' = config m ∧ text_indexes m' = text_indexes m.

Lemma queue_put_same_text item m : same_text m (snd (queue_put item m)).
Proof. unfold queue_put. by destruct (queue_full m). Qed.

Lemma tree_insert_same_text tg key value m : same_text m (snd (tree_insert tg key value m)).
Proof.
  unfold tree_insert. destruct tg; cbn; repeat case_match; by simplify_eq.
Qed.

Lemma _insert_or_queue_same_text tg key value m :
  same_text m (snd (_insert_or_queue tg key value m)).
Proof.
  unfold _insert_or_queue. rewrite try_reraise_state.
  unfold bind, gets. cbn. destruct (enable_async_updates (config m)).
  - apply queue_put_same_text.
  - apply tree_insert_same_text.
Qed.

(** The gate of [create_text_index] as an invariant: a manager holds text
    indexes only if text search is enabled. *)
Definition text_gate (m : IndexManager) : Prop :=
  ∀ name, is_Some (text_indexes m !! name) → enable_text_search (config m) = true.

Lemma same_text_gate m m' : same_text m m' → text_gate m → text_gate m'.
Proof. intros [Hc Ht] Hg name. rewrite Hc, Ht. apply Hg. Qed.

Lemma create_index_same_text name compound filter m :
  same_text m (snd (create_index name compound filter m)).
Proof.
  unfold create_index, wrap. rewrite try_reraise_state.
  unfold bind, gets, raise, modify. cbn. by repeat case_match.
Qed.

Lemma create_ref_index_same_text name m : same_text m (snd (create_ref_index name m)).
Proof.
  unfold create_ref_index, wrap. rewrite try_reraise_state.
  unfold bind, gets, raise, modify. cbn. by repeat case_match.
Qed.

Lemma create_text_index_gate name m : text_gate m → text_gate (snd (create_text_index name m)).
Proof.
  intros Hg. unfold create_text_index, wrap. rewrite try_reraise_state.
  unfold bind, gets, raise, modify. cbn.
  destruct (enable_text_search (config m)) eqn:He; cbn; [|done].
  case_bool_decide; cbn; [done|]. intros name' _. done.
Qed.

Lemma _insert_text_index_gate name text doc_id m :
  text_gate m → text_gate (snd (_insert_text_index name text doc_id m)).
Proof.
  intros Hg. unfold _insert_text_index, wrap. rewrite try_reraise_state.
  destruct text; cbn; try done.
  destruct (_tokenize s); cbn; [done|].
  unfold bind, gets, of_option, modify. cbn.
  destruct (text_indexes m !! name) as [ix|] eqn:Hix; cbn; [|done].
  intros name'. cbn. destruct (decide (name = name')) as [<-|Hne].
  - intros _. apply (Hg name). by rewrite Hix.
  - rewrite lookup_insert_ne by done. apply Hg.
Qed.

Lemma insert_gate name key value m : text_gate m → text_gate (snd (insert name key value m)).
Proof.
  intros Hg. unfold insert, wrap. rewrite try_reraise_state.
  unfold bind at 1. cbn.
  destruct (indexes m !! name) as [ix|].
  - case_match; [|done].
    eapply same_text_gate; [apply _insert_or_queue_same_text|done].
  - repeat case_bool_decide; cbn; try done.
    + eapply same_text_gate; [apply _insert_or_queue_same_text|done].
    + by apply _insert_text_index_gate.
Qed.

Lemma delete_same_state name key m : snd (delete name key m) = m.
Proof.
  unfold delete, wrap. rewrite try_reraise_state.
  unfold bind at 1. cbn. by repeat case_bool_decide.
Qed.

Lemma posting_sets_state name words m : snd (posting_sets name words m) = m.
Proof.
  induction words as [|w words IH]; [done|]. cbn.
  unfold bind at 1. cbn. unfold bind at 1. cbn.
  destruct (text_indexes m !! name); cbn; [|done].
  unfold bind. destruct (posting_sets name words m) as [[] m']; cbn in *; by subst.
Qed.

Lemma text_search_state name query m : snd (text_search name query m) = m.
Proof.
  unfold text_search. rewrite try_reraise_state.
  unfold bind at 1. cbn. destruct (enable_text_search (config m)); cbn; [|done].
  unfold bind. pose proof (posting_sets_state name (_tokenize query) m) as H.
  destruct (posting_sets name (_tokenize query) m) as [[] m']; cbn in *; by subst.
Qed.

Lemma _process_async_updates_same_text m : same_text m (snd (_process_async_updates m)).
Proof.
  unfold _process_async_updates. unfold bind at 1. cbn.
  destruct (async_update_queue m) as [|item q]; cbn; [done|].
  unfold bind. cbn. unfold try_except.
  destruct item as [tg key value|tg key]; cbn; [|done].
  pose proof (tree_insert_same_text tg key value (set_queue q m)) as [H1 H2].
  destruct (tree_insert tg key value (set_queue q m)) as [[] m']; cbn in *; try done.
  by destruct (is_Exception e).
Qed.

Lemma run_gate c m : text_gate m → text_gate (run c m).
Proof.
  intros Hg. destruct c; cbn.
  - eapply same_text_gate; [apply create_index_same_text|done].
  - eapply same_text_gate; [apply create_ref_index_same_text|done].
  - by apply create_text_index_gate.
  - by apply insert_gate.
  - by rewrite delete_same_state.
  - by rewrite text_search_state.
  - eapply same_text_gate; [apply _process_async_updates_same_text|done].
Qed.

Lemma reachable_gate cfg m : reachable cfg m → text_gate m.
Proof.
  induction 1 as [|m c _ IH].
  - intros name. cbn. rewrite lookup_empty. by intros [? ?].
  - by apply run_gate.
Qed.

(** A search on an existing index of a manager with text search enabled
    intersects the posting sets of the tokens of the query. *)
Lemma posting_sets_ok name ix words m :
  text_indexes m !! name = Some ix →
  posting_sets name words m = (Ok ((λ w, list_to_set (postings ix w)) <$> words), m).
Proof.
  intros Hix. induction words as [|w words IH]; [done|]. cbn.
  unfold bind at 1. cbn. unfold bind at 1. cbn. rewrite Hix. cbn.
  unfold bind. by rewrite IH.
Qed.

Lemma text_search_ok name ix query m :
  enable_text_search (config m) = true →
  text_indexes m !! name = Some ix →
  text_search name query m =
    (Ok (elements (intersection ((λ w, list_to_set (postings ix w)) <$> _tokenize query))), m).
Proof.
  intros He Hix. unfold text_search. apply try_reraise_ok.
  unfold bind at 1. cbn. rewrite He. cbn.
  unfold bind. by rewrite (posting_sets_ok name ix).
Qed.

(** Tokens of a query of two words. *)
Definition word (s : string) : Prop :=
  s ≠ EmptyString ∧ ∀ c, In c (list_ascii_of_string s) → is_word c = true ∧ lower_char c = c.

Lemma flush_nonempty c s : flush (String c s) = [String c s].
Proof. done. Qed.

Lemma append_cons c s t : String c s +:+ t = String c (s +:+ t).
Proof. reflexivity. Qed.

Lemma append_empty_r s : s +:+ EmptyString = s.
Proof. induction s as [|c s IH]; [done|by rewrite append_cons, IH]. Qed.

Lemma append_snoc cur c w : (cur +:+ String c EmptyString) +:+ w = cur +:+ String c w.
Proof. induction cur as [|c' cur IH]; [done|by rewrite !append_cons, IH]. Qed.

Lemma findall_words_run w : ∀ s cur,
  (∀ c, In c (list_ascii_of_string w) → is_word c = true) →
  findall_words (w +:+ s) cur = findall_words s (cur +:+ w).
Proof.
  induction w as [|c w IH]; intros s cur Hw.
  - by rewrite append_empty_r.
  - rewrite <- append_snoc, <- IH by (intros c' ?; apply Hw; cbn; auto).
    rewrite append_cons. cbn. by rewrite (Hw c) by (cbn; auto).
Qed.

Lemma lower_word w :
  (∀ c, In c (list_ascii_of_string w) → lower_char c = c) → lower w = w.
Proof.
  induction w as [|c w IH]; intros Hw; cbn; [done|].
  rewrite (Hw c) by (cbn; auto). rewrite IH; [done|]. intros c' ?. apply Hw. cbn. auto.
Qed.

Lemma lower_app s1 s2 : lower (s1 +:+ s2) = lower s1 +:+ lower s2.
Proof. induction s1 as [|c s1 IH]; [done|rewrite append_cons; cbn; by rewrite IH]. Qed.

Lemma _tokenize_two_words a b :
  word a → word b → _tokenize (a +:+ " " +:+ b) = [a; b].
Proof.
  intros [Ha1 Ha2] [Hb1 Hb2]. unfold _tokenize.
  assert (lower a = a) as Hla by (apply lower_word; intros c Hc; by apply Ha2).
  assert (lower b = b) as Hlb by (apply lower_word; intros c Hc; by apply Hb2).
  rewrite !lower_app, Hla, Hlb.
  rewrite (findall_words_run a) by (intros c Hc; by apply Ha2).
  change (lower " ") with " ". rewrite append_cons. cbn.
  destruct a as [|ca a]; [done|]. cbn [flush app]. f_equal.
  change (EmptyString +:+ b) with b.
  rewrite <- (append_empty_r b) at 1.
  rewrite (findall_words_run b EmptyString EmptyString) by (intros c Hc; by apply Hb2).
  cbn. by destruct b.
Qed.

Lemma findall_words_no_word s :
  (∀ c, In c (list_ascii_of_string s) → is_word c = false) →
  findall_words s EmptyString = [].
Proof.
  induction s as [|c s IH]; intros Hs; cbn; [done|].
  rewrite (Hs c) by (cbn; auto). cbn. apply IH. intros c' ?. apply Hs. cbn. auto.
Qed.

End index_manager_facts.

(** C8.  A query of two tokens [a] and [b] on a text index returns, without
    duplicates, exactly the document ids that occur in the posting list of
    [a] and in the posting list of [b]; a token without posting list
    contributes no id. *)
Theorem text_search_two_tokens
    (cfg : index_manager.IndexManagerConfig) (m : index_manager.IndexManager)
    (name query a b : string) (ix : gmap string (list Z)) :
  index_manager.reachable cfg m →
  index_manager.text_indexes m !! name = Some ix →
  index_manager._tokenize query = [a; b] →
  ∃ ids : list Z,
    index_manager.text_search name query m = (Ok ids, m)
    ∧ NoDup ids
    ∧ (∀ d, d ∈ ids ↔ d ∈ index_manager.postings ix a ∧ d ∈ index_manager.postings ix b)
    ∧ (ix !! a = None ∨ ix !! b = None → ids = []).
Proof.
  intros Hr Hix Htok.
  assert (index_manager.enable_text_search (index_manager.config m) = true) as He.
  { apply (reachable_gate cfg m Hr name). by rewrite Hix. }
  eexists. split; [by apply (text_search_ok name ix)|].
  rewrite Htok. cbn.
  assert (∀ d, d ∈ elements (list_to_set (C:=gset Z) (index_manager.postings ix a)
                              ∩ list_to_set (index_manager.postings ix b))
               ↔ d ∈ index_manager.postings ix a ∧ d ∈ index_manager.postings ix b) as Hmem.
  { intros d. rewrite elem_of_elements, elem_of_intersection, !elem_of_list_to_set. done. }
  split_and!.
  - apply NoDup_elements.
  - done.
  - intros Hnone. apply elem_of_nil_inv. intros d Hd. apply Hmem in Hd as [Hda Hdb].
    unfold index_manager.postings in *.
    destruct Hnone as [Hn|Hn]; rewrite Hn in *; cbn in *; by eapply not_elem_of_nil.
Qed.

(** C10.  On an existing text index a query without tokens returns the empty
    list. *)
Theorem text_search_no_token
    (cfg : index_manager.IndexManagerConfig) (m : index_manager.IndexManager)
    (name query : string) :
  index_manager.reachable cfg m →
  is_Some (index_manager.text_indexes m !! name) →
  index_manager._tokenize query = [] →
  index_manager.text_search name query m = (Ok [], m).
Proof.
  intros Hr [ix Hix] Htok.
  assert (index_manager.enable_text_search (index_manager.config m) = true) as He.
  { apply (reachable_gate cfg m Hr name). by rewrite Hix. }
  rewrite (text_search_ok name ix query m He Hix), Htok. cbn.
  by rewrite elements_empty.
Qed.

Lemma text_search_two_tokens_witness :
  let cfg := index_manager.mkConfig false false false true false false 1000 "english" in
  let m := index_manager.run (index_manager.Insert "body" (b_plus_tree.OStr "green apple") 2)
             (index_manager.run (index_manager.Insert "body" (b_plus_tree.OStr "Red apple") 1)
                (index_manager.run (index_manager.CreateTextIndex "body")
                   (index_manager.init cfg))) in
  let ix := default ∅ (index_manager.text_indexes m !! "body") in
  index_manager.text_indexes m !! "body" = Some ix
  ∧ index_manager._tokenize "Apple red" = ["apple"; "red"]
  ∧ ∃ ids : list Z,
      index_manager.text_search "body" "Apple red" m = (Ok ids, m)
      ∧ NoDup ids
      ∧ (∀ d, d ∈ ids ↔ d ∈ index_manager.postings ix "apple"
                         ∧ d ∈ index_manager.postings ix "red")
      ∧ (ix !! "apple" = None ∨ ix !! "red" = None → ids = []).
Proof.
  intros cfg m ix.
  refine (conj _ (conj _ _)); [vm_compute; reflexivity | vm_compute; reflexivity |].
  apply (text_search_two_tokens cfg m "body" "Apple red" "apple" "red" ix).
  - repeat constructor.
  - vm_compute; reflexivity.
  - vm_compute; reflexivity.
Defined.

Lemma text_search_no_token_witness :
  let cfg := index_manager.mkConfig false false false true false false 1000 "english" in
  let m := index_manager.run (index_manager.Insert "body" (b_plus_tree.OStr "Red apple") 1)
             (index_manager.run (index_manager.CreateTextIndex "body")
                (index_manager.init cfg)) in
  is_Some (index_manager.text_indexes m !! "body")
  ∧ index_manager._tokenize "?! ..." = []
  ∧ index_manager.text_search "body" "?! ..." m = (Ok [], m).
Proof.
  intros cfg m.
  assert (is_Some (index_manager.text_indexes m !! "body")) as Hs.
  { exists (default ∅ (index_manager.text_indexes m !! "body")). vm_compute; reflexivity. }
  refine (conj Hs (conj _ _)); [vm_compute; reflexivity |].
  apply (text_search_no_token cfg m "body" "?! ...").
  - repeat constructor.
  - exact Hs.
  - vm_compute; reflexivity.
Defined.

(** The empty query and a query of punctuation have no token. *)
Lemma _tokenize_empty : index_manager._tokenize EmptyString = [].
Proof. reflexivity. Qed.

Lemma _tokenize_no_word s :
  (∀ c, In c (list_ascii_of_string s) →
        index_manager.is_word (index_manager.lower_char c) = false) →
  index_manager._tokenize s = [].
Proof.
  intros Hs. unfold index_manager._tokenize. apply findall_words_no_word.
  induction s as [|c s IH]; cbn; [done|].
  intros c' [<-|Hc'].
  - apply Hs. cbn. auto.
  - apply IH; [|done]. intros c'' ?. apply Hs. cbn. auto.
Qed.

(** A request is routed to [_insert_or_queue] when the name is that of a
    keyed index whose filter admits the key, or of a reference index. *)
Definition routed_to_queue (m : index_manager.IndexManager) (name : string)
    (key : b_plus_tree.pyobj) : Prop :=
  match index_manager.indexes m !! name with
  | Some ix =>
      match index_manager.filter_condition ix with
      | Some f => f key = true
      | None => True
      end
  | None => is_Some (index_manager.ref_indexes m !! name)
  end.

(** No insert raises a concurrency error: [insert] turns every exception
    into an index error. *)
Lemma insert_never_concurrency_error m name key value :
  fst (index_manager.insert name key value m) ≠ Raise ConcurrencyException.
Proof.
  unfold index_manager.insert, wrap, try_reraise, try_except.
  match goal with |- context [match ?c with _ => _ end] => destruct c as [[| e | |] m'] end;
    cbn; try done.
  unfold raise. cbn. destruct (is_Exception e) eqn:He; [done|].
  intros [= ->]. done.
Qed.

(** C9 on the source.  With asynchronous updates enabled and the update
    queue full, an insert or a delete that reaches the queue waits for a free
    slot: the outcome is [Hang], no error is raised.  A delete through
    [IndexManager.delete] does not reach the queue, it fails with an index
    error because [BPlusTree] has no [delete]. *)
Theorem full_queue_blocks
    (m : index_manager.IndexManager) (tg : index_manager.target)
    (name : string) (key : b_plus_tree.pyobj) (value : Z) :
  index_manager.enable_async_updates (index_manager.config m) = true →
  index_manager.queue_full m = true →
  index_manager._insert_or_queue tg key value m = (Hang, m)
  ∧ index_manager._delete_or_queue tg key m = (Hang, m)
  ∧ (routed_to_queue m name key → index_manager.insert name key value m = (Hang, m))
  ∧ (is_Some (index_manager.indexes m !! name) ∨ is_Some (index_manager.ref_indexes m !! name) →
     index_manager.delete name key m = (Raise IndexException, m)).
Proof.
  intros Ha Hf.
  assert (∀ tg', index_manager._insert_or_queue tg' key value m = (Hang, m)) as Hins.
  { intros tg'. unfold index_manager._insert_or_queue. apply try_reraise_hang.
    unfold bind, gets. cbn. rewrite Ha. unfold index_manager.queue_put. by rewrite Hf. }
  split_and!.
  - apply Hins.
  - unfold index_manager._delete_or_queue. apply try_reraise_hang.
    unfold bind, gets. cbn. rewrite Ha. unfold index_manager.queue_put. by rewrite Hf.
  - unfold routed_to_queue. intros Hr.
    unfold index_manager.insert, wrap. apply try_reraise_hang.
    unfold bind at 1. cbn.
    destruct (index_manager.indexes m !! name) as [ix|].
    + destruct (index_manager.filter_condition ix) as [f|]; [rewrite Hr|]; apply Hins.
    + rewrite bool_decide_eq_true_2 by done. apply Hins.
  - intros Hex. unfold index_manager.delete, wrap.
    rewrite (try_reraise_raise _ _ m AttributeError m); [done|].
    unfold bind at 1. cbn. destruct Hex as [Hex|Hex].
    + by rewrite bool_decide_eq_true_2 by done.
    + case_bool_decide; [done|]. by rewrite bool_decide_eq_true_2 by done.
Qed.

Lemma full_queue_blocks_witness :
  let cfg := index_manager.mkConfig false false false false true false 1 "english" in
  let m := index_manager.run (index_manager.Insert "users_name" (b_plus_tree.OStr "A") 1)
             (index_manager.run (index_manager.CreateIndex "users_name" false None)
                (index_manager.init cfg)) in
  index_manager.enable_async_updates (index_manager.config m) = true
  ∧ index_manager.queue_full m = true
  ∧ routed_to_queue m "users_name" (b_plus_tree.OStr "B")
  ∧ index_manager.insert "users_name" (b_plus_tree.OStr "B") 2 m = (Hang, m).
Proof.
  intros cfg m.
  assert (routed_to_queue m "users_name" (b_plus_tree.OStr "B")) as Hr.
  { unfold routed_to_queue.
    assert (index_manager.indexes m !! "users_name"
            = Some (index_manager.mkIndex (b_plus_tree.init 10) false None)) as ->
      by (vm_compute; reflexivity).
    done. }
  refine (conj _ (conj _ (conj Hr _))); [reflexivity | vm_compute; reflexivity |].
  apply (full_queue_blocks m (index_manager.Keyed "users_name") "users_name"
           (b_plus_tree.OStr "B") 2); [reflexivity | vm_compute; reflexivity | exact Hr].
Defined.
(** ** LRU cache: keys that are not cached *)

Section lru_facts.
Import lru_cache.
Context {V : Type}.

(** No entry of the ordered dictionary has key [key]. *)
Definition not_cached (key : Z) (l : list (Z * V)) : Prop :=
  Forall (λ kv, kv.1 ≠ key) l.

Lemma find_not_cached key l : not_cached key l → find key l = None.
Proof.
  unfold find. induction 1 as [|kv l Hkv _ IH]; [done|]. cbn.
  rewrite bool_decide_eq_false_2 by done. exact IH.
Qed.

Lemma remove_not_cached key k l : not_cached key l → not_cached key (remove k l).
Proof.
  unfold remove. induction 1 as [|kv l Hkv _ IH]; cbn; [constructor|].
  destruct (negb _); [by constructor|done].
Qed.

Lemma remove_self key (l : list (Z * V)) : not_cached key (remove key l).
Proof.
  unfold remove. induction l as [|kv l IH]; cbn; [constructor|].
  case_bool_decide; cbn; [done|by constructor].
Qed.

Lemma get_not_cached key (c : LRUCache V) :
  not_cached key (cache c) → get key c = (None, c).
Proof. intros H. unfold get. by rewrite find_not_cached. Qed.

Lemma get_keeps key k (c : LRUCache V) :
  not_cached key (cache c) → not_cached key (cache (get k c).2).
Proof.
  intros H. unfold get. destruct (find k (cache c)) as [v|] eqn:Hf; cbn; [|done].
  apply Forall_app. split; [by apply remove_not_cached|].
  constructor; [|constructor]. cbn. intros ->. by rewrite find_not_cached in Hf.
Qed.

Lemma tail_not_cached key (l : list (Z * V)) : not_cached key l → not_cached key (tail l).
Proof. destruct 1; [constructor|done]. Qed.

Lemma put_keeps key k v (c : LRUCache V) :
  k ≠ key → not_cached key (cache c) → not_cached key (cache (put k v c)).
Proof.
  intros Hk H. unfold put. cbn.
  assert (not_cached key (remove k (cache c) ++ [(k, v)])) as Hl.
  { apply Forall_app. split; [by apply remove_not_cached|]. by repeat constructor. }
  destruct (_ <? _); [by apply tail_not_cached|done].
Qed.

Lemma invalidate_keeps key k (c : LRUCache V) :
  not_cached key (cache c) → not_cached key (cache (invalidate k c)).
Proof. apply remove_not_cached. Qed.

Lemma invalidate_self key (c : LRUCache V) : not_cached key (cache (invalidate key c)).
Proof. apply remove_self. Qed.

End lru_facts.

Lemma find_app_not_cached {V} key (l1 l2 : list (Z * V)) :
  not_cached key l1 → lru_cache.find key (l1 ++ l2) = lru_cache.find key l2.
Proof.
  unfold lru_cache.find. induction 1 as [|kv l Hkv _ IH]; [done|]. cbn.
  by rewrite bool_decide_eq_false_2.
Qed.

(** A cache of capacity one or more holds the entry last put. *)
Lemma put_find {V} key (v : V) (c : lru_cache.LRUCache V) :
  1 ≤ lru_cache.capacity c →
  lru_cache.find key (lru_cache.cache (lru_cache.put key v c)) = Some v.
Proof.
  intros Hcap. unfold lru_cache.put. cbn.
  pose proof (remove_self key (lru_cache.cache c)) as Hn.
  destruct (lru_cache.remove key (lru_cache.cache c)) as [|kv l] eqn:Hl.
  - cbn. destruct (_ <? _) eqn:Hlt; [apply Z.ltb_lt in Hlt; lia|].
    unfold lru_cache.find. cbn. by rewrite bool_decide_eq_true_2.
  - assert (lru_cache.find key (l ++ [(key, v)]) = Some v) as Hf.
    { rewrite find_app_not_cached by (by inversion Hn).
      unfold lru_cache.find. cbn. by rewrite bool_decide_eq_true_2. }
    destruct (_ <? _); cbn; [done|].
    unfold lru_cache.find in *. cbn.
    rewrite bool_decide_eq_false_2 by (by inversion Hn). done.
Qed.


(** ** Transactions: what a timeout surfaces *)

Section transaction_facts.
Import transaction.
Context {W : Type}.

Lemma wrap_raises {S A} cls (c : M S A) s e :
  fst (wrap cls c s) = Raise e → e = cls ∨ is_Exception e = false.
Proof.
  unfold wrap, try_reraise, try_except, raise.
  destruct (c s) as [[a|e'| |] s']; cbn; try done.
  destruct (is_Exception e') eqn:He; intros [= <-]; auto.
Qed.

Lemma wrap_ok {S A} cls (c : M S A) s a s' :
  c s = (Ok a, s') → wrap cls c s = (Ok a, s').
Proof. unfold wrap, try_reraise, try_except. by intros ->. Qed.

(** Releasing locks does not touch the data and only frees locks. *)
Lemma release_all_mono ls : ∀ (p p' : Process W),
  release_all ls p = (Ok tt, p') → world p' = world p ∧ held p' ⊆ held p.
Proof.
  induction ls as [|l ls IH]; intros p p' Hr.
  - by injection Hr as <-.
  - cbn in Hr. unfold bind, release in Hr.
    destruct (bool_decide (l ∈ held p)); [|done].
    apply IH in Hr as [Hw Hh]. cbn in *. split; [done|].
    intros x Hx. apply Hh in Hx. by apply elem_of_difference in Hx as [? _].
Qed.

(** The locks of a transaction whose release succeeds are free afterwards. *)
Lemma release_all_ok ls : ∀ (p p' : Process W),
  release_all ls p = (Ok tt, p') →
  world p' = world p ∧ ∀ l, l ∈ ls → l ∉ held p'.
Proof.
  induction ls as [|l ls IH]; intros p p' Hr.
  - injection Hr as <-. split; [done|]. intros l Hl. by apply elem_of_nil in Hl.
  - cbn in Hr. unfold bind, release in Hr.
    destruct (bool_decide (l ∈ held p)); [|done].
    pose proof (release_all_mono _ _ _ Hr) as [_ Hsub].
    apply IH in Hr as [Hw Hh]. cbn in *. split; [done|].
    intros k Hk. apply elem_of_cons in Hk as [Hk|Hk]; [|by apply Hh].
    subst k. intros Hin. apply Hsub in Hin. cbn in Hin.
    apply elem_of_difference in Hin as [_ Hn]. apply Hn. by apply elem_of_singleton.
Qed.

(** [_handle_deadlock] catches the deadlock error it raises. *)
Lemma _handle_deadlock_outcome (t : Transaction W) s :
  fst (_handle_deadlock t s) ≠ Raise DeadlockDetectedError
  ∧ ∀ s', _rollback_transaction t s = (Ok tt, s') →
          _handle_deadlock t s = (Raise TransactionException, s').
Proof.
  split.
  - intros He. apply wrap_raises in He as [He|He]; done.
  - intros s' Hr. unfold _handle_deadlock, wrap.
    rewrite (try_reraise_raise _ _ s DeadlockDetectedError s'); [done|].
    unfold bind. by rewrite Hr.
Qed.

End transaction_facts.

(** C7 on the source.  When the run of a transaction exceeds the timeout,
    [run_transaction] rolls the transaction back and releases its locks
    through [_rollback_transaction], and the error the caller receives is
    never [DeadlockDetectedError]: once the rollback has returned it is the
    base [TransactionException]. *)
Theorem timeout_surfaces_transaction_exception
    {W : Type} (cancel_at : option nat) (t : transaction.Transaction W)
    (s : transaction.System W) :
  transaction.times_out cancel_at t s →
  fst (transaction.run_transaction cancel_at t s) ≠ Raise DeadlockDetectedError
  ∧ ∀ s',
      transaction._rollback_transaction t
        (snd (transaction.wait_for (transaction._run_transaction cancel_at t) s)) = (Ok tt, s') →
      transaction.run_transaction cancel_at t s = (Raise TransactionException, s')
      ∧ ∀ l, l ∈ transaction.locks t → l ∉ transaction.held (transaction.process s').
Proof.
  unfold transaction.times_out, transaction.run_transaction, try_except.
  destruct (transaction.wait_for (transaction._run_transaction cancel_at t) s)
    as [r s1] eqn:Hw.
  cbn. intros ->. cbn.
  pose proof (_handle_deadlock_outcome t s1) as [H1 H2].
  split; [done|]. intros s' Hr. split; [by apply H2|].
  unfold transaction._rollback_transaction, wrap, try_reraise, try_except in Hr.
  unfold bind at 1 in Hr. unfold transaction.on_process at 1, lift in Hr.
  destruct (transaction.rollback t (transaction.process s1)) as [[[]| | |] p1]; try done.
  unfold bind at 1 in Hr. unfold transaction.on_process at 1, lift in Hr.
  cbn in Hr.
  destruct (transaction.release_locks t p1) as [[[]| | |] p2] eqn:Hrel; try done.
  apply release_all_ok in Hrel as [_ Hfree].
  unfold transaction.del_transaction, transaction.on_manager, lift, bind, gets in Hr.
  cbn in Hr. destruct (bool_decide _); cbn in Hr; [|done].
  injection Hr as <-. cbn. exact Hfree.
Qed.

Lemma timeout_surfaces_transaction_exception_witness :
  let s0 := transaction.mkSystem transaction.init (transaction.mkProcess tt ∅) in
  let t := transaction.mkTransaction 1 [hang] [ret tt] [7] in
  let s := transaction.mkSystem (transaction.mkManager false {[1]} 2 5000)
             (transaction.mkProcess tt {[7]}) in
  let s' := transaction.mkSystem (transaction.mkManager false ∅ 2 5000)
              (transaction.mkProcess tt ∅) in
  (∃ t0 s1, transaction.start_transaction s0 = (Ok t0, s1)
            ∧ transaction.add_operation t0 hang (ret tt) 7 (transaction.process s1)
              = (Ok t, transaction.process s)
            ∧ transaction.manager s1 = transaction.manager s)
  ∧ transaction.times_out None t s
  ∧ transaction.run_transaction None t s = (Raise TransactionException, s').
Proof.
  intros s0 t s s'.
  assert (transaction.times_out None t s) as Ht by (vm_compute; reflexivity).
  refine (conj _ (conj Ht _)).
  - exists (transaction.new 1), (transaction.mkSystem (transaction.mkManager false {[1]} 2 5000)
                                   (transaction.mkProcess tt ∅)).
    split_and!; vm_compute; reflexivity.
  - apply (timeout_surfaces_transaction_exception None t s Ht).
    vm_compute. reflexivity.
Defined.
(** ** Document store and filestore: the calls behind the lock decorators *)

Section store_facts.
Import json_filestore.

(** The wrappers raise before they take a lock or call the method. *)
Lemma reader_lock_raises {A} (func : T A) s : reader_lock func s = (Raise TypeError, s).
Proof. reflexivity. Qed.

Lemma writer_lock_raises {A} (func : T A) s : writer_lock func s = (Raise TypeError, s).
Proof. reflexivity. Qed.

End store_facts.

(** The system after [start_transaction] has returned the transaction with
    the next id. *)
Definition started {W} (s : transaction.System W) : transaction.System W :=
  transaction.mkSystem
    (transaction.mkManager false
       ({[transaction.next_transaction_id (transaction.manager s)]}
        ∪ transaction.transactions (transaction.manager s))
       (transaction.next_transaction_id (transaction.manager s) + 1)
       (transaction.timeout (transaction.manager s)))
    (transaction.process s).

Lemma start_transaction_run {W} (s : transaction.System W) :
  transaction.start_transaction s
  = if transaction.lock (transaction.manager s) then (Hang, s)
    else (Ok (transaction.new (transaction.next_transaction_id (transaction.manager s))),
          started s).
Proof.
  unfold transaction.start_transaction, transaction.with_lock.
  destruct (transaction.lock (transaction.manager s)); reflexivity.
Qed.

Section filestore_facts.
Import json_filestore enhanced_filestore.
Context (cd : Codec) (schema_validate : jval → doc → bool).

Lemma in_system_raises {A} (c : E A) e s :
  c (transaction.world (transaction.process s))
  = (Raise e, transaction.world (transaction.process s)) →
  in_system c s = (Raise e, s).
Proof.
  intros Hc. unfold in_system, transaction.on_process, in_process, lift. rewrite Hc.
  by destruct s as [m [w h]].
Qed.

Lemma read_documents_raises doc_id f :
  on_documents (read cd doc_id) f = (Raise TypeError, f).
Proof. unfold on_documents, lift, read. rewrite reader_lock_raises. by destruct f. Qed.

Lemma read_collections_raises collection_id f :
  on_collections (read cd collection_id) f = (Raise TypeError, f).
Proof. unfold on_collections, lift, read. rewrite reader_lock_raises. by destruct f. Qed.

(** [get_document] wraps the [TypeError] of [read] in a storage error. *)
Lemma get_document_raises doc_id f :
  get_document cd doc_id f = (Raise StorageException, f).
Proof.
  unfold get_document, try_reraise, try_except, bind.
  by rewrite read_documents_raises.
Qed.

Lemma get_collection_raises collection_id f :
  get_collection cd collection_id f = (Raise CollectionException, f).
Proof.
  unfold get_collection, try_reraise, try_except, bind.
  by rewrite read_collections_raises.
Qed.

Context (helpers : Helpers).

(** [add_document] stops at [get_collection]. *)
Lemma add_document_run cancel_at collection_id document s :
  add_document cd schema_validate helpers cancel_at collection_id document s
  = if transaction.lock (transaction.manager s) then (Hang, s)
    else (Raise DocumentException, started s).
Proof.
  unfold add_document. unfold bind at 1. rewrite start_transaction_run.
  destruct (transaction.lock (transaction.manager s)); [done|].
  unfold try_reraise, try_except. unfold bind at 1.
  by rewrite (in_system_raises _ CollectionException)
    by apply get_collection_raises.
Qed.

(** [update_document] stops at [get_document]. *)
Lemma update_document_run cancel_at doc_id document s :
  update_document cd schema_validate helpers cancel_at doc_id document s
  = if transaction.lock (transaction.manager s) then (Hang, s)
    else (Raise DocumentException, started s).
Proof.
  unfold update_document. unfold bind at 1. rewrite start_transaction_run.
  destruct (transaction.lock (transaction.manager s)); [done|].
  unfold try_reraise, try_except. unfold bind at 1.
  by rewrite (in_system_raises _ StorageException)
    by apply get_document_raises.
Qed.

(** [delete_document] stops at [read]. *)
Lemma delete_document_run cancel_at doc_id s :
  delete_document cd helpers cancel_at doc_id s
  = if transaction.lock (transaction.manager s) then (Hang, s)
    else (Raise DocumentException, started s).
Proof.
  unfold delete_document. unfold bind at 1. rewrite start_transaction_run.
  destruct (transaction.lock (transaction.manager s)); [done|].
  unfold try_reraise, try_except. unfold bind at 1.
  by rewrite (in_system_raises _ TypeError)
    by apply read_documents_raises.
Qed.

End filestore_facts.

Section no_helpers_facts.
Import json_filestore enhanced_filestore.


End no_helpers_facts.

(** ** LRU cache: capacity, round trip and eviction order *)

Section lru_extra.
Import lru_cache.
Context {V : Type}.

(** The keys are distinct and the size is within the capacity. *)
Definition lru_wf (c : LRUCache V) : Prop :=
  NoDup (cache c).*1 ∧ Z.of_nat (length (cache c)) ≤ capacity c.

Lemma remove_keys key (l : list (Z * V)) k :
  k ∈ (remove key l).*1 ↔ k ∈ l.*1 ∧ k ≠ key.
Proof.
  unfold remove. induction l as [|[k' v'] l IH]; cbn.
  - split; [by intros ?%elem_of_nil|by intros [?%elem_of_nil _]].
  - case_bool_decide as Hk; cbn in *.
    + rewrite IH, elem_of_cons. subst k'. intuition congruence.
    + rewrite !elem_of_cons, IH. intuition congruence.
Qed.

Lemma remove_NoDup key (l : list (Z * V)) : NoDup l.*1 → NoDup (remove key l).*1.
Proof.
  unfold remove. induction l as [|[k' v'] l IH]; cbn; [done|].
  intros [Hk Hl]%NoDup_cons. case_bool_decide; cbn; [by apply IH|].
  apply NoDup_cons. split; [|by apply IH].
  intros Hin. apply remove_keys in Hin as [Hin _]. done.
Qed.

Lemma remove_length key (l : list (Z * V)) : (length (remove key l) ≤ length l)%nat.
Proof.
  unfold remove. induction l as [|kv l IH]; cbn; [done|].
  destruct (negb _); cbn; lia.
Qed.

Lemma remove_not_cached_id key (l : list (Z * V)) : not_cached key l → remove key l = l.
Proof.
  unfold remove. induction 1 as [|kv l Hkv _ IH]; cbn; [done|].
  rewrite bool_decide_eq_false_2 by done. cbn. by rewrite IH.
Qed.

Lemma remove_app key (l1 l2 : list (Z * V)) :
  remove key (l1 ++ l2) = remove key l1 ++ remove key l2.
Proof. unfold remove. apply List.filter_app. Qed.

Lemma not_cached_keys key (l : list (Z * V)) : not_cached key l ↔ key ∉ l.*1.
Proof.
  unfold not_cached. induction l as [|[k v] l IH]; cbn.
  - split; [intros _ ?%elem_of_nil; done|constructor].
  - rewrite Forall_cons, IH, not_elem_of_cons. cbn. intuition congruence.
Qed.

Lemma find_None_not_cached key (l : list (Z * V)) : find key l = None → not_cached key l.
Proof.
  unfold find, not_cached. induction l as [|kv l IH]; cbn; [constructor|].
  case_bool_decide; cbn; [done|]. intros Hf. constructor; [done|by apply IH].
Qed.

Lemma NoDup_snoc_key key v (l : list (Z * V)) :
  NoDup l.*1 → key ∉ l.*1 → NoDup (l ++ [(key, v)]).*1.
Proof.
  intros Hl Hk. rewrite fmap_app. apply NoDup_app. split_and!; [done| |by apply NoDup_singleton].
  intros k Hin ->%list_elem_of_singleton. done.
Qed.

(** X1.  [put], [get] and [invalidate] keep the keys of the cache distinct
    and its size within the capacity. *)
Theorem lru_operations_keep_wf (c : LRUCache V) (key : Z) (value : V) :
  lru_wf c →
  lru_wf (put key value c) ∧ lru_wf (snd (get key c)) ∧ lru_wf (invalidate key c).
Proof.
  intros [Hnd Hlen].
  assert (NoDup (remove key (cache c)).*1) as Hr by (by apply remove_NoDup).
  assert (key ∉ (remove key (cache c)).*1) as Hk.
  { intros [_ Hne]%remove_keys. done. }
  pose proof (remove_length key (cache c)) as Hrl.
  split_and!.
  - unfold lru_wf, put. cbn.
    pose proof (NoDup_snoc_key key value _ Hr Hk) as Hnew.
    destruct (_ <? _) eqn:Hlt.
    + split.
      * destruct (remove key (cache c) ++ [(key, value)]) as [|kv l]; [done|].
        cbn in *. by apply NoDup_cons in Hnew as [_ ?].
      * destruct (remove key (cache c) ++ [(key, value)]) as [|kv l] eqn:Hl; cbn; [lia|].
        apply (f_equal length) in Hl. rewrite length_app in Hl. cbn in Hl. lia.
    + split; [done|]. apply Z.ltb_ge in Hlt. done.
  - unfold lru_wf, get. destruct (find key (cache c)) as [v|] eqn:Hf; cbn; [|done].
    split; [by apply NoDup_snoc_key|].
    rewrite length_app. cbn.
    assert (length (remove key (cache c)) < length (cache c))%nat; [|lia].
    clear -Hf. unfold find, remove in *.
    induction (cache c) as [|kv l IH]; cbn in *; [done|].
    case_bool_decide; cbn.
    + pose proof (remove_length key l) as Hl. unfold remove in Hl. lia.
    + specialize (IH Hf). lia.
  - unfold lru_wf, invalidate. cbn. split; [done|lia].
Qed.

(** X2.  With a capacity of one or more, [get] after [put] returns the
    value put and leaves the cache as [put] left it; after [invalidate] it
    returns [None]. *)
Theorem lru_put_get (c : LRUCache V) (key : Z) (value : V) :
  1 ≤ capacity c →
  get key (put key value c) = (Some value, put key value c)
  ∧ get key (invalidate key c) = (None, invalidate key c).
Proof.
  intros Hcap. split.
  - unfold get. rewrite put_find by done. f_equal.
    unfold put. cbn. f_equal.
    pose proof (remove_self key (cache c)) as Hn.
    set (l0 := remove key (cache c)) in *.
    assert (∀ l, not_cached key l → remove key (l ++ [(key, value)]) ++ [(key, value)]
                                    = l ++ [(key, value)]) as Hfix.
    { intros l Hl. rewrite remove_app, (remove_not_cached_id key l Hl).
      unfold remove. cbn. rewrite bool_decide_eq_true_2 by done. cbn.
      by rewrite app_nil_r. }
    destruct (_ <? _) eqn:Hlt; [|by apply Hfix].
    destruct l0 as [|kv l0]; cbn in *.
    + apply Z.ltb_lt in Hlt. lia.
    + apply Hfix. by inversion Hn.
  - apply get_not_cached, invalidate_self.
Qed.

(** X3.  Eviction is by recency.  In a full cache, [put] of a key that is
    not cached drops the first entry, the least recently used one; after a
    [get] of that entry it is the second one that is dropped. *)
Theorem lru_evicts_least_recent (c : LRUCache V) (k0 k1 key : Z) (v0 v1 value : V)
    (l : list (Z * V)) :
  cache c = (k0, v0) :: (k1, v1) :: l →
  lru_wf c →
  Z.of_nat (length (cache c)) = capacity c →
  key ∉ (cache c).*1 →
  cache (put key value c) = (k1, v1) :: l ++ [(key, value)]
  ∧ cache (put key value (snd (get k0 c))) = l ++ [(k0, v0); (key, value)].
Proof.
  intros Hc [Hnd _] Hfull Hkey.
  rewrite Hc in Hnd, Hfull, Hkey. cbn in *.
  apply NoDup_cons in Hnd as [Hk0 Hnd].
  assert (not_cached key ((k0, v0) :: (k1, v1) :: l)) as Hnc by (by apply not_cached_keys).
  assert (not_cached k0 ((k1, v1) :: l)) as Hnc0 by (by apply not_cached_keys).
  split.
  - unfold put. rewrite Hc. cbn [cache].
    rewrite (remove_not_cached_id key _ Hnc).
    replace (capacity c <? _) with true; [done|].
    symmetry. apply Z.ltb_lt. rewrite length_app. cbn. lia.
  - unfold get. rewrite Hc. unfold find. cbn [List.find fst].
    rewrite bool_decide_eq_true_2 by done. cbn [fmap option_fmap option_map snd].
    unfold put. cbn [cache capacity].
    assert (remove k0 ((k0, v0) :: (k1, v1) :: l) = (k1, v1) :: l) as ->.
    { unfold remove at 1. cbn [List.filter fst]. rewrite bool_decide_eq_true_2 by done.
      cbn [negb]. apply (remove_not_cached_id k0 _ Hnc0). }
    assert (not_cached key (((k1, v1) :: l) ++ [(k0, v0)])) as Hnc1.
    { apply Forall_app. inversion Hnc as [|? ? H0 Hrest]; subst.
      split; [done|]. by repeat constructor. }
    rewrite (remove_not_cached_id key _ Hnc1).
    replace (capacity c <? _) with true.
    + cbn. by rewrite <- app_assoc.
    + symmetry. apply Z.ltb_lt. rewrite !length_app. cbn. lia.
Qed.

End lru_extra.

Lemma lru_operations_keep_wf_witness :
  let c : lru_cache.LRUCache nat := lru_cache.mkCache 2 [(1, 10%nat); (2, 20%nat)] in
  lru_wf c
  ∧ (lru_wf (lru_cache.put 3 30%nat c) ∧ lru_wf (snd (lru_cache.get 3 c))
     ∧ lru_wf (lru_cache.invalidate 3 c)).
Proof.
  intros c.
  assert (lru_wf c) as Hc.
  { split; cbn; [|lia].
    apply NoDup_cons. split; [by intros [=]%list_elem_of_singleton|by apply NoDup_singleton]. }
  split; [exact Hc|]. exact (lru_operations_keep_wf c 3 30%nat Hc).
Defined.

Lemma lru_put_get_witness :
  let c : lru_cache.LRUCache nat := lru_cache.mkCache 2 [(1, 10%nat); (2, 20%nat)] in
  1 ≤ lru_cache.capacity c
  ∧ (lru_cache.get 3 (lru_cache.put 3 30%nat c) = (Some 30%nat, lru_cache.put 3 30%nat c)
     ∧ lru_cache.get 3 (lru_cache.invalidate 3 c) = (None, lru_cache.invalidate 3 c)).
Proof.
  intros c. assert (1 ≤ lru_cache.capacity c) as Hc by (cbn; lia).
  split; [exact Hc|]. exact (lru_put_get c 3 30%nat Hc).
Defined.

Lemma lru_evicts_least_recent_witness :
  let c : lru_cache.LRUCache nat := lru_cache.mkCache 3 [(1, 10%nat); (2, 20%nat); (3, 30%nat)] in
  lru_cache.cache (lru_cache.put 4 40%nat c) = [(2, 20%nat); (3, 30%nat); (4, 40%nat)]
  ∧ lru_cache.cache (lru_cache.put 4 40%nat (snd (lru_cache.get 1 c)))
    = [(3, 30%nat); (1, 10%nat); (4, 40%nat)].
Proof.
  intros c.
  apply (lru_evicts_least_recent c 1 2 4 10%nat 20%nat 40%nat [(3, 30%nat)]).
  - reflexivity.
  - split; cbn; [|lia].
    repeat (apply NoDup_cons; split; [rewrite ?elem_of_cons, ?elem_of_nil; intuition lia|]).
    apply NoDup_nil_2.
  - reflexivity.
  - cbn. rewrite ?elem_of_cons, ?elem_of_nil. intuition lia.
Defined.

(** ** Block store: allocation order, round trip and bounds *)

Section block_store_extra.
Import block_store.

Lemma store_eta (b : BlockStore) : mkBlockStore (block_size b) (file b) (free_blocks b) = b.
Proof. by destruct b. Qed.

(** X4.  Allocation takes the block freed last, and without a free block the
    block that starts at the end of the file, which it extends by one block
    of zeros. *)
Theorem allocate_order (b : BlockStore) (block_id : Z) :
  allocate_block (snd (free_block block_id b)) = (Ok block_id, b)
  ∧ (free_blocks b = [] → block_size b ≠ 0 →
     allocate_block b
     = (Ok (Z.of_nat (length (file b)) / block_size b),
        set_file (file b ++ zeros (block_size b)) b)).
Proof.
  split.
  - unfold free_block, _free_block_sync, wrap, try_reraise, try_except, modify. cbn.
    unfold allocate_block, _allocate_block_sync, wrap, try_reraise, try_except.
    unfold bind at 1. cbn. rewrite last_snoc. unfold bind, modify, ret. cbn.
    rewrite removelast_last. unfold set_free_blocks. cbn. by rewrite store_eta.
  - intros Hfree Hsize.
    unfold allocate_block, _allocate_block_sync, wrap, try_reraise, try_except.
    unfold bind at 1. cbn. rewrite Hfree. cbn.
    unfold bind, gets, modify, ret. cbn.
    by rewrite (proj2 (Z.eqb_neq _ _) Hsize).
Qed.

Lemma allocate_order_witness :
  let b := mkBlockStore 4 (zeros 8) [] in
  free_blocks b = [] ∧ block_size b ≠ 0
  ∧ (allocate_block (snd (free_block 1 b)) = (Ok 1, b)
     ∧ (free_blocks b = [] → block_size b ≠ 0 →
        allocate_block b = (Ok (Z.of_nat (length (file b)) / block_size b),
                            set_file (file b ++ zeros (block_size b)) b))).
Proof.
  intros b. refine (conj eq_refl (conj _ (allocate_order b 1))). vm_compute. discriminate.
Defined.

(** The bytes of a file after a write inside it. *)
Lemma write_at_inside (offset : nat) (data f : list byte) :
  (offset + length data ≤ length f)%nat →
  write_at offset data f = take offset f ++ data ++ drop (offset + length data) f.
Proof.
  intros H. unfold write_at.
  replace (offset - length f)%nat with O by lia. cbn. by rewrite app_nil_r.
Qed.

Lemma write_at_length (offset : nat) (data f : list byte) :
  (offset + length data ≤ length f)%nat → length (write_at offset data f) = length f.
Proof.
  intros H. rewrite write_at_inside by done.
  rewrite !length_app, length_take, length_drop. lia.
Qed.

Lemma ljust_length (data : list byte) (n : Z) :
  Z.of_nat (length data) ≤ n → Z.of_nat (length (ljust data n)) = n.
Proof.
  intros H. unfold ljust, zeros. rewrite length_app, length_replicate. lia.
Qed.

Lemma read_at_written (offset : nat) (data f : list byte) (n : Z) :
  (offset + length data ≤ length f)%nat → Z.of_nat (length data) = n →
  read_at offset n (write_at offset data f) = data.
Proof.
  intros H Hn. unfold read_at. rewrite write_at_inside by done.
  rewrite drop_app_length'; [|rewrite length_take; lia].
  rewrite take_app_length'; [done|lia].
Qed.

Lemma read_at_other (offset o : nat) (data f : list byte) (n : nat) :
  (offset + length data ≤ length f)%nat →
  (o + n ≤ offset ∨ offset + length data ≤ o)%nat →
  read_at o (Z.of_nat n) (write_at offset data f) = read_at o (Z.of_nat n) f.
Proof.
  intros H Hd. unfold read_at. rewrite write_at_inside by done.
  rewrite Nat2Z.id. apply list_eq. intros i.
  rewrite !lookup_take. case_decide as Hi; [|done].
  rewrite !lookup_drop.
  destruct Hd as [Hd|Hd].
  - rewrite lookup_app_l by (rewrite length_take; lia).
    rewrite lookup_take. by rewrite decide_True by lia.
  - rewrite lookup_app_r by (rewrite length_take; lia).
    rewrite length_take, lookup_app_r by lia.
    rewrite lookup_drop. f_equal. lia.
Qed.

(** X5.  A block written inside the file reads back as the data padded
    with zeros to the block size; the file keeps its length and every other
    block its content. *)
Theorem write_then_read_block (b : BlockStore) (block_id : Z) (data : list byte) :
  0 < block_size b →
  0 ≤ block_id →
  (block_id + 1) * block_size b ≤ Z.of_nat (length (file b)) →
  Z.of_nat (length data) ≤ block_size b →
  ∃ b',
    write_block block_id data b = (Ok tt, b')
    ∧ read_block block_id b' = (Ok (data ++ zeros (block_size b - Z.of_nat (length data))), b')
    ∧ length (file b') = length (file b)
    ∧ free_blocks b' = free_blocks b
    ∧ ∀ j, 0 ≤ j → j ≠ block_id → fst (read_block j b') = fst (read_block j b).
Proof.
  intros Hsize Hid Hin Hlen.
  set (padded := ljust data (block_size b)).
  assert (Z.of_nat (length padded) = block_size b) as Hpl by (by apply ljust_length).
  set (offset := Z.to_nat (block_id * block_size b)).
  assert (offset + length padded ≤ length (file b))%nat as Hfit by (unfold offset; nia).
  exists (set_file (write_at offset padded (file b)) b).
  assert ((block_id * block_size b <? 0) = false) as Hneg by (apply Z.ltb_ge; nia).
  split_and!.
  - unfold write_block, _write_block_sync, wrap, try_reraise, try_except.
    unfold bind, gets, modify. cbn. by rewrite Hneg.
  - unfold read_block, _read_block_sync, wrap, try_reraise, try_except.
    unfold bind, gets. cbn. rewrite Hneg. cbn. fold offset.
    by rewrite read_at_written.
  - cbn. by apply write_at_length.
  - done.
  - intros j Hj Hne.
    unfold read_block, _read_block_sync, wrap, try_reraise, try_except.
    unfold bind, gets. cbn.
    destruct (j * block_size b <? 0) eqn:Hjn; [done|]. cbn. f_equal.
    pose proof (read_at_other offset (Z.to_nat (j * block_size b)) padded (file b)
                  (Z.to_nat (block_size b)) Hfit) as Hother.
    rewrite Z2Nat.id in Hother by lia. apply Hother. unfold offset.
    destruct (decide (j < block_id)); [left|right]; nia.
Qed.

Lemma write_then_read_block_witness :
  let b := mkBlockStore 4 (zeros 12) [] in
  let data := [x61; x62] in
  ∃ b',
    write_block 1 data b = (Ok tt, b')
    ∧ read_block 1 b' = (Ok (data ++ zeros (block_size b - Z.of_nat (length data))), b')
    ∧ length (file b') = length (file b)
    ∧ free_blocks b' = free_blocks b
    ∧ ∀ j, 0 ≤ j → j ≠ 1 → fst (read_block j b') = fst (read_block j b).
Proof.
  intros b data.
  apply (write_then_read_block b 1 data); vm_compute; first [reflexivity | discriminate].
Defined.

(** X6.  Outside the bounds.  A negative block id makes [write_block] and
    [read_block] raise their block error and leaves the store as it was; a
    read at or after the end of the file raises nothing and returns no byte. *)
Theorem block_bounds (b : BlockStore) (block_id : Z) (data : list byte) :
  0 < block_size b →
  (block_id < 0 →
   write_block block_id data b = (Raise BlockWriteError, b)
   ∧ read_block block_id b = (Raise BlockReadError, b))
  ∧ (Z.of_nat (length (file b)) ≤ block_id * block_size b →
     read_block block_id b = (Ok [], b)).
Proof.
  intros Hsize. split.
  - intros Hneg.
    assert ((block_id * block_size b <? 0) = true) as Hn by (apply Z.ltb_lt; nia).
    split.
    + unfold write_block, _write_block_sync, wrap, try_reraise, try_except.
      unfold bind, gets, raise. cbn. by rewrite Hn.
    + unfold read_block, _read_block_sync, wrap, try_reraise, try_except.
      unfold bind, gets, raise. cbn. by rewrite Hn.
  - intros Hend.
    assert ((block_id * block_size b <? 0) = false) as Hn by (apply Z.ltb_ge; lia).
    unfold read_block, _read_block_sync, wrap, try_reraise, try_except.
    unfold bind, gets. cbn. rewrite Hn. cbn. f_equal. f_equal.
    unfold read_at. rewrite drop_ge by lia. by rewrite take_nil.
Qed.

Lemma block_bounds_witness :
  let b := mkBlockStore 4 (zeros 8) [] in
  0 < block_size b
  ∧ -1 < 0
  ∧ Z.of_nat (length (file b)) ≤ 2 * block_size b
  ∧ write_block (-1) [x61] b = (Raise BlockWriteError, b)
  ∧ read_block 2 b = (Ok [], b).
Proof.
  intros b.
  assert (0 < block_size b) as H0 by (vm_compute; reflexivity).
  assert (Z.of_nat (length (file b)) ≤ 2 * block_size b) as H2 by (vm_compute; discriminate).
  refine (conj H0 (conj _ (conj H2 (conj _ _)))); [lia| |].
  - apply (block_bounds b (-1) [x61] H0). lia.
  - by apply (block_bounds b 2 [] H0).
Defined.

(** X7.  [write_block] does not cut data longer than a block: the bytes
    after the first [block_size] overwrite the start of the next block. *)
Theorem write_block_spills (b : BlockStore) (block_id : Z) (data : list byte) :
  0 < block_size b →
  0 ≤ block_id →
  block_size b ≤ Z.of_nat (length data) ≤ 2 * block_size b →
  (block_id + 2) * block_size b ≤ Z.of_nat (length (file b)) →
  ∃ b' old,
    write_block block_id data b = (Ok tt, b')
    ∧ read_block (block_id + 1) b = (Ok old, b)
    ∧ read_block block_id b' = (Ok (take (Z.to_nat (block_size b)) data), b')
    ∧ read_block (block_id + 1) b'
      = (Ok (drop (Z.to_nat (block_size b)) data
             ++ drop (length data - Z.to_nat (block_size b)) old), b').
Proof.
  intros Hsize Hid [Hlo Hhi] Hin.
  set (n := Z.to_nat (block_size b)).
  set (offset := Z.to_nat (block_id * block_size b)).
  assert (ljust data (block_size b) = data) as Hpad.
  { unfold ljust, zeros. replace (Z.to_nat _) with O by lia. apply app_nil_r. }
  assert (offset + length data ≤ length (file b))%nat as Hfit by (unfold offset; nia).
  assert ((block_id * block_size b <? 0) = false) as Hneg by (apply Z.ltb_ge; nia).
  assert (((block_id + 1) * block_size b <? 0) = false) as Hneg1 by (apply Z.ltb_ge; nia).
  assert (Z.to_nat ((block_id + 1) * block_size b) = (offset + n)%nat) as Hnext
    by (unfold offset, n; nia).
  exists (set_file (write_at offset data (file b)) b), (take n (drop (offset + n) (file b))).
  split_and!.
  - unfold write_block, _write_block_sync, wrap, try_reraise, try_except.
    unfold bind, gets, modify. cbn. by rewrite Hneg, Hpad.
  - unfold read_block, _read_block_sync, wrap, try_reraise, try_except.
    unfold bind, gets. cbn. rewrite Hneg1. cbn. by rewrite Hnext.
  - unfold read_block, _read_block_sync, wrap, try_reraise, try_except.
    unfold bind, gets. cbn. rewrite Hneg. cbn. fold offset. do 2 f_equal.
    unfold read_at. fold n. rewrite write_at_inside by done.
    rewrite drop_app_length' by (rewrite length_take; lia).
    rewrite take_app_le by (unfold n; lia). done.
  - unfold read_block, _read_block_sync, wrap, try_reraise, try_except.
    unfold bind, gets. cbn. rewrite Hneg1. cbn. rewrite Hnext. do 2 f_equal.
    unfold read_at. fold n. rewrite write_at_inside by done.
    rewrite <- drop_drop.
    rewrite drop_app_length' by (rewrite length_take; lia).
    rewrite drop_app_le by (unfold n; lia).
    rewrite take_app_ge by (rewrite length_drop; unfold n; lia).
    f_equal. rewrite length_drop.
    rewrite skipn_firstn_comm, drop_drop. do 2 f_equal. unfold n. lia.
Qed.

Lemma write_block_spills_witness :
  let b := mkBlockStore 2 [x61; x62; x63; x64; x65; x66] [] in
  ∃ b' old,
    write_block 0 [x31; x32; x33] b = (Ok tt, b')
    ∧ read_block (0 + 1) b = (Ok old, b)
    ∧ read_block 0 b' = (Ok (take (Z.to_nat (block_size b)) [x31; x32; x33]), b')
    ∧ read_block (0 + 1) b'
      = (Ok (drop (Z.to_nat (block_size b)) [x31; x32; x33]
             ++ drop (length [x31; x32; x33] - Z.to_nat (block_size b)) old), b').
Proof.
  intros b.
  apply (write_block_spills b 0 [x31; x32; x33]);
    try split; vm_compute; first [reflexivity | discriminate].
Defined.

End block_store_extra.

(** ** Pointer table: what the returning calls can build *)

Module pointer_table_extra.
Import block_pointer_table.

(** A call came back: it returned or raised. *)
Definition returned {A} (r : outcome A) : Prop :=
  match r with Ok _ | Raise _ => True | _ => False end.

(** The tables a program can hold: built from [BlockPointerTable()] by calls
    of the four methods that came back, with entry ids that are not
    negative. *)
Inductive built : BlockPointerTable → Prop :=
| built_init : built init
| built_create_entry t r t' :
    built t → create_entry t = (r, t') → returned r → built t'
| built_add_pointer t id s l r t' :
    built t → add_pointer id s l t = (r, t') → returned r → built t'
| built_get_pointers t id r t' :
    built t → get_pointers id t = (r, t') → returned r → built t'
| built_get_indirect_pointers t id r t' :
    built t → get_indirect_pointers id t = (r, t') → returned r → built t'.

(** Unlocked, one indirect list per entry, no indirect child, at most
    sixteen pointers in an entry. *)
Definition flat (t : BlockPointerTable) : Prop :=
  locked t = false
  ∧ parallel t
  ∧ Forall (λ inds, inds = []) (indirect_entries t)
  ∧ Forall (λ e, (length e ≤ 16)%nat) (entries t).

End pointer_table_extra.

Section pointer_table_extra_facts.
Import block_pointer_table pointer_table_extra.

Lemma table_eta t : mkTable (entries t) (indirect_entries t) (locked t) = t.
Proof. by destruct t. Qed.

Lemma unlocked_eta t : locked t = false → mkTable (entries t) (indirect_entries t) false = t.
Proof. intros <-. apply table_eta. Qed.

Lemma flat_indirect t id :
  flat t → (id < length (entries t))%nat → indirect_entries t !! id = Some [].
Proof.
  intros (_ & Hp & Hi & _) Hid.
  destruct (lookup_lt_is_Some_2 (indirect_entries t) id) as [inds Hinds];
    [by rewrite <- Hp|].
  rewrite Hinds. f_equal. by eapply (Forall_lookup_1 _ _ _ _ Hi).
Qed.

Lemma add_pointer_invalid t id s l :
  locked t = false → (length (entries t) ≤ id)%nat →
  add_pointer id s l t = (Raise ValueError, t).
Proof.
  destruct t as [es inds lk]. cbn. intros -> Hid.
  unfold add_pointer, with_lock. cbn.
  by rewrite bool_decide_eq_true_2 by done.
Qed.

Lemma get_pointers_invalid t id :
  locked t = false → (length (entries t) ≤ id)%nat →
  get_pointers id t = (Raise ValueError, t).
Proof.
  destruct t as [es inds lk]. cbn. intros -> Hid.
  unfold get_pointers, with_lock. cbn.
  by rewrite bool_decide_eq_true_2 by done.
Qed.

Lemma get_indirect_pointers_invalid t id :
  locked t = false → (length (indirect_entries t) ≤ id)%nat →
  get_indirect_pointers id t = (Raise ValueError, t).
Proof.
  destruct t as [es inds lk]. cbn. intros -> Hid.
  unfold get_indirect_pointers, with_lock. cbn.
  by rewrite bool_decide_eq_true_2 by done.
Qed.

Lemma get_pointers_direct t id e :
  locked t = false → entries t !! id = Some e → indirect_entries t !! id = Some [] →
  get_pointers id t = (Ok e, t).
Proof.
  destruct t as [es inds lk]. cbn. intros -> He Hi.
  unfold get_pointers, with_lock. cbn.
  rewrite bool_decide_eq_false_2 by (apply lookup_lt_Some in He; lia).
  unfold bind, gets, of_option, ret. cbn. rewrite He. cbn. by rewrite Hi.
Qed.

Lemma get_indirect_pointers_none t id :
  locked t = false → indirect_entries t !! id = Some [] →
  get_indirect_pointers id t = (Ok None, t).
Proof.
  destruct t as [es inds lk]. cbn. intros -> Hi.
  unfold get_indirect_pointers, with_lock. cbn.
  rewrite bool_decide_eq_false_2 by (apply lookup_lt_Some in Hi; lia).
  unfold bind, gets, of_option, ret. cbn. by rewrite Hi.
Qed.

Lemma built_flat t : built t → flat t.
Proof.
  induction 1 as [|t r t' _ IH Hc Hr|t id s l r t' _ IH Hc Hr
                  |t id r t' _ IH Hc Hr|t id r t' _ IH Hc Hr].
  - repeat split; constructor.
  - destruct IH as (Hl & Hp & Hi & He).
    rewrite (create_entry_ok t Hl) in Hc. injection Hc as <- <-.
    repeat split; cbn.
    + unfold parallel in *. cbn. rewrite !length_app. cbn. lia.
    + apply Forall_app. split; [done|]. by constructor.
    + apply Forall_app. split; [done|]. constructor; [cbn; lia|constructor].
  - pose proof IH as (Hl & Hp & Hi & He).
    destruct (decide (length (entries t) ≤ id)%nat) as [Hid|Hid].
    { rewrite add_pointer_invalid in Hc by done. by injection Hc as <- <-. }
    destruct (lookup_lt_is_Some_2 (entries t) id) as [qs Hq]; [lia|].
    pose proof (flat_indirect t id IH ltac:(lia)) as Hinds.
    destruct (decide (length qs < 16)%nat) as [Hlt|Hge].
    + rewrite (add_pointer_direct t id qs s l Hl Hq Hlt) in Hc.
      injection Hc as <- <-. repeat split; cbn.
      * unfold parallel in *. cbn. by rewrite length_insert.
      * done.
      * apply Forall_insert; [done|]. rewrite length_app. cbn. lia.
    + pose proof (add_pointer_full_hangs t id qs s l Hl Hq Hinds ltac:(lia)) as Hh.
      rewrite Hc in Hh. cbn in Hh. by subst r.
  - pose proof IH as (Hl & Hp & Hi & He).
    destruct (decide (length (entries t) ≤ id)%nat) as [Hid|Hid].
    { rewrite get_pointers_invalid in Hc by done. by injection Hc as <- <-. }
    destruct (lookup_lt_is_Some_2 (entries t) id) as [qs Hq]; [lia|].
    rewrite (get_pointers_direct t id qs) in Hc;
      [by injection Hc as <- <-|done|done|by apply flat_indirect; [|lia]].
  - pose proof IH as (Hl & Hp & Hi & He).
    destruct (decide (length (entries t) ≤ id)%nat) as [Hid|Hid].
    { rewrite get_indirect_pointers_invalid in Hc by (first [done | unfold parallel in Hp; lia]).
      by injection Hc as <- <-. }
    rewrite (get_indirect_pointers_none t id) in Hc;
      [by injection Hc as <- <-|done|by apply flat_indirect; [|lia]].
Qed.

(** X8.  A table built by calls that came back has no indirect child:
    [get_indirect_pointers] answers [None] for every entry, [get_pointers]
    returns the direct list, of at most sixteen pointers, and a call of
    [add_pointer] on an entry that holds sixteen never comes back. *)
Theorem built_table_is_direct (t : BlockPointerTable) (id : nat) :
  built t →
  (id < length (entries t))%nat →
  ∃ ps,
    entries t !! id = Some ps
    ∧ (length ps ≤ 16)%nat
    ∧ get_pointers id t = (Ok ps, t)
    ∧ get_indirect_pointers id t = (Ok None, t)
    ∧ (length ps = 16%nat → ∀ s l, fst (add_pointer id s l t) = Hang).
Proof.
  intros Hb Hid. pose proof (built_flat t Hb) as Hf.
  pose proof Hf as (Hl & Hp & Hi & He).
  destruct (lookup_lt_is_Some_2 (entries t) id Hid) as [ps Hps].
  pose proof (flat_indirect t id Hf Hid) as Hinds.
  exists ps. split_and!.
  - done.
  - by eapply (Forall_lookup_1 _ _ _ _ He).
  - by apply get_pointers_direct.
  - by apply get_indirect_pointers_none.
  - intros Hlen s l. apply (add_pointer_full_hangs t id ps s l Hl Hps Hinds). lia.
Qed.

(** X9.  An entry id that is not in the table makes the three calls that
    take one raise [ValueError]; the table, and its lock, are as before. *)
Theorem invalid_entry_id (t : BlockPointerTable) (id : nat) (s l : Z) :
  built t →
  (length (entries t) ≤ id)%nat →
  add_pointer id s l t = (Raise ValueError, t)
  ∧ get_pointers id t = (Raise ValueError, t)
  ∧ get_indirect_pointers id t = (Raise ValueError, t).
Proof.
  intros Hb Hid. pose proof (built_flat t Hb) as (Hl & Hp & _).
  split_and!.
  - by apply add_pointer_invalid.
  - by apply get_pointers_invalid.
  - apply get_indirect_pointers_invalid; [done|]. unfold parallel in Hp. lia.
Qed.

End pointer_table_extra_facts.

Lemma built_table_is_direct_witness :
  let t := block_pointer_table.mkTable [[(0, 5)]] [[]] false in
  pointer_table_extra.built t
  ∧ ∃ ps,
      block_pointer_table.entries t !! 0%nat = Some ps
      ∧ (length ps ≤ 16)%nat
      ∧ block_pointer_table.get_pointers 0 t = (Ok ps, t)
      ∧ block_pointer_table.get_indirect_pointers 0 t = (Ok None, t)
      ∧ (length ps = 16%nat →
         ∀ s l, fst (block_pointer_table.add_pointer 0 s l t) = Hang).
Proof.
  intros t.
  assert (pointer_table_extra.built t) as Hb.
  { apply (pointer_table_extra.built_add_pointer
             (block_pointer_table.mkTable [[]] [[]] false) 0 0 5 (Ok tt));
      [|reflexivity|exact I].
    apply (pointer_table_extra.built_create_entry
             block_pointer_table.init (Ok 0%nat));
      [apply pointer_table_extra.built_init|reflexivity|exact I]. }
  split; [exact Hb|].
  apply (built_table_is_direct t 0 Hb). cbn. lia.
Defined.

Lemma invalid_entry_id_witness :
  let t := block_pointer_table.init in
  pointer_table_extra.built t
  ∧ (length (block_pointer_table.entries t) ≤ 3)%nat
  ∧ block_pointer_table.add_pointer 3 0 5 t = (Raise ValueError, t)
  ∧ block_pointer_table.get_pointers 3 t = (Raise ValueError, t)
  ∧ block_pointer_table.get_indirect_pointers 3 t = (Raise ValueError, t).
Proof.
  intros t.
  assert (length (block_pointer_table.entries t) ≤ 3)%nat as Hid by (cbn; lia).
  exact (conj pointer_table_extra.built_init
           (conj Hid (invalid_entry_id t 3 0 5 pointer_table_extra.built_init Hid))).
Defined.

(** ** Transactions: commit, abort, locks and identifiers *)

Module transaction_extra.
Import transaction.

(** The manager after [del self.transactions[i]]. *)
Definition forgotten (i : Z) (m : TransactionManager) : TransactionManager :=
  mkManager (lock m) (transactions m ∖ {[i]}) (next_transaction_id m) (timeout m).

(** Every registered transaction has an id below the next one. *)
Definition ids_below (m : TransactionManager) : Prop :=
  ∀ i, i ∈ transactions m → i < next_transaction_id m.

End transaction_extra.

Section transaction_extra_facts.
Import transaction transaction_extra.
Context {W : Type}.

Lemma run_operations_stops (ops1 : list (M (Process W) unit)) :
  ∀ op ops2 p p1 e p2,
  run_operations None ops1 p = (Ok tt, p1) →
  op p1 = (Raise e, p2) →
  is_Exception e = true →
  run_operations None (ops1 ++ op :: ops2) p = (Raise TransactionAbortedError, p2).
Proof.
  induction ops1 as [|o ops1 IH]; intros op ops2 p p1 e p2 Hrun Hop He.
  - injection Hrun as <-. cbn. unfold bind, wrap, try_reraise, try_except, raise.
    rewrite Hop. by rewrite He.
  - cbn in *. unfold bind in *.
    destruct (wrap TransactionAbortedError o p) as [[[]| | |] p'] eqn:Ho; try done.
    by eapply IH.
Qed.

Lemma del_transaction_ok (t : Transaction W) (s : System W) :
  id t ∈ transactions (manager s) →
  del_transaction t s = (Ok tt, mkSystem (forgotten (id t) (manager s)) (process s)).
Proof.
  intros Hin. unfold del_transaction, on_manager, lift, bind, gets, modify. cbn.
  by rewrite bool_decide_eq_true_2.
Qed.

Lemma _rollback_transaction_ok (t : Transaction W) (s : System W) p1 p2 :
  run_rollbacks (reverse (rollback_operations t)) (process s) = (Ok tt, p1) →
  release_all (locks t) p1 = (Ok tt, p2) →
  id t ∈ transactions (manager s) →
  _rollback_transaction t s = (Ok tt, mkSystem (forgotten (id t) (manager s)) p2).
Proof.
  intros Hrb Hrel Hin. apply wrap_ok.
  unfold bind, on_process, lift, rollback, release_locks. rewrite Hrb. cbn.
  rewrite Hrel. cbn. by rewrite del_transaction_ok.
Qed.

(** X10.  A transaction whose operations all return is committed: its locks
    are released, the manager forgets it, and no rollback operation runs. *)
Theorem run_transaction_commits (t : Transaction W) (s : System W) (p1 p2 : Process W) :
  run_operations None (operations t) (process s) = (Ok tt, p1) →
  release_all (locks t) p1 = (Ok tt, p2) →
  id t ∈ transactions (manager s) →
  run_transaction None t s = (Ok tt, mkSystem (forgotten (id t) (manager s)) p2)
  ∧ world p2 = world p1
  ∧ ∀ l, l ∈ locks t → l ∉ held p2.
Proof.
  intros Hops Hrel Hin. split; [|by apply release_all_ok].
  unfold run_transaction, wait_for, _run_transaction, try_except.
  unfold bind at 1. unfold on_process at 1, lift, execute. rewrite Hops. cbn.
  unfold _commit_transaction.
  rewrite (wrap_ok _ _ _ tt (mkSystem (forgotten (id t) (manager s)) p2)); [done|].
  unfold bind, on_process, lift, release_locks. cbn. rewrite Hrel. cbn.
  by rewrite del_transaction_ok.
Qed.

(** X11.  When an operation raises, the operations after it do not run, all
    the rollback operations of the transaction run, last added first, those
    of the operations that did not run included; the locks are released, the
    manager forgets the transaction and the caller gets
    [TransactionException]. *)
Theorem run_transaction_aborts (t : Transaction W) (s : System W)
    (ops1 ops2 : list (M (Process W) unit)) (op : M (Process W) unit) (e : exn)
    (p1 p2 p3 p4 : Process W) :
  operations t = ops1 ++ op :: ops2 →
  run_operations None ops1 (process s) = (Ok tt, p1) →
  op p1 = (Raise e, p2) →
  is_Exception e = true →
  run_rollbacks (reverse (rollback_operations t)) p2 = (Ok tt, p3) →
  release_all (locks t) p3 = (Ok tt, p4) →
  id t ∈ transactions (manager s) →
  run_transaction None t s
  = (Raise TransactionException, mkSystem (forgotten (id t) (manager s)) p4).
Proof.
  intros Hops Hrun Hop He Hrb Hrel Hin.
  assert (run_operations None (operations t) (process s)
          = (Raise TransactionAbortedError, p2)) as Hstop.
  { rewrite Hops. by eapply run_operations_stops. }
  unfold run_transaction, wait_for, _run_transaction, try_except.
  unfold bind at 1. unfold on_process at 1, lift, execute. rewrite Hstop. cbn.
  change (is_Exception TransactionAbortedError) with true. cbn iota beta.
  unfold bind.
  rewrite (_rollback_transaction_ok t (mkSystem (manager s) p2) p3 p4); done.
Qed.

(** X12.  [add_operation] takes the lock it is given.  On a free lock it
    returns the transaction with the operation, the rollback and the lock
    appended; on a held lock it never returns, so that a second operation on
    the lock of a first one cannot be added. *)
Theorem add_operation_takes_lock (t : Transaction W)
    (operation rollback : M (Process W) unit) (lk : Z) (p : Process W) :
  (lk ∉ held p →
   add_operation t operation rollback lk p
   = (Ok (mkTransaction (id t) (operations t ++ [operation])
            (rollback_operations t ++ [rollback]) (locks t ++ [lk])),
      mkProcess (world p) ({[lk]} ∪ held p)))
  ∧ (lk ∈ held p → fst (add_operation t operation rollback lk p) = Hang)
  ∧ ∀ t' p' operation' rollback',
      add_operation t operation rollback lk p = (Ok t', p') →
      fst (add_operation t' operation' rollback' lk p') = Hang.
Proof.
  assert (∀ (t0 : Transaction W) o r (q : Process W),
            lk ∈ held q → fst (add_operation t0 o r lk q) = Hang) as Hheld.
  { intros t0 o r q Hin.
    unfold add_operation, wrap, try_reraise, try_except, bind, acquire.
    by rewrite bool_decide_eq_true_2. }
  split_and!.
  - intros Hfree.
    unfold add_operation, wrap, try_reraise, try_except, bind, acquire, ret.
    by rewrite bool_decide_eq_false_2.
  - apply Hheld.
  - intros t' p' o' r' Hadd. apply Hheld.
    unfold add_operation, wrap, try_reraise, try_except, bind, acquire, ret in Hadd.
    case_bool_decide; [done|]. injection Hadd as <- <-. cbn.
    apply elem_of_union_l. by apply elem_of_singleton.
Qed.

(** X13.  Whatever the transaction does, an exception that leaves
    [run_transaction] is [TransactionException], or the cancellation of the
    caller: never [TransactionAbortedError], [DeadlockDetectedError] or a
    timeout. *)
Theorem run_transaction_raises (cancel_at : option nat) (t : Transaction W)
    (s : System W) (e : exn) :
  fst (run_transaction cancel_at t s) = Raise e →
  e = TransactionException ∨ e = CancelledError.
Proof.
  unfold run_transaction, try_except.
  destruct (wait_for (_run_transaction cancel_at t) s) as [[[]|e'| |] s1]; cbn; try done.
  destruct (isinstance e' TimeoutError).
  - intros He. apply wrap_raises in He as [He|He]; [by left|right].
    unfold is_Exception in He. apply negb_false_iff in He.
    by apply bool_decide_eq_true_1 in He.
  - destruct (is_Exception e') eqn:He'; cbn.
    + intros [= <-]. by left.
    + intros [= <-]. right.
      unfold is_Exception in He'. apply negb_false_iff in He'.
      by apply bool_decide_eq_true_1 in He'.
Qed.

Lemma on_process_manager {A} (c : M (Process W) A) (s : System W) :
  manager (snd (on_process c s)) = manager s.
Proof. unfold on_process, lift. by destruct (c (process s)). Qed.

(** What the manager's own steps do to its table: they only forget. *)
Definition shrinks (m : TransactionManager) (s' : System W) : Prop :=
  lock (manager s') = lock m
  ∧ next_transaction_id (manager s') = next_transaction_id m
  ∧ transactions (manager s') ⊆ transactions m.

Lemma shrinks_on_process {A} m (c : M (Process W) A) :
  triple (shrinks m) (on_process c) (λ _, shrinks m) (shrinks m).
Proof.
  intros s Hs. pose proof (on_process_manager c s) as Hm.
  destruct (on_process c s) as [[a| | |] s']; cbn in Hm;
    unfold shrinks; by rewrite Hm.
Qed.

Lemma shrinks_del m (t : Transaction W) :
  triple (shrinks m) (del_transaction t) (λ _, shrinks m) (shrinks m).
Proof.
  intros s (Hl & Hn & Ht). unfold del_transaction, on_manager, lift, bind, gets, modify.
  cbn. case_bool_decide; cbn; unfold shrinks; cbn; split_and!; try done.
  intros i Hi. apply Ht. by apply elem_of_difference in Hi as [? _].
Qed.

Lemma shrinks_rollback m (t : Transaction W) :
  triple (shrinks m) (_rollback_transaction t) (λ _, shrinks m) (shrinks m).
Proof.
  apply triple_wrap.
  eapply triple_bind; [apply shrinks_on_process|intros []].
  eapply triple_bind; [apply shrinks_on_process|intros []].
  apply shrinks_del.
Qed.

Lemma shrinks_run m cancel_at (t : Transaction W) :
  triple (shrinks m) (run_transaction cancel_at t) (λ _, shrinks m) (shrinks m).
Proof.
  assert (triple (shrinks m) (_run_transaction cancel_at t) (λ _, shrinks m) (shrinks m))
    as Hrun.
  { apply triple_try_except.
    - eapply triple_bind; [apply shrinks_on_process|intros []].
      apply triple_wrap.
      eapply triple_bind; [apply shrinks_on_process|intros []].
      apply shrinks_del.
    - intros e. destruct (is_Exception e); [|by apply triple_raise].
      eapply triple_bind; [apply shrinks_rollback|intros []]. by apply triple_raise. }
  apply triple_try_except.
  - intros s Hs. specialize (Hrun s Hs). unfold wait_for.
    by destruct (_run_transaction cancel_at t s) as [[a| | |] s'].
  - intros e. destruct (isinstance e TimeoutError).
    + apply triple_wrap.
      eapply triple_bind; [apply shrinks_rollback|intros []]. by apply triple_raise.
    + destruct (is_Exception e); by apply triple_raise.
Qed.

(** X14.  Transaction ids are fresh.  [start_transaction] returns an empty
    transaction under the next id, which no registered transaction has, and
    registers it; running a transaction registers none and leaves the next id
    alone, so starting and running keep every registered id below the next. *)
Theorem transaction_ids_fresh (cancel_at : option nat) (t : Transaction W) (s : System W) :
  lock (manager s) = false →
  ids_below (manager s) →
  (∃ s',
     start_transaction s = (Ok (new (next_transaction_id (manager s))), s')
     ∧ (next_transaction_id (manager s) ∉ transactions (manager s))
     ∧ transactions (manager s')
       = {[next_transaction_id (manager s)]} ∪ transactions (manager s)
     ∧ next_transaction_id (manager s') = next_transaction_id (manager s) + 1
     ∧ lock (manager s') = false
     ∧ ids_below (manager s')
     ∧ process s' = process s)
  ∧ (let s2 := snd (run_transaction cancel_at t s) in
     lock (manager s2) = false
     ∧ ids_below (manager s2)
     ∧ next_transaction_id (manager s2) = next_transaction_id (manager s)).
Proof.
  intros Hl Hb. split.
  - eexists. split.
    { unfold start_transaction, with_lock. rewrite Hl.
      unfold wrap, try_reraise, try_except, bind, on_manager, lift, gets, modify, ret.
      cbn. reflexivity. }
    cbn. split_and!; try done.
    + intros Hin. apply Hb in Hin. lia.
    + intros i Hi. cbn. apply elem_of_union in Hi as [Hi|Hi].
      * apply elem_of_singleton in Hi. lia.
      * apply Hb in Hi. lia.
  - pose proof (triple_state (shrinks (manager s)) (run_transaction cancel_at t)
                  (shrinks (manager s)) s (shrinks_run _ cancel_at t)) as Hs.
    destruct Hs as (H1 & H2 & H3); [by repeat split|].
    cbn. split_and!; [congruence| |done].
    intros i Hi. rewrite H2. apply Hb. by apply H3.
Qed.

End transaction_extra_facts.

Lemma run_transaction_commits_witness :
  let t := transaction.mkTransaction 1
             [modify (λ p, transaction.mkProcess 5 (transaction.held p))] [ret tt] [7] in
  let s := transaction.mkSystem (transaction.mkManager false {[1]} 2 5000)
             (transaction.mkProcess 0 {[7]}) in
  let p1 := transaction.mkProcess 5 {[7]} in
  let p2 := transaction.mkProcess 5 ({[7]} ∖ {[7]}) in
  transaction.run_operations None (transaction.operations t) (transaction.process s)
  = (Ok tt, p1)
  ∧ transaction.release_all (transaction.locks t) p1 = (Ok tt, p2)
  ∧ transaction.id t ∈ transaction.transactions (transaction.manager s)
  ∧ transaction.run_transaction None t s
    = (Ok tt, transaction.mkSystem
                (transaction_extra.forgotten (transaction.id t) (transaction.manager s)) p2)
  ∧ transaction.world p2 = transaction.world p1
  ∧ ∀ l, l ∈ transaction.locks t → l ∉ transaction.held p2.
Proof.
  intros t s p1 p2.
  assert (transaction.run_operations None (transaction.operations t) (transaction.process s)
          = (Ok tt, p1)) as H1 by reflexivity.
  assert (transaction.release_all (transaction.locks t) p1 = (Ok tt, p2)) as H2
    by (vm_compute; reflexivity).
  assert (transaction.id t ∈ transaction.transactions (transaction.manager s)) as H3
    by (vm_compute; reflexivity).
  exact (conj H1 (conj H2 (conj H3 (run_transaction_commits t s p1 p2 H1 H2 H3)))).
Defined.

Lemma run_transaction_aborts_witness :
  let step (k : Z) : M (transaction.Process (list Z)) unit :=
    modify (λ p, transaction.mkProcess (transaction.world p ++ [k]) (transaction.held p)) in
  let t := transaction.mkTransaction 1 [step 1; raise ValueError; step 3]
             [step (-1); step (-2); step (-3)] [7] in
  let s := transaction.mkSystem (transaction.mkManager false {[1]} 2 5000)
             (transaction.mkProcess [] {[7]}) in
  let p1 := transaction.mkProcess [1] {[7]} in
  let p3 := transaction.mkProcess [1; -3; -2; -1] {[7]} in
  let p4 := transaction.mkProcess [1; -3; -2; -1] ({[7]} ∖ {[7]}) in
  transaction.run_operations None [step 1] (transaction.process s) = (Ok tt, p1)
  ∧ transaction.run_rollbacks (reverse (transaction.rollback_operations t)) p1 = (Ok tt, p3)
  ∧ transaction.release_all (transaction.locks t) p3 = (Ok tt, p4)
  ∧ transaction.id t ∈ transaction.transactions (transaction.manager s)
  ∧ transaction.run_transaction None t s
    = (Raise TransactionException,
       transaction.mkSystem
         (transaction_extra.forgotten (transaction.id t) (transaction.manager s)) p4).
Proof.
  intros step t s p1 p3 p4.
  assert (transaction.run_operations None [step 1] (transaction.process s) = (Ok tt, p1))
    as H1 by reflexivity.
  assert (transaction.run_rollbacks (reverse (transaction.rollback_operations t)) p1
          = (Ok tt, p3)) as H2 by reflexivity.
  assert (transaction.release_all (transaction.locks t) p3 = (Ok tt, p4)) as H3
    by (vm_compute; reflexivity).
  assert (transaction.id t ∈ transaction.transactions (transaction.manager s)) as H4
    by (vm_compute; reflexivity).
  exact (conj H1 (conj H2 (conj H3 (conj H4
           (run_transaction_aborts t s [step 1] [step 3] (raise ValueError) ValueError
              p1 p1 p3 p4 eq_refl H1 eq_refl eq_refl H2 H3 H4))))).
Defined.

Lemma add_operation_takes_lock_witness :
  let t := transaction.new 1 in
  let p := transaction.mkProcess tt ∅ in
  let t' := transaction.mkTransaction 1 [ret tt] [ret tt] [7] in
  let p' := transaction.mkProcess tt ({[7]} ∪ ∅) in
  (7 ∉ transaction.held p)
  ∧ transaction.add_operation t (ret tt) (ret tt) 7 p = (Ok t', p')
  ∧ fst (transaction.add_operation t' (ret tt) (ret tt) 7 p') = Hang.
Proof.
  intros t p t' p'.
  assert (7 ∉ transaction.held p) as Hfree by (vm_compute; discriminate).
  pose proof (add_operation_takes_lock t (ret tt) (ret tt) 7 p) as (Hadd & _ & Hsecond).
  exact (conj Hfree (conj (Hadd Hfree) (Hsecond t' p' (ret tt) (ret tt) (Hadd Hfree)))).
Defined.

Lemma run_transaction_raises_witness :
  let t := transaction.mkTransaction 1 [raise ValueError] [ret tt] [7] in
  let s := transaction.mkSystem (transaction.mkManager false {[1]} 2 5000)
             (transaction.mkProcess tt {[7]}) in
  fst (transaction.run_transaction None t s) = Raise TransactionException
  ∧ (TransactionException = TransactionException ∨ TransactionException = CancelledError).
Proof.
  intros t s.
  assert (fst (transaction.run_transaction None t s) = Raise TransactionException) as H
    by (vm_compute; reflexivity).
  exact (conj H (run_transaction_raises None t s TransactionException H)).
Defined.

Lemma transaction_ids_fresh_witness :
  let s := transaction.mkSystem transaction.init (transaction.mkProcess tt ∅) in
  let t := transaction.new 1 in
  transaction.lock (transaction.manager s) = false
  ∧ transaction_extra.ids_below (transaction.manager s)
  ∧ (∃ s',
       transaction.start_transaction s
       = (Ok (transaction.new (transaction.next_transaction_id (transaction.manager s))), s')
       ∧ (transaction.next_transaction_id (transaction.manager s)
          ∉ transaction.transactions (transaction.manager s))
       ∧ transaction.transactions (transaction.manager s')
         = {[transaction.next_transaction_id (transaction.manager s)]}
           ∪ transaction.transactions (transaction.manager s)
       ∧ transaction.next_transaction_id (transaction.manager s')
         = transaction.next_transaction_id (transaction.manager s) + 1
       ∧ transaction.lock (transaction.manager s') = false
       ∧ transaction_extra.ids_below (transaction.manager s')
       ∧ transaction.process s' = transaction.process s)
  ∧ (let s2 := snd (transaction.run_transaction None t s) in
     transaction.lock (transaction.manager s2) = false
     ∧ transaction_extra.ids_below (transaction.manager s2)
     ∧ transaction.next_transaction_id (transaction.manager s2)
       = transaction.next_transaction_id (transaction.manager s)).
Proof.
  intros s t.
  assert (transaction_extra.ids_below (transaction.manager s)) as Hb.
  { intros i Hi. cbn in Hi. by apply elem_of_empty in Hi. }
  exact (conj eq_refl (conj Hb (transaction_ids_fresh None t s eq_refl Hb))).
Defined.

(** ** Index manager: errors, text round trip, deferred updates *)

Section index_manager_extra.
Import index_manager.

(** X15.  [delete] removes nothing.  On a keyed or a reference index it
    raises [IndexException], on a name without index too; on a text index it
    returns; the manager is the same in every case. *)
Theorem delete_removes_nothing (name : string) (key : b_plus_tree.pyobj) (m : IndexManager) :
  delete name key m
  = (if bool_decide (is_Some (indexes m !! name)) then Raise IndexException
     else if bool_decide (is_Some (ref_indexes m !! name)) then Raise IndexException
     else if bool_decide (is_Some (text_indexes m !! name)) then Ok tt
     else Raise IndexException, m).
Proof.
  unfold delete, wrap, try_reraise, try_except. unfold bind at 1. cbn.
  by repeat case_bool_decide.
Qed.

(** X16.  A [create_*] call for a name that has an index of that kind, or
    for a kind the configuration does not enable, raises [IndexException]
    and changes nothing: the index that was there keeps its content. *)
Theorem create_rejected (name : string) (compound : bool)
    (filter : option (b_plus_tree.pyobj → bool)) (m : IndexManager) :
  (is_Some (indexes m !! name) →
   create_index name compound filter m = (Raise IndexException, m))
  ∧ (is_Some (ref_indexes m !! name) ∨ enable_ref_indexing (config m) = false →
     create_ref_index name m = (Raise IndexException, m))
  ∧ (is_Some (text_indexes m !! name) ∨ enable_text_search (config m) = false →
     create_text_index name m = (Raise IndexException, m)).
Proof.
  split_and!.
  - intros Hin. unfold create_index, wrap, try_reraise, try_except.
    unfold bind at 1. cbn.
    destruct (compound && negb _); [done|].
    destruct (bool_decide (is_Some filter) && negb _); [done|].
    unfold bind. cbn. by rewrite bool_decide_eq_true_2.
  - intros Hin. unfold create_ref_index, wrap, try_reraise, try_except.
    unfold bind at 1. cbn.
    destruct (enable_ref_indexing (config m)); cbn; [|done].
    destruct Hin as [Hin|Hin]; [|done].
    unfold bind. cbn. by rewrite bool_decide_eq_true_2.
  - intros Hin. unfold create_text_index, wrap, try_reraise, try_except.
    unfold bind at 1. cbn.
    destruct (enable_text_search (config m)); cbn; [|done].
    destruct Hin as [Hin|Hin]; [|done].
    unfold bind. cbn. by rewrite bool_decide_eq_true_2.
Qed.

(** X17.  A name without any index.  [insert] raises [IndexException], not
    the [IndexNotFoundError] it raises inside; [text_search] raises
    [IndexNotFoundError] when the query has a token, and returns the empty
    list when it has none. *)
Theorem unknown_index (name query : string) (key : b_plus_tree.pyobj) (value : Z)
    (m : IndexManager) :
  indexes m !! name = None →
  ref_indexes m !! name = None →
  text_indexes m !! name = None →
  enable_text_search (config m) = true →
  insert name key value m = (Raise IndexException, m)
  ∧ (_tokenize query ≠ [] → text_search name query m = (Raise IndexNotFoundError, m))
  ∧ (_tokenize query = [] → text_search name query m = (Ok [], m)).
Proof.
  intros Hi Hr Ht He. split_and!.
  - unfold insert, wrap, try_reraise, try_except. unfold bind at 1. cbn.
    rewrite Hi, Hr, Ht. cbn. done.
  - intros Htok. unfold text_search, try_reraise, try_except.
    unfold bind at 1. cbn. rewrite He. cbn.
    destruct (_tokenize query) as [|w ws]; [done|]. cbn.
    unfold bind. cbn. by rewrite Ht.
  - intros Htok. unfold text_search, try_reraise, try_except.
    unfold bind at 1. cbn. rewrite He. cbn. rewrite Htok. cbn.
    by rewrite elements_empty.
Qed.

(** The posting lists after the tokens of a text have been added. *)
Lemma add_postings_elem (words : list string) (doc_id : Z) :
  ∀ (ix : gmap string (list Z)) (w : string) (d : Z),
  d ∈ postings (add_postings words doc_id ix) w
  ↔ d ∈ postings ix w ∨ (d = doc_id ∧ w ∈ words).
Proof.
  induction words as [|w0 words IH]; intros ix w d; cbn.
  - split; [by left|]. intros [?|[_ H]]; [done|]. by apply elem_of_nil in H.
  - rewrite IH. unfold postings.
    destruct (decide (w = w0)) as [->|Hne].
    + rewrite lookup_insert_eq. cbn. rewrite elem_of_app, list_elem_of_singleton.
      rewrite elem_of_cons. intuition auto.
    + rewrite lookup_insert_ne by done. rewrite elem_of_cons. intuition congruence.
Qed.

Lemma foldl_intersection_elem (d : Z) (rest : list (gset Z)) :
  ∀ s : gset Z, d ∈ foldl (∩) s rest ↔ d ∈ s ∧ ∀ r, r ∈ rest → d ∈ r.
Proof.
  induction rest as [|r0 rest IH]; intros s; cbn.
  - split; [|by intros [? _]]. intros Hd. split; [done|].
    intros r Hr. by apply elem_of_nil in Hr.
  - rewrite IH, elem_of_intersection. split.
    + intros [[Hs Hr0] Hrest]. split; [done|]. intros r Hr.
      apply elem_of_cons in Hr as [->|Hr]; [done|by apply Hrest].
    + intros [Hs Hall]. split_and!; [done|apply Hall; by left|].
      intros r Hr. apply Hall. by right.
Qed.

Lemma intersection_elem (d : Z) (results : list (gset Z)) :
  results ≠ [] → (d ∈ intersection results ↔ ∀ r, r ∈ results → d ∈ r).
Proof.
  destruct results as [|s rest]; [done|]. intros _. cbn.
  rewrite foldl_intersection_elem. split.
  - intros [Hs Hrest] r Hr. apply elem_of_cons in Hr as [->|Hr]; [done|by apply Hrest].
  - intros Hall. split; [apply Hall; by left|]. intros r Hr. apply Hall. by right.
Qed.

Lemma _insert_text_index_ok name ix text doc_id m :
  text_indexes m !! name = Some ix →
  _insert_text_index name (b_plus_tree.OStr text) doc_id m
  = (Ok tt, set_text_indexes
              (<[name := add_postings (_tokenize text) doc_id ix]> (text_indexes m)) m).
Proof.
  intros Hix. unfold _insert_text_index, wrap, try_reraise, try_except.
  destruct (_tokenize text) as [|w ws] eqn:Htok.
  - cbn. unfold ret. f_equal. destruct m; cbn in *. unfold set_text_indexes. cbn.
    f_equal. by rewrite insert_id.
  - unfold bind, gets, of_option, modify. cbn. by rewrite Hix.
Qed.

(** X18.  Insertion into a text index, then a search.  The insertion adds
    the document id to the posting list of each token of the text, and to no
    other; a search then returns, once each, the ids that are posted under
    every token of the query. *)
Theorem text_insert_then_search (cfg : IndexManagerConfig) (m : IndexManager)
    (name text query : string) (ix : gmap string (list Z)) (doc_id : Z) :
  reachable cfg m →
  indexes m !! name = None →
  ref_indexes m !! name = None →
  text_indexes m !! name = Some ix →
  _tokenize query ≠ [] →
  ∃ m' ids,
    insert name (b_plus_tree.OStr text) doc_id m = (Ok tt, m')
    ∧ text_search name query m' = (Ok ids, m')
    ∧ NoDup ids
    ∧ ∀ d, d ∈ ids ↔
        ∀ w, w ∈ _tokenize query →
          d ∈ postings ix w ∨ (d = doc_id ∧ w ∈ _tokenize text).
Proof.
  intros Hreach Hi Hr Ht Htok.
  assert (enable_text_search (config m) = true) as He.
  { apply (reachable_gate cfg m Hreach name). by rewrite Ht. }
  set (ix' := add_postings (_tokenize text) doc_id ix).
  set (m' := set_text_indexes (<[name := ix']> (text_indexes m)) m).
  exists m', (elements (intersection ((λ w, list_to_set (postings ix' w)) <$> _tokenize query))).
  split_and!.
  - unfold insert. apply wrap_ok. unfold bind at 1. cbn. rewrite Hi, Hr, Ht. cbn.
    by apply _insert_text_index_ok.
  - apply text_search_ok; [done|]. cbn. by rewrite lookup_insert_eq.
  - apply NoDup_elements.
  - intros d. rewrite elem_of_elements.
    rewrite intersection_elem by (by destruct (_tokenize query)).
    split.
    + intros Hall w Hw. apply add_postings_elem.
      rewrite <- (elem_of_list_to_set (C:=gset Z)).
      apply Hall. apply list_elem_of_fmap. by exists w.
    + intros Hall r Hin. apply list_elem_of_fmap in Hin as (w & -> & Hw).
      rewrite elem_of_list_to_set. apply add_postings_elem. by apply Hall.
Qed.

Lemma lower_char_idem c : lower_char (lower_char c) = lower_char c.
Proof. by destruct c as [[] [] [] [] [] [] [] []]. Qed.

Lemma lower_idem s : lower (lower s) = lower s.
Proof. induction s as [|c s IH]; [done|]. cbn. by rewrite lower_char_idem, IH. Qed.

Lemma lower_chars s c : In c (list_ascii_of_string (lower s)) → lower_char c = c.
Proof.
  induction s as [|c0 s IH]; cbn; [done|].
  intros [<-|Hin]; [apply lower_char_idem|by apply IH].
Qed.

Lemma chars_snoc cur c x :
  In x (list_ascii_of_string (cur +:+ String c EmptyString)) →
  In x (list_ascii_of_string cur) ∨ x = c.
Proof.
  induction cur as [|c0 cur IH]; cbn.
  - intros [<-|[]]. by right.
  - intros [<-|Hin]; [left; by left|]. destruct (IH Hin) as [?|?]; [left; by right|by right].
Qed.

Lemma findall_words_words s : ∀ cur,
  (∀ c, In c (list_ascii_of_string cur) → is_word c = true ∧ lower_char c = c) →
  (∀ c, In c (list_ascii_of_string s) → lower_char c = c) →
  Forall word (findall_words s cur).
Proof.
  assert (∀ cur,
            (∀ c, In c (list_ascii_of_string cur) → is_word c = true ∧ lower_char c = c) →
            Forall word (flush cur)) as Hflush.
  { intros [|c cur] Hcur; cbn; constructor; [|constructor]. by split. }
  induction s as [|c s IH]; intros cur Hcur Hs; cbn; [by apply Hflush|].
  destruct (is_word c) eqn:Hc.
  - apply IH; [|intros x Hx; apply Hs; by right].
    intros x Hx. destruct (chars_snoc _ _ _ Hx) as [Hin| ->]; [by apply Hcur|].
    split; [done|]. apply Hs. by left.
  - apply Forall_app. split; [by apply Hflush|].
    apply IH; [by intros x []|intros x Hx; apply Hs; by right].
Qed.

(** X19.  Every token is a non-empty run of letters, digits and
    underscores without capital letter, and the case of the text does not
    matter. *)
Theorem tokens_are_lowercase_words (text : string) :
  Forall word (_tokenize text) ∧ _tokenize (lower text) = _tokenize text.
Proof.
  split.
  - apply findall_words_words; [by intros c []|apply lower_chars].
  - unfold _tokenize. by rewrite lower_idem.
Qed.

(** X20.  With asynchronous updates an insertion into a keyed index only
    queues the update, the tree is as before; one turn of the update task
    on that queue does what the insertion would have done on the tree. *)
Theorem deferred_insert (m : IndexManager) (name : string) (ix : Index)
    (key : b_plus_tree.pyobj) (value : Z) :
  enable_async_updates (config m) = true →
  async_update_queue m = [] →
  indexes m !! name = Some ix →
  (∀ f, filter_condition ix = Some f → f key = true) →
  ∃ m1,
    insert name key value m = (Ok tt, m1)
    ∧ indexes m1 = indexes m
    ∧ async_update_queue m1 = [QInsert (Keyed name) key value]
    ∧ async_update_queue (snd (_process_async_updates m1)) = []
    ∧ indexes (snd (_process_async_updates m1))
      = <[name := mkIndex (snd (b_plus_tree.insert key (b_plus_tree.OInt value) (tree ix)))
                    (is_compound ix) (filter_condition ix)]> (indexes m).
Proof.
  intros Ha Hq Hix Hf.
  exists (set_queue [QInsert (Keyed name) key value] m).
  assert (queue_full m = false) as Hfull.
  { unfold queue_full. rewrite Hq. cbn.
    destruct (0 <? _) eqn:H0; [|done]. cbn. apply Z.ltb_lt in H0. apply Z.leb_gt. lia. }
  assert (_process_async_updates (set_queue [QInsert (Keyed name) key value] m)
          = (let '(r, tr) := b_plus_tree.insert key (b_plus_tree.OInt value) (tree ix) in
             (match r with
              | Raise e => if is_Exception e then Ok tt else Raise e
              | r => r
              end,
              set_indexes (<[name := mkIndex tr (is_compound ix) (filter_condition ix)]>
                             (indexes m)) (set_queue [] m)))) as Hturn.
  { assert (tree_insert (Keyed name) key value (set_queue [] m)
            = (let '(r, tr) := b_plus_tree.insert key (b_plus_tree.OInt value) (tree ix) in
               (r, set_indexes (<[name := mkIndex tr (is_compound ix) (filter_condition ix)]>
                                  (indexes m)) (set_queue [] m)))) as Hins.
    { unfold tree_insert. cbn [indexes set_queue]. by rewrite Hix. }
    unfold _process_async_updates, bind, gets, modify, try_except.
    cbn [async_update_queue set_queue config indexes ref_indexes text_indexes].
    change (set_queue [] (set_queue [QInsert (Keyed name) key value] m))
      with (set_queue [] m).
    rewrite Hins.
    destruct (b_plus_tree.insert key (b_plus_tree.OInt value) (tree ix)) as [[[]|e| |] tr];
      try reflexivity.
    by destruct (is_Exception e). }
  split_and!.
  - unfold insert. apply wrap_ok. unfold bind at 1. cbn. rewrite Hix.
    assert ((match filter_condition ix with Some f => f key | None => true end) = true) as ->.
    { destruct (filter_condition ix) as [f|]; [by apply Hf|done]. }
    unfold _insert_or_queue. apply try_reraise_ok.
    unfold bind, gets. cbn. rewrite Ha. unfold queue_put. rewrite Hfull. by rewrite Hq.
  - done.
  - done.
  - rewrite Hturn. by destruct (b_plus_tree.insert _ _ _).
  - rewrite Hturn. by destruct (b_plus_tree.insert _ _ _).
Qed.

End index_manager_extra.

Lemma create_rejected_witness :
  let cfg := index_manager.mkConfig false false false true false false 1000 "english" in
  let m := index_manager.run (index_manager.CreateTextIndex "body") (index_manager.init cfg) in
  is_Some (index_manager.text_indexes m !! "body")
  ∧ index_manager.enable_ref_indexing (index_manager.config m) = false
  ∧ index_manager.create_text_index "body" m = (Raise IndexException, m)
  ∧ index_manager.create_ref_index "body" m = (Raise IndexException, m).
Proof.
  intros cfg m.
  assert (is_Some (index_manager.text_indexes m !! "body")) as Hs.
  { exists (default ∅ (index_manager.text_indexes m !! "body")). vm_compute; reflexivity. }
  pose proof (create_rejected "body" false None m) as (_ & Href & Htext).
  exact (conj Hs (conj eq_refl (conj (Htext (or_introl Hs)) (Href (or_intror eq_refl))))).
Defined.

Lemma unknown_index_witness :
  let cfg := index_manager.mkConfig false false false true false false 1000 "english" in
  let m := index_manager.init cfg in
  index_manager._tokenize "red" ≠ []
  ∧ index_manager._tokenize "?!" = []
  ∧ index_manager.insert "body" (b_plus_tree.OStr "red") 1 m = (Raise IndexException, m)
  ∧ index_manager.text_search "body" "red" m = (Raise IndexNotFoundError, m)
  ∧ index_manager.text_search "body" "?!" m = (Ok [], m).
Proof.
  intros cfg m.
  assert (index_manager._tokenize "red" ≠ []) as H1 by (vm_compute; discriminate).
  assert (index_manager._tokenize "?!" = []) as H2 by (vm_compute; reflexivity).
  pose proof (unknown_index "body" "red" (b_plus_tree.OStr "red") 1 m
                eq_refl eq_refl eq_refl eq_refl) as (Hins & Hsome & _).
  pose proof (unknown_index "body" "?!" (b_plus_tree.OStr "red") 1 m
                eq_refl eq_refl eq_refl eq_refl) as (_ & _ & Hnone).
  exact (conj H1 (conj H2 (conj Hins (conj (Hsome H1) (Hnone H2))))).
Defined.

Lemma text_insert_then_search_witness :
  let cfg := index_manager.mkConfig false false false true false false 1000 "english" in
  let m := index_manager.run (index_manager.Insert "body" (b_plus_tree.OStr "Red apple") 1)
             (index_manager.run (index_manager.CreateTextIndex "body")
                (index_manager.init cfg)) in
  let ix := default ∅ (index_manager.text_indexes m !! "body") in
  index_manager.text_indexes m !! "body" = Some ix
  ∧ index_manager._tokenize "APPLE" ≠ []
  ∧ ∃ m' ids,
      index_manager.insert "body" (b_plus_tree.OStr "green apple") 2 m = (Ok tt, m')
      ∧ index_manager.text_search "body" "APPLE" m' = (Ok ids, m')
      ∧ NoDup ids
      ∧ ∀ d, d ∈ ids ↔
          ∀ w, w ∈ index_manager._tokenize "APPLE" →
            d ∈ index_manager.postings ix w
            ∨ (d = 2 ∧ w ∈ index_manager._tokenize "green apple").
Proof.
  intros cfg m ix.
  assert (index_manager.text_indexes m !! "body" = Some ix) as Hix
    by (vm_compute; reflexivity).
  assert (index_manager._tokenize "APPLE" ≠ []) as Htok by (vm_compute; discriminate).
  refine (conj Hix (conj Htok _)).
  apply (text_insert_then_search cfg m "body" "green apple" "APPLE" ix 2);
    [repeat constructor | vm_compute; reflexivity | vm_compute; reflexivity
    | exact Hix | exact Htok].
Defined.

Lemma deferred_insert_witness :
  let cfg := index_manager.mkConfig false false false false true false 1000 "english" in
  let m := index_manager.run (index_manager.CreateIndex "users_name" false None)
             (index_manager.init cfg) in
  let ix := index_manager.mkIndex (b_plus_tree.init 10) false None in
  index_manager.indexes m !! "users_name" = Some ix
  ∧ ∃ m1,
      index_manager.insert "users_name" (b_plus_tree.OStr "A") 1 m = (Ok tt, m1)
      ∧ index_manager.indexes m1 = index_manager.indexes m
      ∧ index_manager.async_update_queue m1
        = [index_manager.QInsert (index_manager.Keyed "users_name") (b_plus_tree.OStr "A") 1]
      ∧ index_manager.async_update_queue (snd (index_manager._process_async_updates m1)) = []
      ∧ index_manager.indexes (snd (index_manager._process_async_updates m1))
        = <["users_name" :=
              index_manager.mkIndex
                (snd (b_plus_tree.insert (b_plus_tree.OStr "A") (b_plus_tree.OInt 1)
                        (index_manager.tree ix)))
                (index_manager.is_compound ix) (index_manager.filter_condition ix)]>
            (index_manager.indexes m).
Proof.
  intros cfg m ix.
  assert (index_manager.indexes m !! "users_name" = Some ix) as Hix
    by (vm_compute; reflexivity).
  refine (conj Hix _).
  apply (deferred_insert m "users_name" ix (b_plus_tree.OStr "A") 1);
    [reflexivity | reflexivity | exact Hix | intros f Hf; discriminate Hf].
Defined.
(** ** Document store: the methods without lock decorator *)

Section json_filestore_extra.
Import json_filestore.
Context (cd : Codec).

Lemma mutate_ok r f d s :
  objects s !! r = Some d →
  mutate r f s = (Ok tt, set_objects (<[r := f d]> (objects s)) s).
Proof. intros H. unfold mutate, bind, deref. by rewrite H. Qed.

(** The document [_create_with_id] stores. *)
Definition stamped (doc_id now1 now2 : Z) (document : doc) : doc :=
  <["updated_at" := JInt now2]>
    (<["created_at" := JInt now1]> (<["id" := JInt doc_id]> document)).

(** The store after the assignments of [_create_with_id]. *)
Definition stored (doc_id : Z) (r : nat) (d : doc) (s : JSONFilestore) : JSONFilestore :=
  mkStore (<[r := d]> (objects s)) (<[doc_id := r]> (data s))
    (lru_cache.put doc_id r (cache s)) (next_id s) (compression_queue s) (lock s).

Lemma _create_with_id_run doc_id r d now1 now2 s :
  objects s !! r = Some d →
  _create_with_id cd doc_id r now1 now2 s
  = match json_dumps cd (JDict (map_to_list (stamped doc_id now1 now2 d))) with
    | Some text =>
        (Ok doc_id,
         if 4 * 1024 <? Z.of_nat (length text)
         then set_queue (compression_queue s ++ [(doc_id, r)])
                (stored doc_id r (stamped doc_id now1 now2 d) s)
         else stored doc_id r (stamped doc_id now1 now2 d) s)
    | None => (Raise StorageException, stored doc_id r (stamped doc_id now1 now2 d) s)
    end.
Proof.
  intros Hr.
  assert (r < length (objects s))%nat as Hlt by (by eapply lookup_lt_Some).
  unfold _create_with_id, wrap, try_reraise, try_except.
  unfold bind at 1. rewrite (mutate_ok r _ d) by done.
  unfold bind at 1. rewrite (mutate_ok r _ (<["id" := JInt doc_id]> d))
    by (cbn; by apply list_lookup_insert_eq).
  unfold bind at 1.
  rewrite (mutate_ok r _ (<["created_at" := JInt now1]> (<["id" := JInt doc_id]> d)))
    by (cbn; apply list_lookup_insert_eq; by rewrite length_insert).
  cbn [objects set_objects]. rewrite !list_insert_insert_eq.
  unfold bind at 1. unfold modify at 1. unfold bind at 1. unfold modify at 1.
  unfold bind at 1. unfold queue_if_large. unfold bind at 1. unfold deref.
  cbn [objects set_objects set_data set_cache data cache next_id compression_queue lock].
  rewrite list_lookup_insert_eq by done.
  fold (stamped doc_id now1 now2 d).
  destruct (json_dumps cd _) as [text|]; [|done].
  destruct (_ <? _); done.
Qed.

(** X21.  [_create_with_id] on a document object of the store sets the
    fields [id], [created_at] and [updated_at] over those of the caller and
    keeps the other fields, stores the object under the id and puts it in
    the cache, and only then serialises it to decide on compression: a
    document whose text has more than 4096 characters is queued, and a
    document that [json.dumps] refuses makes the call raise
    [StorageException] with the document already stored. *)
Theorem private_create_with_id_stores (s : JSONFilestore) (doc_id : Z) (r : nat) (d : doc)
    (now1 now2 : Z) :
  objects s !! r = Some d →
  let document := stamped doc_id now1 now2 d in
  let s1 := stored doc_id r document s in
  _create_with_id cd doc_id r now1 now2 s
  = match json_dumps cd (JDict (map_to_list document)) with
    | Some text =>
        (Ok doc_id,
         if 4 * 1024 <? Z.of_nat (length text)
         then set_queue (compression_queue s ++ [(doc_id, r)]) s1
         else s1)
    | None => (Raise StorageException, s1)
    end
  ∧ fields s1 doc_id = Some document
  ∧ document !! "id" = Some (JInt doc_id)
  ∧ document !! "created_at" = Some (JInt now1)
  ∧ document !! "updated_at" = Some (JInt now2)
  ∧ (∀ k, k ≠ "id" → k ≠ "created_at" → k ≠ "updated_at" → document !! k = d !! k)
  ∧ (1 ≤ lru_cache.capacity (cache s) →
     lru_cache.find doc_id (lru_cache.cache (cache s1)) = Some r).
Proof.
  intros Hr document s1.
  split; [by apply _create_with_id_run|].
  split.
  { unfold fields. cbn. rewrite lookup_insert_eq. cbn.
    apply list_lookup_insert_eq. by eapply lookup_lt_Some. }
  unfold document, stamped.
  split; [by rewrite !lookup_insert_ne, lookup_insert_eq by done|].
  split; [by rewrite lookup_insert_ne, lookup_insert_eq by done|].
  split; [by rewrite lookup_insert_eq|].
  split.
  - intros k H1 H2 H3. by rewrite !lookup_insert_ne by done.
  - intros Hcap. cbn. by apply put_find.
Qed.

(** The document after the compression task has packed its [data] field. *)
Definition packed (text : list byte) (d : doc) : doc :=
  <["compressed" := JBool true]> (<["data" := JBytes (zlib_compress cd text)]> d).

(** The store after a turn of the compression task on the item
    [(doc_id, r)], whose object is [d]. *)
Definition compressed (doc_id : Z) (r : nat) (q : list (Z * nat)) (d : doc)
    (s : JSONFilestore) : JSONFilestore :=
  match d !! "data" with
  | Some v =>
      match json_dumps cd v with
      | Some text =>
          mkStore (<[r := packed text d]> (objects s)) (<[doc_id := r]> (data s))
            (cache s) (next_id s) q (lock s)
      | None => set_queue q s
      end
  | None => set_queue q s
  end.

Lemma process_compression_queue_run doc_id r q d s :
  compression_queue s = (doc_id, r) :: q →
  objects s !! r = Some d →
  process_compression_queue cd s = (Ok tt, compressed doc_id r q d s).
Proof.
  intros Hq Hr.
  assert (r < length (objects s))%nat as Hlt by (by eapply lookup_lt_Some).
  unfold process_compression_queue, compressed. unfold bind at 1. unfold gets. rewrite Hq.
  unfold bind at 1. unfold modify at 1. unfold try_except.
  unfold bind at 1. unfold deref at 1. cbn [objects set_queue]. rewrite Hr.
  unfold bind at 1.
  destruct (d !! "data") as [v|]; [|done]. cbn [of_option]. unfold ret at 1.
  unfold bind at 1.
  destruct (json_dumps cd v) as [text|]; [|done]. cbn [of_option]. unfold ret at 1.
  unfold bind at 1. unfold _compress_data, ret.
  unfold bind at 1. rewrite (mutate_ok r _ d) by done.
  unfold bind at 1.
  rewrite (mutate_ok r _ (<["data" := JBytes (zlib_compress cd text)]> d))
    by (cbn; by apply list_lookup_insert_eq).
  unfold modify. cbn. by rewrite list_insert_insert_eq.
Qed.

(** X22.  A turn of the compression task takes the first item of the queue
    and returns, whatever the document: when the document has a field [data]
    that [json.dumps] accepts, the field becomes the compressed text,
    [compressed] is set, and the object is stored under the id of the item,
    also when the store holds no document with this id at that time; in the
    other cases the error is swallowed and only the queue changes.  The
    cache is not touched. *)
Theorem compression_turn_stores_document (s : JSONFilestore) (doc_id : Z) (r : nat)
    (q : list (Z * nat)) (d : doc) :
  compression_queue s = (doc_id, r) :: q →
  objects s !! r = Some d →
  let s' := compressed doc_id r q d s in
  process_compression_queue cd s = (Ok tt, s')
  ∧ compression_queue s' = q
  ∧ cache s' = cache s
  ∧ (∀ v text, d !! "data" = Some v → json_dumps cd v = Some text →
       fields s' doc_id = Some (packed text d)
       ∧ packed text d !! "data" = Some (JBytes (zlib_compress cd text))
       ∧ packed text d !! "compressed" = Some (JBool true))
  ∧ ((d !! "data" = None ∨ ∃ v, d !! "data" = Some v ∧ json_dumps cd v = None) →
     s' = set_queue q s).
Proof.
  intros Hq Hr s'.
  split; [by apply process_compression_queue_run|].
  subst s'. unfold compressed.
  split; [by destruct (d !! "data") as [v|]; [destruct (json_dumps cd v)|]|].
  split; [by destruct (d !! "data") as [v|]; [destruct (json_dumps cd v)|]|].
  split.
  - intros v text -> ->. split.
    + unfold fields. cbn. rewrite lookup_insert_eq. cbn.
      apply list_lookup_insert_eq. by eapply lookup_lt_Some.
    + unfold packed. split; [by rewrite lookup_insert_ne, lookup_insert_eq|].
      by rewrite lookup_insert_eq.
  - intros [-> | (v & -> & ->)]; done.
Qed.

End json_filestore_extra.

(** ** Filestore: writing a payload to blocks *)

Section enhanced_filestore_extra.
Import json_filestore enhanced_filestore.

(** The block store with the number [store_id]. *)
Definition block_store_of (store_id : Z) (f : EnhancedFilestore) : block_store.BlockStore :=
  if store_id =? 0 then small_block_store f
  else if store_id =? 1 then medium_block_store f
  else large_block_store f.

Lemma on_block_store_gets {A} store_id (g : block_store.BlockStore → A) f :
  on_block_store store_id (gets g) f = (Ok (g (block_store_of store_id f)), f).
Proof.
  unfold on_block_store, block_store_of.
  destruct (store_id =? 0); [|destruct (store_id =? 1)];
    unfold on_small, on_medium, on_large, lift, gets; by destruct f.
Qed.

Lemma write_slices_run count store_id size : ∀ data blocks f,
  write_slices count store_id size data blocks f
  = (Ok (blocks ++ replicate count (Coroutine "allocate_block" store_id)), f).
Proof.
  induction count as [|count IH]; intros data blocks f.
  - cbn. by rewrite app_nil_r.
  - cbn [write_slices replicate]. unfold bind at 1.
    change (_allocate_block store_id f) with (Ok (Coroutine "allocate_block" store_id), f).
    cbn beta iota. unfold bind at 1.
    change (_write_block store_id (Coroutine "allocate_block" store_id) (take size data) f)
      with (Ok tt, f).
    cbn beta iota. rewrite IH. by rewrite <- app_assoc.
Qed.

(** X23.  [_write_to_blocks] allocates no block and writes no byte: it
    hands the coroutine functions of the block store to [asyncio.to_thread],
    which calls them without awaiting the coroutines they make.  The call
    returns, as block numbers, one coroutine object for each slice of the
    data, and leaves the files and the free lists of the block stores as they
    were. *)
Theorem write_to_blocks_writes_nothing (store_id : Z) (data : list byte)
    (f : EnhancedFilestore) :
  0 < block_store.block_size (block_store_of store_id f) →
  let size := block_store.block_size (block_store_of store_id f) in
  _write_to_blocks store_id data f
  = (Ok (replicate (Z.to_nat ((Z.of_nat (length data) + size - 1) / size))
           (Coroutine "allocate_block" store_id)),
     f).
Proof.
  intros Hsize size. unfold _write_to_blocks, try_reraise, try_except.
  unfold bind at 1. rewrite on_block_store_gets. fold size.
  destruct (size <=? 0) eqn:Hle; [apply Z.leb_le in Hle; lia|].
  by rewrite write_slices_run.
Qed.

End enhanced_filestore_extra.

Lemma private_create_with_id_stores_witness :
  let d : gmap string json_filestore.jval := {["blob" := json_filestore.JBytes [x61]]} in
  let s := json_filestore.mkStore [d] ∅ (lru_cache.init 10) 2 [] reader_writer_lock.init in
  let document := stamped 1 100 101 d in
  let s1 := stored 1 0 document s in
  json_filestore.objects s !! 0%nat = Some d
  ∧ json_filestore.json_dumps json.python (json_filestore.JDict (map_to_list document)) = None
  ∧ json_filestore._create_with_id json.python 1 0 100 101 s = (Raise StorageException, s1)
  ∧ json_filestore.fields s1 1 = Some document
  ∧ lru_cache.find 1 (lru_cache.cache (json_filestore.cache s1)) = Some 0%nat.
Proof.
  intros d s document s1.
  assert (json_filestore.json_dumps json.python
            (json_filestore.JDict (map_to_list document)) = None)
    as Hd by (vm_compute; reflexivity).
  destruct (private_create_with_id_stores json.python s 1 0 d 100 101 eq_refl)
    as (Hrun & Hf & _ & _ & _ & _ & Hc).
  fold document in Hrun, Hf. fold s1 in Hrun, Hf, Hc. rewrite Hd in Hrun.
  refine (conj eq_refl (conj Hd (conj Hrun (conj Hf (Hc _))))).
  vm_compute. discriminate.
Defined.

Lemma compression_turn_stores_document_witness :
  let d : gmap string json_filestore.jval :=
    {["data" := json_filestore.JStr "abc"; "id" := json_filestore.JInt 1]} in
  let s := json_filestore.mkStore [d] ∅ (lru_cache.init 10) 2 [(1, 0%nat)]
             reader_writer_lock.init in
  let text := default [] (json_filestore.json_dumps json.python (json_filestore.JStr "abc")) in
  let s' := compressed json.python 1 0 [] d s in
  (json_filestore.compression_queue s = [(1, 0%nat)]
   ∧ json_filestore.objects s !! 0%nat = Some d
   ∧ json_filestore.fields s 1 = None)
  ∧ json_filestore.process_compression_queue json.python s = (Ok tt, s')
  ∧ json_filestore.fields s' 1 = Some (packed json.python text d).
Proof.
  intros d s text s'.
  destruct (compression_turn_stores_document json.python s 1 0 [] d eq_refl eq_refl)
    as (Hrun & _ & _ & Hpacked & _).
  destruct (Hpacked (json_filestore.JStr "abc") text) as [Hf _];
    [vm_compute; reflexivity | vm_compute; reflexivity |].
  exact (conj (conj eq_refl (conj eq_refl eq_refl)) (conj Hrun Hf)).
Defined.

Lemma write_to_blocks_writes_nothing_witness :
  let f := transaction.world (transaction.process
             (enhanced_filestore.attributes index_manager.default_config
                (json_filestore.empty 1000) (json_filestore.empty 100))) in
  let data := replicate 5000 x61 in
  0 < block_store.block_size (block_store_of 0 f)
  ∧ enhanced_filestore._write_to_blocks 0 data f
    = (Ok [enhanced_filestore.Coroutine "allocate_block" 0;
           enhanced_filestore.Coroutine "allocate_block" 0], f).
Proof.
  intros f data.
  assert (0 < block_store.block_size (block_store_of 0 f)) as H by (vm_compute; reflexivity).
  exact (conj H (write_to_blocks_writes_nothing 0 data f H)).
Defined.

(** ** Reader-writer lock: who waits for whom *)

Section reader_writer_lock_extra.
Import reader_writer_lock.

(** X27.  On a lock that no reader holds, [acquire_write] returns and
    leaves the lock as open as it was, to writers and to readers, however
    many writers are in.  The first reader that acquires the lock keeps the
    next reader waiting until it releases. *)
Theorem lock_keeps_out_readers_only (l : ReaderWriterLock) :
  _read_ready l = true →
  _write_lock l = false →
  (∃ l1,
     acquire_write l = (Ok tt, l1)
     ∧ _read_ready l1 = true
     ∧ _write_lock l1 = false
     ∧ _writers l1 = _writers l + 1
     ∧ _readers l1 = _readers l)
  ∧ (_readers l = 0 →
     ∃ l1,
       acquire_read l = (Ok tt, l1)
       ∧ acquire_read l1 = (Hang, l1)
       ∧ release_read l1 = (Ok tt, l)).
Proof.
  destruct l as [ready readers writers locked]. cbn. intros -> ->. split.
  - unfold acquire_write, with_write_lock, bind, modify, gets, wait_read_ready. cbn.
    destruct (writers + 1 =? 1); cbn; eexists; by repeat split.
  - intros ->. eexists. split; [reflexivity|]. split; reflexivity.
Qed.

(** X28.  A writer that arrives while a reader holds the lock, and no other
    writer is in, waits with the inner lock taken; from then on the reader
    cannot release: [release_read], [acquire_read] and [acquire_write] wait,
    and change nothing. *)
Theorem writer_after_reader_deadlocks (l : ReaderWriterLock) :
  _read_ready l = false →
  _write_lock l = false →
  _writers l = 0 →
  ∃ l2,
    acquire_write l = (Hang, l2)
    ∧ _write_lock l2 = true
    ∧ _readers l2 = _readers l
    ∧ release_read l2 = (Hang, l2)
    ∧ acquire_read l2 = (Hang, l2)
    ∧ acquire_write l2 = (Hang, l2).
Proof.
  destruct l as [ready readers writers locked]. cbn. intros -> -> ->.
  eexists. split; [reflexivity|]. by repeat split.
Qed.

End reader_writer_lock_extra.

Lemma lock_keeps_out_readers_only_witness :
  let l := reader_writer_lock.mkLock true 0 2 false in
  reader_writer_lock._readers l = 0
  ∧ (∃ l1,
       reader_writer_lock.acquire_write l = (Ok tt, l1)
       ∧ reader_writer_lock._read_ready l1 = true
       ∧ reader_writer_lock._write_lock l1 = false
       ∧ reader_writer_lock._writers l1 = reader_writer_lock._writers l + 1
       ∧ reader_writer_lock._readers l1 = reader_writer_lock._readers l)
  ∧ ∃ l1,
      reader_writer_lock.acquire_read l = (Ok tt, l1)
      ∧ reader_writer_lock.acquire_read l1 = (Hang, l1)
      ∧ reader_writer_lock.release_read l1 = (Ok tt, l).
Proof.
  intros l.
  destruct (lock_keeps_out_readers_only l eq_refl eq_refl) as [Hw Hr].
  exact (conj eq_refl (conj Hw (Hr eq_refl))).
Defined.

Lemma writer_after_reader_deadlocks_witness :
  let l := snd (reader_writer_lock.acquire_read reader_writer_lock.init) in
  fst (reader_writer_lock.acquire_read reader_writer_lock.init) = Ok tt
  ∧ ∃ l2,
      reader_writer_lock.acquire_write l = (Hang, l2)
      ∧ reader_writer_lock._write_lock l2 = true
      ∧ reader_writer_lock._readers l2 = reader_writer_lock._readers l
      ∧ reader_writer_lock.release_read l2 = (Hang, l2)
      ∧ reader_writer_lock.acquire_read l2 = (Hang, l2)
      ∧ reader_writer_lock.acquire_write l2 = (Hang, l2).
Proof.
  intros l.
  exact (conj eq_refl (writer_after_reader_deadlocks l eq_refl eq_refl eq_refl)).
Defined.

(** ** B+ tree: the tree before its first split *)

Module b_plus_tree_extra.
Import b_plus_tree.

(** The entry a leaf holds for a pair with an integer key. *)
Definition entry (kv : Z * pyobj) : pyobj := OTuple [OInt kv.1; kv.2].

(** The arguments of [insert] and the pairs of [range_query] for it. *)
Definition pair (kv : Z * pyobj) : pyobj * pyobj := (OInt kv.1, kv.2).

(** Insertion into a list in ascending key order, after the equal keys. *)
Fixpoint place (k : Z) (v : pyobj) (l : list (Z * pyobj)) : list (Z * pyobj) :=
  match l with
  | [] => [(k, v)]
  | e :: l' => if k <? e.1 then (k, v) :: e :: l' else e :: place k v l'
  end.

Fixpoint ascending (l : list (Z * pyobj)) : Prop :=
  match l with
  | [] => True
  | a :: l' => Forall (λ b : Z * pyobj, a.1 ≤ b.1) l' ∧ ascending l'
  end.

(** The first pair of a list with a given key. *)
Definition first_with (k : Z) (l : list (Z * pyobj)) : option (Z * pyobj) :=
  List.find (λ kv, kv.1 =? k) l.

(** The number of pairs at the head of a list with a key below [k]. *)
Fixpoint rank (k : Z) (l : list (Z * pyobj)) : nat :=
  match l with
  | [] => 0
  | e :: l' => if e.1 <? k then S (rank k l') else 0
  end.

(** The pairs with a key from [lo] to [hi]. *)
Definition between (lo hi : Z) (l : list (Z * pyobj)) : list (Z * pyobj) :=
  List.filter (λ kv, (lo <=? kv.1) && (kv.1 <=? hi)) l.

(** A tree that is one leaf. *)
Definition leaf_of (m : Z) (l : list (Z * pyobj)) : BPlusTree :=
  mkTree [mkNode true (entry <$> l) [] None] 0 m.

(** The tree after the split of a root leaf that held [l], with the entry
    [med] as the separator of the new root. *)
Definition split_leaf (m : Z) (l : list (Z * pyobj)) (med : Z * pyobj) : BPlusTree :=
  mkTree [mkNode true (entry <$> take (Z.to_nat (m - 1)) l) [] (Some 2%nat);
          mkNode false [entry med] [0; 2]%nat None;
          mkNode true (entry <$> drop (Z.to_nat m) l) [] None] 1 m.

End b_plus_tree_extra.

Section b_plus_tree_extra_facts.
Import b_plus_tree b_plus_tree_extra.

Lemma get_node_ok a nd t : nodes t !! a = Some nd → get_node a t = (Ok nd, t).
Proof. intros H. unfold get_node. by rewrite H. Qed.

Lemma update_node_ok a nd f t :
  nodes t !! a = Some nd →
  update_node a f t = (Ok tt, mkTree (<[a := f nd]> (nodes t)) (root t) (order t)).
Proof. intros H. unfold update_node, bind. by rewrite (get_node_ok a nd). Qed.

Lemma place_split k v (l1 : list (Z * pyobj)) : ∀ l2,
  ascending (l1 ++ l2) →
  (∀ e, e ∈ l2 → k < e.1) →
  (∀ e, last l1 = Some e → e.1 ≤ k) →
  place k v (l1 ++ l2) = l1 ++ (k, v) :: l2.
Proof.
  induction l1 as [|a l1 IH]; intros l2 Hs H2 H1; cbn.
  - destruct l2 as [|e l2]; [done|]. cbn.
    rewrite (proj2 (Z.ltb_lt _ _)); [done|]. apply H2. by left.
  - destruct Hs as [Ha Hs].
    assert (a.1 ≤ k) as Hak.
    { destruct (last l1) as [e|] eqn:Hl.
      - transitivity e.1.
        + rewrite Forall_forall in Ha. apply Ha. apply elem_of_app. left.
          apply last_Some in Hl as [l' ->]. apply elem_of_app. right. by left.
        + apply H1. cbn. destruct l1; [done|]. by rewrite <- Hl.
      - apply last_None in Hl as ->. by apply H1. }
    rewrite (proj2 (Z.ltb_ge _ _)) by done. f_equal.
    apply IH; [done|done|]. intros e He. apply H1. cbn. destruct l1; [done|]. done.
Qed.

Lemma place_ascending k v l : ascending l → ascending (place k v l).
Proof.
  induction l as [|a l IH]; cbn; [by repeat constructor|]. intros [Ha Hs].
  destruct (k <? a.1) eqn:Hk.
  - apply Z.ltb_lt in Hk. cbn. split; [|done].
    constructor; [cbn; lia|]. eapply Forall_impl; [exact Ha|]. cbn. intros; lia.
  - apply Z.ltb_ge in Hk. cbn. split; [|by apply IH].
    assert (∀ l', Forall (λ b : Z * pyobj, a.1 ≤ b.1) l' →
                  Forall (λ b : Z * pyobj, a.1 ≤ b.1) (place k v l')) as Hp.
    { induction 1 as [|b l' Hb Hl' IH']; cbn; [repeat constructor; cbn; lia|].
      destruct (k <? b.1); repeat constructor; cbn; try done; lia. }
    by apply Hp.
Qed.

Lemma place_length k v l : length (place k v l) = S (length l).
Proof. induction l as [|e l IH]; cbn; [done|]. destruct (k <? e.1); cbn; by rewrite ?IH. Qed.

Lemma place_perm k v l : place k v l ≡ₚ (k, v) :: l.
Proof.
  induction l as [|e l IH]; cbn; [done|]. destruct (k <? e.1); [done|].
  rewrite IH. apply Permutation_swap.
Qed.

Lemma first_with_above k l e :
  Forall (λ b : Z * pyobj, e ≤ b.1) l → k < e → first_with k l = None.
Proof.
  induction 1 as [|b l Hb _ IH]; intros Hk; cbn; [done|].
  rewrite (proj2 (Z.eqb_neq _ _)) by lia. by apply IH.
Qed.

Lemma first_with_place k k' v' l :
  ascending l →
  first_with k (place k' v' l)
  = match first_with k l with
    | Some x => Some x
    | None => if k' =? k then Some (k', v') else None
    end.
Proof.
  unfold first_with.
  induction l as [|a l IH]; cbn; [done|]. intros [Ha Hs].
  destruct (k' <? a.1) eqn:Hk'.
  - apply Z.ltb_lt in Hk'. cbn. destruct (k' =? k) eqn:Hkk.
    + apply Z.eqb_eq in Hkk. subst k'.
      rewrite (proj2 (Z.eqb_neq _ _)) by lia.
      pose proof (first_with_above k l a.1 Ha Hk') as Hn. unfold first_with in Hn.
      by rewrite Hn.
    + destruct (a.1 =? k); [done|]. by destruct (find _ l).
  - cbn. destruct (a.1 =? k); [done|]. by apply IH.
Qed.

Lemma py_getitem_key {S} (e : Z * pyobj) : @py_getitem S (entry e) 0 = ret (OInt e.1).
Proof. reflexivity. Qed.

Lemma py_getitem_value {S} (e : Z * pyobj) : @py_getitem S (entry e) 1 = ret e.2.
Proof. reflexivity. Qed.

Lemma py_lt_int {S} (a b : Z) : @py_lt S (OInt a) (OInt b) = ret (a <? b).
Proof. reflexivity. Qed.

Lemma py_gt_int {S} (a b : Z) : @py_gt S (OInt a) (OInt b) = ret (b <? a).
Proof.
  unfold py_gt, cmp_op. cbn. f_equal. rewrite <- Z.gtb_ltb. reflexivity.
Qed.

Lemma py_le_int {S} (a b : Z) : @py_le S (OInt a) (OInt b) = ret (a <=? b).
Proof. reflexivity. Qed.

Lemma set_keys_same nd : set_keys (keys nd) nd = nd.
Proof. by destruct nd. Qed.

Lemma set_keys_twice ks ks' nd : set_keys ks (set_keys ks' nd) = set_keys ks nd.
Proof. done. Qed.

Lemma tree_same a nd t :
  nodes t !! a = Some nd → mkTree (<[a := nd]> (nodes t)) (root t) (order t) = t.
Proof. intros H. rewrite list_insert_id by done. by destruct t. Qed.

(** The loop that makes room in a leaf: the entries with a key above [key]
    have moved one place up, and the result is the place that is free. *)
Lemma shift_keys_spec (k : Z) (l : list (Z * pyobj)) : ∀ x r t a nd,
  nodes t !! a = Some nd →
  keys nd = (entry <$> l) ++ x :: r →
  ∃ l1 l2 y,
    l = l1 ++ l2
    ∧ (∀ e, e ∈ l2 → k < e.1)
    ∧ (∀ e, last l1 = Some e → e.1 ≤ k)
    ∧ shift_keys (length l) a (OInt k) t
      = (Ok (length l1),
         mkTree (<[a := set_keys ((entry <$> l1) ++ y :: (entry <$> l2) ++ r) nd]> (nodes t))
           (root t) (order t)).
Proof.
  induction l as [|e l IH] using rev_ind; intros x r t a nd Ha Hk.
  - exists [], [], x. split_and!; [done|by intros e ?%elem_of_nil|done|].
    cbn. unfold ret. f_equal. cbn in Hk. rewrite <- Hk, set_keys_same.
    by rewrite tree_same.
  - rewrite length_app, Nat.add_1_r. cbn [shift_keys].
    assert (keys nd !! length l = Some (entry e)) as Hlook.
    { rewrite Hk, fmap_app, <- app_assoc. apply list_lookup_middle. by rewrite length_fmap. }
    unfold bind at 1. rewrite (get_node_ok a nd) by done.
    unfold bind at 1. rewrite Hlook. cbn [of_option]. unfold ret at 1.
    unfold bind at 1. rewrite py_getitem_key. unfold ret at 1.
    unfold bind at 1. rewrite py_lt_int. unfold ret at 1.
    destruct (k <? e.1) eqn:Hlt.
    + apply Z.ltb_lt in Hlt.
      assert (S (length l) < length (keys nd))%nat as Hlen.
      { rewrite Hk, length_app, length_fmap, length_app. cbn. lia. }
      unfold bind at 1. unfold py_setitem. rewrite bool_decide_eq_true_2 by done.
      unfold ret at 1.
      unfold bind at 1. rewrite (update_node_ok a nd) by done.
      set (ks := <[S (length l) := entry e]> (keys nd)).
      assert (ks = (entry <$> l) ++ entry e :: entry e :: r) as Hks.
      { unfold ks. rewrite Hk, fmap_app, <- app_assoc. cbn.
        rewrite insert_app_r_alt by (rewrite length_fmap; lia).
        rewrite length_fmap. by replace (S (length l) - length l)%nat with 1%nat by lia. }
      destruct (IH (entry e) (entry e :: r)
                  (mkTree (<[a := set_keys ks nd]> (nodes t)) (root t) (order t))
                  a (set_keys ks nd)) as (l1 & l2 & y & Hl & H2 & H1 & Hrun).
      { cbn. apply list_lookup_insert_eq. by eapply lookup_lt_Some. }
      { done. }
      exists l1, (l2 ++ [e]), y. split_and!.
      * by rewrite Hl, app_assoc.
      * intros e' [He'|He']%elem_of_app; [by apply H2|].
        apply list_elem_of_singleton in He'. by subst.
      * done.
      * rewrite Hrun. cbn. rewrite list_insert_insert_eq, set_keys_twice.
        by rewrite fmap_app, <- app_assoc.
    + apply Z.ltb_ge in Hlt. exists (l ++ [e]), [], x. split_and!.
      * by rewrite app_nil_r.
      * by intros e' ?%elem_of_nil.
      * intros e'. rewrite last_snoc. by intros [= <-].
      * unfold ret. rewrite length_app, Nat.add_1_r. f_equal. cbn.
        rewrite <- Hk, set_keys_same. by rewrite tree_same.
Qed.

(** Insertion into a leaf that holds entries in ascending order. *)
Lemma _insert_non_full_leaf fuel a nd (l : list (Z * pyobj)) k v t :
  nodes t !! a = Some nd →
  leaf nd = true →
  keys nd = entry <$> l →
  ascending l →
  _insert_non_full (S fuel) a (OInt k) v t
  = (Ok tt, mkTree (<[a := set_keys (entry <$> place k v l) nd]> (nodes t))
              (root t) (order t)).
Proof.
  intros Ha Hleaf Hk Hs.
  assert (a < length (nodes t))%nat as Hlt by (by eapply lookup_lt_Some).
  cbn [_insert_non_full].
  unfold bind at 1. rewrite (get_node_ok a nd) by done. rewrite Hleaf.
  unfold bind at 1. rewrite (update_node_ok a nd) by done.
  set (nd1 := set_keys (keys nd ++ [OTuple [ONone; ONone]]) nd).
  set (t1 := mkTree (<[a := nd1]> (nodes t)) (root t) (order t)).
  destruct (shift_keys_spec k l (OTuple [ONone; ONone]) [] t1 a nd1)
    as (l1 & l2 & y & Hl & H2 & H1 & Hrun).
  { cbn. by apply list_lookup_insert_eq. }
  { cbn. by rewrite Hk. }
  unfold bind at 1. rewrite Hk, length_fmap, Hrun.
  set (nd2 := set_keys ((entry <$> l1) ++ y :: (entry <$> l2) ++ []) nd1).
  unfold bind at 1. rewrite (get_node_ok a nd2)
    by (cbn; apply list_lookup_insert_eq; by rewrite length_insert).
  unfold bind at 1. unfold py_setitem.
  rewrite bool_decide_eq_true_2
    by (cbn; rewrite length_app, length_fmap; cbn; lia).
  unfold ret at 1.
  rewrite (update_node_ok a nd2)
    by (cbn; apply list_lookup_insert_eq; by rewrite length_insert).
  cbn. rewrite !list_insert_insert_eq. do 3 f_equal.
  rewrite app_nil_r.
  rewrite insert_app_r_alt by (rewrite length_fmap; lia).
  rewrite length_fmap, Nat.sub_diag. cbn.
  rewrite Hl, place_split; [|by rewrite <- Hl|done|done].
  by rewrite fmap_app.
Qed.

Lemma insert_leaf m (l : list (Z * pyobj)) k v :
  ascending l →
  Z.of_nat (length l) ≠ 2 * m - 1 →
  insert (OInt k) v (leaf_of m l) = (Ok tt, leaf_of m (place k v l)).
Proof.
  intros Hs Hlen. unfold insert, leaf_of.
  unfold bind at 1. unfold gets at 1. cbn [root].
  unfold bind at 1. rewrite (get_node_ok 0 (mkNode true (entry <$> l) [] None)) by done.
  unfold bind at 1. unfold gets at 1. cbn [order].
  unfold is_full. cbn [keys]. rewrite length_fmap.
  rewrite (proj2 (Z.eqb_neq _ _)) by done.
  unfold bind at 1. unfold ret at 1.
  unfold bind at 1. unfold gets at 1. cbn [root].
  unfold bind at 1. unfold depth_bound, gets. cbn [nodes length].
  by rewrite (_insert_non_full_leaf 1 0 (mkNode true (entry <$> l) [] None) l).
Qed.

Lemma insert_all_leaf m (kvs : list (Z * pyobj)) : ∀ l,
  ascending l →
  Z.of_nat (length l + length kvs) ≤ 2 * m - 1 →
  ∃ l',
    insert_all (pair <$> kvs) (leaf_of m l) = (Ok tt, leaf_of m l')
    ∧ ascending l'
    ∧ l' ≡ₚ l ++ kvs
    ∧ ∀ k, first_with k l'
           = match first_with k l with Some x => Some x | None => first_with k kvs end.
Proof.
  induction kvs as [|[k v] kvs IH]; intros l Hs Hlen.
  - exists l. split_and!; [done|done|by rewrite app_nil_r|].
    intros k. by destruct (first_with k l).
  - cbn [fmap list_fmap insert_all pair]. unfold bind at 1. cbn [fst snd].
    rewrite insert_leaf; [|done|cbn in Hlen; lia].
    destruct (IH (place k v l)) as (l' & Hrun & Hs' & Hp & Hf).
    { by apply place_ascending. }
    { rewrite place_length. cbn in Hlen. lia. }
    exists l'. split_and!; [done|done| |].
    + rewrite Hp, place_perm. by rewrite <- Permutation_middle.
    + intros k0. rewrite Hf, first_with_place by done.
      destruct (first_with k0 l); [done|]. unfold first_with. cbn.
      by destruct (k =? k0).
Qed.

Lemma scan_search_spec k (l : list (Z * pyobj)) : ∀ i t,
  scan_search (entry <$> l) i (OInt k) t = (Ok (i + rank k l)%nat, t).
Proof.
  induction l as [|e l IH]; intros i t; cbn [fmap list_fmap scan_search rank].
  - unfold ret. by rewrite Nat.add_0_r.
  - unfold bind at 1. rewrite py_getitem_key. unfold ret at 1.
    unfold bind at 1. rewrite py_gt_int. unfold ret at 1.
    destruct (e.1 <? k).
    + rewrite IH. by rewrite Nat.add_succ_r.
    + unfold ret. by rewrite Nat.add_0_r.
Qed.

Lemma rank_first_with k (l : list (Z * pyobj)) :
  ascending l →
  match l !! rank k l with
  | Some e => if e.1 =? k then Some e.2 else None
  | None => None
  end = snd <$> first_with k l.
Proof.
  unfold first_with.
  induction l as [|e l IH]; cbn; [done|]. intros [He Hs].
  destruct (e.1 <? k) eqn:Hlt.
  - apply Z.ltb_lt in Hlt. rewrite (proj2 (Z.eqb_neq _ _)) by lia. cbn. by apply IH.
  - apply Z.ltb_ge in Hlt. cbn. destruct (e.1 =? k) eqn:Heq; [done|].
    apply Z.eqb_neq in Heq.
    pose proof (first_with_above k l e.1 He ltac:(lia)) as Hn. unfold first_with in Hn.
    by rewrite Hn.
Qed.

Lemma search_leaf m (l : list (Z * pyobj)) k :
  ascending l →
  search (OInt k) (leaf_of m l) = (Ok (snd <$> first_with k l), leaf_of m l).
Proof.
  intros Hs. unfold search, leaf_of.
  unfold bind at 1. unfold gets at 1. cbn [root].
  unfold bind at 1. unfold depth_bound, gets. cbn [nodes length _search].
  unfold bind at 1. rewrite (get_node_ok 0 (mkNode true (entry <$> l) [] None)) by done.
  cbn [keys leaf]. unfold bind at 1. rewrite scan_search_spec. cbn [Nat.add].
  rewrite list_lookup_fmap. rewrite <- (rank_first_with k l Hs).
  destruct (l !! rank k l) as [e|]; cbn [fmap option_fmap option_map]; [|done].
  unfold bind at 1. rewrite py_getitem_key. unfold ret at 1.
  cbn [py_eqb]. destruct (e.1 =? k); [|done].
  unfold bind. by rewrite py_getitem_value.
Qed.

Lemma between_above lo hi e (l : list (Z * pyobj)) :
  Forall (λ b : Z * pyobj, e ≤ b.1) l → hi < e → between lo hi l = [].
Proof.
  unfold between. induction 1 as [|b l Hb _ IH]; intros Hhi; cbn; [done|].
  rewrite (proj2 (Z.leb_gt b.1 hi)) by lia. rewrite andb_false_r. by apply IH.
Qed.

Lemma scan_leaf_spec lo hi (l : list (Z * pyobj)) : ∀ result t,
  ascending l →
  ∃ r,
    scan_leaf (entry <$> l) (OInt lo) (OInt hi) result t = (Ok r, t)
    ∧ (r = inl (result ++ (pair <$> between lo hi l))
       ∨ r = inr (result ++ (pair <$> between lo hi l))).
Proof.
  induction l as [|e l IH]; intros result t Hs.
  - eexists. split; [reflexivity|]. left. cbn. by rewrite app_nil_r.
  - destruct Hs as [He Hs]. cbn [fmap list_fmap scan_leaf].
    unfold bind at 1. change (py_unpack2 (entry e) t) with (Ok (OInt e.1, e.2), t).
    cbn iota beta.
    unfold bind at 1. rewrite py_le_int. unfold ret at 1.
    unfold between. cbn [List.filter].
    destruct (lo <=? e.1) eqn:Hlo.
    + unfold bind at 1. rewrite py_le_int. unfold ret at 1. cbn [andb].
      destruct (e.1 <=? hi) eqn:Hhi.
      * destruct (IH (result ++ [(OInt e.1, e.2)]) t Hs) as (r & Hrun & Hr).
        exists r. split; [done|]. cbn. rewrite <- !app_assoc in Hr. exact Hr.
      * unfold bind at 1. rewrite py_gt_int. unfold ret at 1.
        apply Z.leb_gt in Hhi. rewrite (proj2 (Z.ltb_lt _ _)) by done.
        eexists. split; [reflexivity|]. right.
        pose proof (between_above lo hi e.1 l He Hhi) as Hn. unfold between in Hn.
        rewrite Hn. cbn. by rewrite app_nil_r.
    + unfold bind at 1. unfold ret at 1. cbn [andb].
      unfold bind at 1. rewrite py_gt_int. unfold ret at 1.
      destruct (hi <? e.1) eqn:Hhi.
      * apply Z.ltb_lt in Hhi. eexists. split; [reflexivity|]. right.
        pose proof (between_above lo hi e.1 l He Hhi) as Hn. unfold between in Hn.
        rewrite Hn. cbn. by rewrite app_nil_r.
      * apply (IH result t Hs).
Qed.

Lemma range_query_leaf m (l : list (Z * pyobj)) lo hi :
  ascending l →
  range_query (OInt lo) (OInt hi) (leaf_of m l)
  = (Ok (pair <$> between lo hi l), leaf_of m l).
Proof.
  intros Hs. unfold range_query, leaf_of.
  unfold bind at 1. unfold gets at 1. cbn [root].
  unfold bind at 1. unfold depth_bound, gets. cbn [nodes length].
  unfold bind at 1. cbn [_find_leaf].
  unfold bind at 1. rewrite (get_node_ok 0 (mkNode true (entry <$> l) [] None)) by done.
  cbn [leaf]. unfold ret at 1. cbn [walk_leaves].
  unfold bind at 1. rewrite (get_node_ok 0 (mkNode true (entry <$> l) [] None)) by done.
  cbn [keys next].
  destruct (scan_leaf_spec lo hi l [] (mkTree [mkNode true (entry <$> l) [] None] 0 m) Hs)
    as (r & Hrun & Hr).
  unfold bind. rewrite Hrun. by destruct Hr as [-> | ->].
Qed.

(** X29.  A tree that has received integer keys, at most [2 * order - 1]
    of them, is one leaf that holds the pairs in ascending key order, equal
    keys in the order they came.  [search] returns the value of the first
    pair inserted under the key, or [None]; [range_query] returns the pairs
    with a key in the range, in ascending order. *)
Theorem tree_before_first_split (m : Z) (kvs : list (Z * pyobj)) :
  Z.of_nat (length kvs) ≤ 2 * m - 1 →
  ∃ t l,
    insert_all (pair <$> kvs) (init m) = (Ok tt, t)
    ∧ t = leaf_of m l
    ∧ ascending l
    ∧ l ≡ₚ kvs
    ∧ (∀ k, search (OInt k) t = (Ok (snd <$> first_with k kvs), t))
    ∧ (∀ lo hi, range_query (OInt lo) (OInt hi) t = (Ok (pair <$> between lo hi l), t)).
Proof.
  intros Hlen.
  destruct (insert_all_leaf m kvs []) as (l & Hrun & Hs & Hp & Hf); [done|done|].
  exists (leaf_of m l), l. split_and!; try done.
  - intros k. rewrite search_leaf by done. by rewrite Hf.
  - intros lo hi. by apply range_query_leaf.
Qed.

Lemma index_nonneg {A} (l : list A) i x :
  0 ≤ i → l !! Z.to_nat i = Some x → Py.index l i = Some x.
Proof.
  intros Hi Hl. unfold Py.index.
  rewrite (proj2 (Z.ltb_ge _ _)) by done.
  apply lookup_lt_Some in Hl as Hlt.
  rewrite (proj2 (Z.leb_le _ _)) by done.
  rewrite (proj2 (Z.ltb_lt _ _)) by lia. done.
Qed.

Lemma slice_from_nonneg {A} (l : list A) i :
  0 ≤ i ≤ Z.of_nat (length l) → Py.slice_from l i = drop (Z.to_nat i) l.
Proof.
  intros Hi. unfold Py.slice_from, Py.bound.
  rewrite (proj2 (Z.ltb_ge _ _)) by lia. f_equal. lia.
Qed.

Lemma slice_to_nonneg {A} (l : list A) i :
  0 ≤ i ≤ Z.of_nat (length l) → Py.slice_to l i = take (Z.to_nat i) l.
Proof.
  intros Hi. unfold Py.slice_to, Py.bound.
  rewrite (proj2 (Z.ltb_ge _ _)) by lia. f_equal. lia.
Qed.


Lemma split_root m (l : list (Z * pyobj)) med r :
  1 ≤ m → Z.of_nat (length l) = 2 * m - 1 → l !! Z.to_nat (m - 1) = Some med →
  _split_child 1 0
    (mkTree [mkNode true (entry <$> l) [] None; mkNode false [] [0%nat] None] r m)
  = (Ok tt, mkTree (nodes (split_leaf m l med)) r m).
Proof.
  intros Hm Hlen Hmed.
  assert (Py.index (entry <$> l) (m - 1) = Some (entry med)) as Hidx.
  { apply index_nonneg; [lia|]. by rewrite list_lookup_fmap, Hmed. }
  assert (Py.slice_from (entry <$> l) m = entry <$> drop (Z.to_nat m) l) as Hfrom.
  { rewrite slice_from_nonneg by (rewrite length_fmap; lia). by rewrite fmap_drop. }
  assert (Py.slice_to (entry <$> l) (m - 1) = entry <$> take (Z.to_nat (m - 1)) l) as Hto.
  { rewrite slice_to_nonneg by (rewrite length_fmap; lia). by rewrite fmap_take. }
  unfold _split_child.
  unfold bind at 1. unfold gets at 1. cbn [order].
  unfold bind at 1. erewrite get_node_ok by reflexivity.
  cbn [children]. change (Py.index [0%nat] (Z.of_nat 0)) with (Some 0%nat).
  unfold bind at 1. cbn [of_option]. unfold ret at 1.
  unfold bind at 1. erewrite get_node_ok by reflexivity.
  unfold bind at 1. unfold new_node at 1. cbn [leaf keys nodes length app root order].
  unfold bind at 1. rewrite Hidx. cbn [of_option]. unfold ret at 1.
  unfold bind at 1. erewrite update_node_ok by reflexivity.
  cbn -[Py.slice_from Py.slice_to Py.index entry update_node get_node bind Z.sub].
  unfold bind at 1. erewrite update_node_ok by reflexivity.
  cbn -[Py.slice_from Py.slice_to Py.index entry update_node get_node bind Z.sub].
  unfold bind at 1. erewrite get_node_ok by reflexivity.
  unfold bind at 1. erewrite update_node_ok by reflexivity.
  cbn -[Py.slice_from Py.slice_to Py.index entry update_node get_node bind Z.sub].
  unfold bind at 1. erewrite update_node_ok by reflexivity.
  cbn -[Py.slice_from Py.slice_to Py.index entry update_node get_node bind Z.sub].
  unfold bind at 1. erewrite get_node_ok by reflexivity.
  cbn -[Py.slice_from Py.slice_to Py.index entry update_node get_node bind Z.sub].
  unfold bind at 1. erewrite update_node_ok by reflexivity.
  cbn -[Py.slice_from Py.slice_to Py.index entry update_node get_node bind Z.sub].
  erewrite update_node_ok by reflexivity.
  cbn -[Py.slice_from Py.slice_to Py.index entry update_node get_node bind Z.sub].
  rewrite Hfrom, Hto. reflexivity.
Qed.

Lemma py_lt_int_entry {S} (k : Z) (e : Z * pyobj) :
  @py_lt S (OInt k) (entry e) = raise TypeError.
Proof. reflexivity. Qed.

Lemma py_gt_int_entry {S} (k : Z) (e : Z * pyobj) :
  @py_gt S (OInt k) (entry e) = raise TypeError.
Proof. reflexivity. Qed.

(** After the split the new root holds an entry, which no integer key
    compares with. *)
Lemma _insert_non_full_split_root fuel m (l : list (Z * pyobj)) med k v :
  _insert_non_full (S fuel) 1 (OInt k) v (split_leaf m l med)
  = (Raise TypeError, split_leaf m l med).
Proof.
  cbn [_insert_non_full]. unfold split_leaf.
  unfold bind at 1. erewrite get_node_ok by reflexivity. cbn [leaf keys length scan_down].
  unfold bind at 1. unfold bind at 1. cbn [lookup list_lookup of_option]. unfold ret at 1.
  unfold bind at 1. by rewrite py_lt_int_entry.
Qed.

Lemma insert_full_leaf m (l : list (Z * pyobj)) med k v :
  1 ≤ m → Z.of_nat (length l) = 2 * m - 1 → l !! Z.to_nat (m - 1) = Some med →
  insert (OInt k) v (leaf_of m l) = (Raise TypeError, split_leaf m l med).
Proof.
  intros Hm Hlen Hmed. unfold insert, leaf_of.
  unfold bind at 1. unfold gets at 1. cbn [root].
  unfold bind at 1. rewrite (get_node_ok 0 (mkNode true (entry <$> l) [] None)) by done.
  unfold bind at 1. unfold gets at 1. cbn [order].
  unfold is_full. cbn [keys]. rewrite length_fmap.
  rewrite (proj2 (Z.eqb_eq _ _)) by done.
  unfold bind at 1. unfold bind at 1. unfold new_node at 1. cbn [nodes length app root order].
  unfold bind at 1. erewrite update_node_ok by reflexivity.
  cbn -[_split_child bind _insert_non_full].
  change (set_children [0%nat] (mkNode false [] [] None))
    with (mkNode false [] [0%nat] None).
  unfold bind at 1. rewrite (split_root m l med 0 Hm Hlen Hmed).
  unfold modify at 1. cbn [nodes root order].
  unfold bind at 1. unfold gets at 1. cbn [root].
  unfold bind at 1. unfold depth_bound, gets. cbn [nodes split_leaf length].
  apply _insert_non_full_split_root.
Qed.

Lemma insert_split_leaf m (l : list (Z * pyobj)) med k v :
  2 ≤ m →
  insert (OInt k) v (split_leaf m l med) = (Raise TypeError, split_leaf m l med).
Proof.
  intros Hm. unfold insert.
  unfold bind at 1. unfold gets at 1. cbn [root split_leaf].
  unfold bind at 1. erewrite get_node_ok by reflexivity.
  unfold bind at 1. unfold gets at 1. cbn [order].
  unfold is_full. cbn [keys length order split_leaf].
  rewrite (proj2 (Z.eqb_neq _ _)) by lia.
  unfold bind at 1. unfold ret at 1.
  unfold bind at 1. unfold gets at 1. cbn [root].
  unfold bind at 1. unfold depth_bound, gets. cbn [nodes length].
  apply (_insert_non_full_split_root 3 m l med).
Qed.

Lemma range_query_split_leaf m (l : list (Z * pyobj)) med lo hi :
  range_query (OInt lo) (OInt hi) (split_leaf m l med)
  = (Raise TypeError, split_leaf m l med).
Proof.
  unfold range_query.
  unfold bind at 1. unfold gets at 1. cbn [root split_leaf].
  unfold bind at 1. unfold depth_bound, gets. cbn [nodes length _find_leaf].
  unfold bind at 1. unfold bind at 1. erewrite get_node_ok by reflexivity.
  cbn [leaf keys scan_up]. unfold bind at 1. unfold bind at 1.
  by rewrite py_gt_int_entry.
Qed.

Lemma ascending_take n (l : list (Z * pyobj)) : ascending l → ascending (take n l).
Proof.
  revert n. induction l as [|e l IH]; intros [|n]; cbn; try done.
  intros [He Hs]. split; [by apply Forall_take|by apply IH].
Qed.

Lemma _search_leaf_node fuel a nd (l : list (Z * pyobj)) k t :
  nodes t !! a = Some nd →
  leaf nd = true →
  keys nd = entry <$> l →
  ascending l →
  _search (S fuel) a (OInt k) t = (Ok (snd <$> first_with k l), t).
Proof.
  intros Ha Hleaf Hk Hs. cbn [_search].
  unfold bind at 1. rewrite (get_node_ok a nd) by done.
  rewrite Hk, Hleaf. unfold bind at 1. rewrite scan_search_spec. cbn [Nat.add].
  rewrite list_lookup_fmap. rewrite <- (rank_first_with k l Hs).
  destruct (l !! rank k l) as [e|]; cbn [fmap option_fmap option_map]; [|done].
  unfold bind at 1. rewrite py_getitem_key. unfold ret at 1.
  cbn [py_eqb]. destruct (e.1 =? k); [|done].
  unfold bind. by rewrite py_getitem_value.
Qed.

Lemma first_with_none k (l : list (Z * pyobj)) :
  (∀ e, e ∈ l → e.1 ≠ k) → first_with k l = None.
Proof.
  unfold first_with. induction l as [|e l IH]; intros H; cbn; [done|].
  rewrite (proj2 (Z.eqb_neq _ _)) by (apply H; by left).
  apply IH. intros e' He'. apply H. by right.
Qed.

Lemma search_split_leaf_median m (l : list (Z * pyobj)) med :
  ascending l →
  (∀ e, e ∈ take (Z.to_nat (m - 1)) l → e.1 ≠ med.1) →
  search (OInt med.1) (split_leaf m l med) = (Ok None, split_leaf m l med).
Proof.
  intros Hs Hne. unfold search.
  unfold bind at 1. unfold gets at 1. cbn [root split_leaf].
  unfold bind at 1. unfold depth_bound, gets.
  change (_search (S (length (nodes (split_leaf m l med)))) 1 (OInt med.1)) with
    (do nd <- get_node 1;
     do i <- scan_search (keys nd) 0 (OInt med.1);
     if leaf nd then
       match keys nd !! i with
       | Some e =>
           do k0 <- py_getitem e 0;
           if py_eqb k0 (OInt med.1) then do v <- py_getitem e 1; ret (Some v)
           else ret None
       | None => ret None
       end
     else
       do child <- of_option (children nd !! i) IndexError;
       _search 3 child (OInt med.1)).
  unfold bind at 1. erewrite get_node_ok by reflexivity. cbn [keys leaf children].
  unfold bind at 1. rewrite (scan_search_spec med.1 [med]). cbn [rank Nat.add].
  rewrite Z.ltb_irrefl.
  unfold bind at 1. cbn [lookup list_lookup of_option]. unfold ret at 1.
  rewrite (_search_leaf_node 2 0
             (mkNode true (entry <$> take (Z.to_nat (m - 1)) l) [] (Some 2%nat))
             (take (Z.to_nat (m - 1)) l));
    [|reflexivity|reflexivity|reflexivity|by apply ascending_take].
  by rewrite first_with_none.
Qed.

(** X30.  The insertion that finds the root leaf full splits it, moves the
    median entry out of the leaves to the new root, and raises [TypeError]
    when it compares its key with that entry.  From then on every insertion
    and every range query with integer keys raises [TypeError], and [search]
    does not find the median pair. *)
Theorem first_split_breaks_tree (m : Z) (l : list (Z * pyobj)) (med : Z * pyobj)
    (k : Z) (v : pyobj) :
  2 ≤ m →
  ascending l →
  Z.of_nat (length l) = 2 * m - 1 →
  l !! Z.to_nat (m - 1) = Some med →
  ∃ t,
    insert (OInt k) v (leaf_of m l) = (Raise TypeError, t)
    ∧ nodes t !! root t = Some (mkNode false [entry med] [0; 2]%nat None)
    ∧ (∀ k' v', insert (OInt k') v' t = (Raise TypeError, t))
    ∧ (∀ lo hi, range_query (OInt lo) (OInt hi) t = (Raise TypeError, t))
    ∧ ((∀ e, e ∈ take (Z.to_nat (m - 1)) l → e.1 ≠ med.1) →
       search (OInt med.1) t = (Ok None, t)).
Proof.
  intros Hm Hs Hlen Hmed. exists (split_leaf m l med). split_and!.
  - apply insert_full_leaf; [lia|done|done].
  - done.
  - intros k' v'. by apply insert_split_leaf.
  - intros lo hi. apply range_query_split_leaf.
  - intros Hne. by apply search_split_leaf_median.
Qed.

End b_plus_tree_extra_facts.

Lemma tree_before_first_split_witness :
  let kvs := [(5, b_plus_tree.OInt 50); (3, b_plus_tree.OInt 30); (5, b_plus_tree.OInt 51)] in
  Z.of_nat (length kvs) ≤ 2 * 2 - 1
  ∧ ∃ t l,
      b_plus_tree.insert_all (b_plus_tree_extra.pair <$> kvs) (b_plus_tree.init 2) = (Ok tt, t)
      ∧ t = b_plus_tree_extra.leaf_of 2 l
      ∧ b_plus_tree_extra.ascending l
      ∧ l ≡ₚ kvs
      ∧ (∀ k, b_plus_tree.search (b_plus_tree.OInt k) t
              = (Ok (snd <$> b_plus_tree_extra.first_with k kvs), t))
      ∧ (∀ lo hi, b_plus_tree.range_query (b_plus_tree.OInt lo) (b_plus_tree.OInt hi) t
                  = (Ok (b_plus_tree_extra.pair <$> b_plus_tree_extra.between lo hi l), t)).
Proof.
  intros kvs.
  assert (Z.of_nat (length kvs) ≤ 2 * 2 - 1) as H by (vm_compute; discriminate).
  exact (conj H (tree_before_first_split 2 kvs H)).
Defined.

Lemma first_split_breaks_tree_witness :
  let l := [(1, b_plus_tree.OInt 10); (3, b_plus_tree.OInt 30); (5, b_plus_tree.OInt 50)] in
  let med := (3, b_plus_tree.OInt 30) in
  b_plus_tree_extra.ascending l
  ∧ b_plus_tree.insert_all (b_plus_tree_extra.pair <$> l) (b_plus_tree.init 2)
    = (Ok tt, b_plus_tree_extra.leaf_of 2 l)
  ∧ ∃ t,
      b_plus_tree.insert (b_plus_tree.OInt 4) (b_plus_tree.OInt 40)
        (b_plus_tree_extra.leaf_of 2 l) = (Raise TypeError, t)
      ∧ b_plus_tree.nodes t !! b_plus_tree.root t
        = Some (b_plus_tree.mkNode false [b_plus_tree_extra.entry med] [0; 2]%nat None)
      ∧ (∀ k' v', b_plus_tree.insert (b_plus_tree.OInt k') v' t = (Raise TypeError, t))
      ∧ (∀ lo hi, b_plus_tree.range_query (b_plus_tree.OInt lo) (b_plus_tree.OInt hi) t
                  = (Raise TypeError, t))
      ∧ ((∀ e, e ∈ take (Z.to_nat (2 - 1)) l → e.1 ≠ med.1) →
         b_plus_tree.search (b_plus_tree.OInt med.1) t = (Ok None, t)).
Proof.
  intros l med.
  assert (b_plus_tree_extra.ascending l) as Hs.
  { cbn. repeat split; repeat constructor; cbn; lia. }
  refine (conj Hs (conj eq_refl _)).
  apply (first_split_breaks_tree 2 l med 4 (b_plus_tree.OInt 40));
    [lia | exact Hs | reflexivity | reflexivity].
Defined.
(** ** Filestore: what the calls of the facade do *)

(** C2.  [get_document] after [add_document]: no call gets as far as a
    document.  The constructor of the filestore raises a configuration
    error, as the constructor of the document store calls [IndexManager()]
    without the configuration it requires.  On a filestore object, whatever
    its state and whatever the elided helper [_add_document] does,
    [add_document] starts a transaction and then raises a document error
    (it waits when the manager's lock is held): [get_collection] reads the
    collection through the wrapper of [reader_lock], which raises
    [TypeError] before the store is read, and the helper is not reached.
    [get_document] raises a storage error for every id, for the same reason,
    and [create], which would stamp [id], [created_at] and [updated_at],
    raises [TypeError] in the wrapper of [writer_lock]. *)
Theorem add_document_never_returns
    (cd : json_filestore.Codec)
    (schema_validate : json_filestore.jval → gmap string json_filestore.jval → bool)
    (helpers : enhanced_filestore.Helpers)
    (index_config : index_manager.IndexManagerConfig)
    (cancel_at : option nat) (collection_id doc_id now1 now2 : Z)
    (d : gmap string json_filestore.jval)
    (store : json_filestore.JSONFilestore)
    (s : transaction.System enhanced_filestore.EnhancedFilestore) :
  enhanced_filestore.init index_config = Raise ConfigurationException
  ∧ enhanced_filestore.add_document cd schema_validate helpers cancel_at collection_id d s
    = (if transaction.lock (transaction.manager s) then (Hang, s)
       else (Raise DocumentException, started s))
  ∧ enhanced_filestore.in_system (enhanced_filestore.get_document cd doc_id) s
    = (Raise StorageException, s)
  ∧ json_filestore.create cd d now1 now2 store = (Raise TypeError, store)
  ∧ json_filestore.read cd doc_id store = (Raise TypeError, store).
Proof.
  split; [reflexivity|].
  split; [apply add_document_run|].
  split; [apply in_system_raises, get_document_raises|].
  split; reflexivity.
Qed.

(** C5.  [update] of the document store raises [TypeError] for every
    store, id and update map, and leaves the store as it was: the wrapper of
    [writer_lock] raises before the method is called, so that no field is
    overridden and [updated_at] is not set.  [update_document] of the
    filestore starts a transaction and raises a document error (it waits when
    the manager's lock is held), whatever the elided helper
    [_update_document] does: it stops at [get_document]. *)
Theorem update_never_succeeds
    (cd : json_filestore.Codec)
    (schema_validate : json_filestore.jval → gmap string json_filestore.jval → bool)
    (helpers : enhanced_filestore.Helpers)
    (cancel_at : option nat) (doc_id now : Z)
    (updates : gmap string json_filestore.jval)
    (store : json_filestore.JSONFilestore)
    (s : transaction.System enhanced_filestore.EnhancedFilestore) :
  json_filestore.update cd doc_id updates now store = (Raise TypeError, store)
  ∧ enhanced_filestore.update_document cd schema_validate helpers cancel_at doc_id updates s
    = (if transaction.lock (transaction.manager s) then (Hang, s)
       else (Raise DocumentException, started s)).
Proof.
  split; [reflexivity|apply update_document_run].
Qed.

(** C6.  [delete] and [read] of the document store raise [TypeError] for
    every store and id and leave the store as it was: nothing is deleted and
    no cache entry is invalidated.  [delete_document] of the filestore
    starts a transaction and raises a document error (it waits when the
    manager's lock is held), whatever the elided helper [_delete_document]
    does, so that it never returns true; and [get_document] raises a storage
    error, not the not-found error, for every id. *)
Theorem delete_never_returns
    (cd : json_filestore.Codec)
    (helpers : enhanced_filestore.Helpers)
    (cancel_at : option nat) (doc_id : Z)
    (store : json_filestore.JSONFilestore)
    (s : transaction.System enhanced_filestore.EnhancedFilestore) :
  json_filestore.delete doc_id store = (Raise TypeError, store)
  ∧ json_filestore.read cd doc_id store = (Raise TypeError, store)
  ∧ enhanced_filestore.delete_document cd helpers cancel_at doc_id s
    = (if transaction.lock (transaction.manager s) then (Hang, s)
       else (Raise DocumentException, started s))
  ∧ enhanced_filestore.in_system (enhanced_filestore.get_document cd doc_id) s
    = (Raise StorageException, s)
  ∧ isinstance StorageException DocumentNotFoundError = false.
Proof.
  split; [reflexivity|]. split; [reflexivity|].
  split; [apply delete_document_run|].
  split; [apply in_system_raises, get_document_raises|reflexivity].
Qed.


